(** * CV distribution pipeline: eligibility, quota, dispatch queue, monitor

    A shallow embedding of [services/cvDistributionService.js] and of
    [middleware/distributionMonitoring.js], with the properties of the
    distribution pipeline stated and proved over it. The two jobs of
    [services/backgroundJobsManager.js] that write the documents the
    pipeline reads, the nightly reset of the counters and the check of the
    subscriptions, are embedded with them.

    Conventions of the embedding:
    - a JavaScript [Date] is its [getTime()] value, a [Z] number of
      milliseconds; [new Date(0)] is [0];
    - a MongoDB [ObjectId] is an [N]; [toString()] on it is injective, so
      the set of strings [activeCompanyIds] is a [gset N];
    - a field that a lean document may lack is an [option];
    - a collection is the list of its documents in natural order;
    - [console.log] and [console.error] calls are not modelled. *)

From Stdlib Require Import ZArith QArith Lia Ascii String Floats.
From Stdlib Require Uint63.
From stdpp Require Import base option list gmap strings.

Local Open Scope Z_scope.
Local Close Scope Q_scope.

(** ** Documents of the store (models/index.js) *)

Inductive access := pending | approved | denied.
Inductive sub_status := active | inactive | expired.

#[global] Instance access_eq_dec : EqDecision access.
Proof. solve_decision. Defined.
#[global] Instance sub_status_eq_dec : EqDecision sub_status.
Proof. solve_decision. Defined.

(** One entry of [recruitmentEmails]. *)
Record emailObj := {
  email : string;
  isActive : bool
}.

(** The [distributionSettings] sub-document. *)
Record settings := {
  maxCVsPerDay : option Z;
  dailyCount : option Z;
  lastCountReset : option Z
}.

Record company := {
  _id : N;
  companyName : string;
  supportRegions : list string;
  isRecruitmentAgency : bool;
  isRecruitmentAccess : access;
  recruitmentEmails : list emailObj;
  distributionSettings : option settings;
  companyIsActive : bool
}.

Record subscription := {
  companyId : N;
  status : sub_status;
  expirationDate : option Z
}.

Record position := {
  title : string;
  experience : string
}.

(** A candidate as [distributeCVToAgencies] receives it; [positions] may be
    missing, [location], [address] and [city] may be missing or empty. *)
Record candidate := {
  candidateId : N;
  positions : option (list position);
  location : option string;
  address : option string;
  city : option string
}.

Record database := {
  companies : list company;
  subscriptions : list subscription
}.

(** ** JavaScript helpers *)

(** [x || d] on a number that may be missing: [undefined] and [0] are falsy. *)
Definition num_or (x : option Z) (d : Z) : Z :=
  match x with
  | Some v => if v =? 0 then d else v
  | None => d
  end.

(** [x || d] on a [Date] that may be missing: every [Date] object is truthy. *)
Definition date_or (x : option Z) (d : Z) : Z :=
  match x with
  | Some v => v
  | None => d
  end.

(** [x || d] on a string that may be missing: [undefined] and the empty
    string are falsy. *)
Definition str_or (x : option string) (d : string) : string :=
  match x with
  | Some EmptyString => d
  | Some v => v
  | None => d
  end.

(** [toLowerCase] on the ASCII letters; the bytes of other characters are
    kept (Hebrew has no case). *)
Definition lower_ascii (c : ascii) : ascii :=
  let n := nat_of_ascii c in
  if ((65 <=? n) && (n <=? 90))%nat then ascii_of_nat (n + 32) else c.

Fixpoint toLowerCase (s : string) : string :=
  match s with
  | EmptyString => EmptyString
  | String c r => String (lower_ascii c) (toLowerCase r)
  end.

Fixpoint startsWith (p s : string) : bool :=
  match p, s with
  | EmptyString, _ => true
  | String a p', String b s' => if Ascii.eqb a b then startsWith p' s' else false
  | String _ _, EmptyString => false
  end.

(** [s.includes(p)]. *)
Fixpoint includes (s p : string) : bool :=
  if startsWith p s then true
  else match s with
       | EmptyString => false
       | String _ r => includes r p
       end.

Definition oneDay : Z := 24 * 60 * 60 * 1000.

(** ** Region of a candidate (extractRegionFromCandidate) *)

Definition regionTokens : list string := ["north"; "center"; "lowlands"; "south"]%string.

(** The entries of [regionMap], in the order [Object.entries] lists them. *)
Definition regionMap : list (string * string) :=
  [ ("חיפה", "north"); ("נצרת", "north"); ("טבריה", "north"); ("קריית שמונה", "north");
    ("עכו", "north"); ("נהריה", "north"); ("צפת", "north"); ("קצרין", "north");
    ("כרמיאל", "north"); ("מעלות", "north"); ("קריית ביאליק", "north");
    ("תל אביב", "center"); ("רמת גן", "center"); ("פתח תקווה", "center");
    ("הרצליה", "center"); ("נתניה", "center"); ("רעננה", "center");
    ("הוד השרון", "center"); ("ראשון לציון", "center"); ("בני ברק", "center");
    ("רמת השרון", "center"); ("כפר סבא", "center"); ("רחובות", "center");
    ("אשדוד", "lowlands"); ("גדרה", "lowlands"); ("יבנה", "lowlands");
    ("אשקלון", "lowlands"); ("נס ציונה", "lowlands"); ("קריית מלאכי", "lowlands");
    ("באר שבע", "south"); ("אילת", "south"); ("דימונה", "south");
    ("נתיבות", "south"); ("אופקים", "south"); ("ערד", "south");
    ("ירושלים", "center"); ("בית שמש", "center"); ("מעלה אדומים", "center") ]%string.

Fixpoint firstCity (loc : string) (table : list (string * string)) : option string :=
  match table with
  | [] => None
  | (cityName, region) :: rest =>
      if includes loc cityName then Some region else firstCity loc rest
  end.

Definition extractRegionFromCandidate (c : candidate) : string :=
  let direct :=
    match location c with
    | Some l =>
        if negb (String.eqb l "") && bool_decide (toLowerCase l ∈ regionTokens)
        then Some (toLowerCase l) else None
    | None => None
    end in
  match direct with
  | Some r => r
  | None =>
      let loc := toLowerCase (str_or (address c) (str_or (city c) "")) in
      default "center"%string (firstCity loc regionMap)
  end.

(** ** Eligibility (getEligibleAgencies) *)

(** The filter of [Company.find]. *)
Definition agencyQuery (candidateRegion : string) (c : company) : bool :=
  isRecruitmentAgency c
  && bool_decide (isRecruitmentAccess c = approved)
  && companyIsActive c
  && negb (bool_decide (recruitmentEmails c = []))
  && bool_decide (candidateRegion ∈ supportRegions c).

(** The filter of [Subscription.find]; a missing [expirationDate] matches
    no [$gt]. *)
Definition subscriptionQuery (companyIds : list N) (now : Z) (s : subscription) : bool :=
  bool_decide (companyId s ∈ companyIds)
  && bool_decide (status s = active)
  && match expirationDate s with
     | Some e => now <? e
     | None => false
     end.

(** An agency of the result: [{...agency, currentDailyCount}]. *)
Record eligible := {
  agency : company;
  currentDailyCount : Z
}.

Definition maxDailyOf (a : company) : Z :=
  num_or (distributionSettings a ≫= maxCVsPerDay) 50.

Definition dailyCountOf (a : company) : Z :=
  num_or (distributionSettings a ≫= dailyCount) 0.

Definition lastResetOf (a : company) : Z :=
  date_or (distributionSettings a ≫= lastCountReset) 0.

(** The count the loop compares with the cap. *)
Definition effectiveCount (oneDayAgo : Z) (a : company) : Z :=
  if lastResetOf a <? oneDayAgo then 0 else dailyCountOf a.

(** One iteration of the [for (const agency of agencies)] loop: [None] when
    the agency is skipped, the pushed element otherwise. *)
Definition checkAgency (activeCompanyIds : gset N) (oneDayAgo : Z) (a : company)
  : option eligible :=
  if negb (bool_decide (_id a ∈ activeCompanyIds)) then None
  else
    let current := effectiveCount oneDayAgo a in
    if current <? maxDailyOf a
    then Some {| agency := a; currentDailyCount := current |}
    else None.

Definition getEligibleAgencies (candidateRegion : string) (now : Z) (d : database)
  : list eligible :=
  let oneDayAgo := now - oneDay in
  let agencies := List.filter (agencyQuery candidateRegion) (companies d) in
  let companyIds := _id <$> agencies in
  let activeSubscriptions :=
    List.filter (subscriptionQuery companyIds now) (subscriptions d) in
  let activeCompanyIds : gset N := list_to_set (companyId <$> activeSubscriptions) in
  omap (checkAgency activeCompanyIds oneDayAgo) agencies.

(** ** Quota update (updateDailyCount) *)

Definition setSettings (s : settings) (c : company) : company :=
  {| _id := _id c; companyName := companyName c; supportRegions := supportRegions c;
     isRecruitmentAgency := isRecruitmentAgency c;
     isRecruitmentAccess := isRecruitmentAccess c;
     recruitmentEmails := recruitmentEmails c;
     distributionSettings := Some s;
     companyIsActive := companyIsActive c |}.

(** [$set: { dailyCount: 1, lastCountReset: now }] on the sub-document. *)
Definition resetUpdate (now : Z) (c : company) : company :=
  setSettings
    {| maxCVsPerDay := distributionSettings c ≫= maxCVsPerDay;
       dailyCount := Some 1;
       lastCountReset := Some now |} c.

(** [$inc: { dailyCount: 1 }]; a missing field counts from [0]. The stored
    count is a double, and the sum written here is the one [$inc] stores
    as long as the count stays within [2 ^ 53] in magnitude; a statement
    that ranges over stored counts without a cap on them carries that
    bound. *)
Definition incUpdate (c : company) : company :=
  setSettings
    {| maxCVsPerDay := distributionSettings c ≫= maxCVsPerDay;
       dailyCount := Some (default 0 (distributionSettings c ≫= dailyCount) + 1);
       lastCountReset := distributionSettings c ≫= lastCountReset |} c.

(** [{ _id: companyId, 'distributionSettings.lastCountReset': { $lt: oneDayAgo } }];
    a missing field matches no [$lt]. *)
Definition staleFilter (companyId : N) (oneDayAgo : Z) (c : company) : bool :=
  bool_decide (_id c = companyId)
  && match distributionSettings c ≫= lastCountReset with
     | Some r => r <? oneDayAgo
     | None => false
     end.

(** [findOneAndUpdate]: the first document the filter matches is updated. *)
Fixpoint findOneAndUpdate (filter : company -> bool) (update : company -> company)
    (cs : list company) : list company :=
  match cs with
  | [] => []
  | c :: rest =>
      if filter c then update c :: rest
      else c :: findOneAndUpdate filter update rest
  end.

Definition findByIdAndUpdate (companyId : N) (update : company -> company)
    (cs : list company) : list company :=
  findOneAndUpdate (fun c => bool_decide (_id c = companyId)) update cs.

Definition withCompanies (cs : list company) (d : database) : database :=
  {| companies := cs; subscriptions := subscriptions d |}.

Definition updateDailyCount (companyId : N) (now : Z) (d : database) : database :=
  let oneDayAgo := now - oneDay in
  let afterReset :=
    findOneAndUpdate (staleFilter companyId oneDayAgo) (resetUpdate now) (companies d) in
  (* If not reset, just increment *)
  let afterInc := findByIdAndUpdate companyId incUpdate afterReset in
  withCompanies afterInc d.

Definition findById (companyId : N) (d : database) : option company :=
  List.find (fun c => bool_decide (_id c = companyId)) (companies d).

(** ** DistributionMonitor (middleware/distributionMonitoring.js) *)

Module Monitor.

(** A log entry of [healthChecks]; [error] is [error.message] or [null]. *)
Record logEntry := {
  timestamp : Z;
  candidateId : N;
  agencyId : N;
  success : bool;
  error : option string;
  processingTime : Z
}.

(** The key [`${Date.now()}_${Math.random()}`]: the clock and the random
    double, the latter identified by an index. Two keys are the same
    string exactly when both components agree. *)
Record key := {
  keyNow : Z;
  keyRandom : N
}.

#[global] Instance key_eq_dec : EqDecision key.
Proof. solve_decision. Defined.

(** [healthChecks] is a JavaScript [Map]: it iterates in the order in
    which its keys were first inserted. *)
Definition healthChecks := list (key * logEntry).

(** [Map.prototype.set]: an existing key keeps its place and takes the
    new value, a new key goes last. *)
Fixpoint mapSet (k : key) (v : logEntry) (m : healthChecks) : healthChecks :=
  match m with
  | [] => [(k, v)]
  | (k', v') :: rest =>
      if decide (k = k') then (k, v) :: rest else (k', v') :: mapSet k v rest
  end.

(** [Map.prototype.delete]. *)
Definition mapDelete (k : key) (m : healthChecks) : healthChecks :=
  List.filter (fun kv => negb (bool_decide (kv.1 = k))) m.

Definition capacity : nat := 1000.
Definition trim : nat := 100.

(** The clean-up of [logDistributionAttempt]. *)
Definition cleanOld (m : healthChecks) : healthChecks :=
  if (capacity <? length m)%nat then
    let oldestKeys := take trim (fst <$> m) in
    foldl (fun acc k => mapDelete k acc) m oldestKeys
  else m.

(** [logDistributionAttempt]: [now] is [new Date()], [k] the fresh key;
    the entry is returned and the map updated. *)
Definition logDistributionAttempt (now : Z) (k : key)
    (cand ag : N) (ok : bool) (err : option string) (ptime : Z)
    (m : healthChecks) : logEntry * healthChecks :=
  let logEntry :=
    {| timestamp := now; candidateId := cand; agencyId := ag; success := ok;
       error := err; processingTime := ptime |} in
  (logEntry, cleanOld (mapSet k logEntry m)).

(** The arguments of one call, with the clock it reads and the key it
    draws. *)
Record call := {
  callNow : Z;
  callKey : key;
  callCandidate : N;
  callAgency : N;
  callSuccess : bool;
  callError : option string;
  callTime : Z
}.

Definition entryOf (c : call) : logEntry :=
  {| timestamp := callNow c; candidateId := callCandidate c;
     agencyId := callAgency c; success := callSuccess c;
     error := callError c; processingTime := callTime c |}.

(** The pair that the call stores under its key. *)
Definition stored (c : call) : key * logEntry := (callKey c, entryOf c).

(** The map after the call. *)
Definition record (c : call) (m : healthChecks) : healthChecks :=
  (logDistributionAttempt (callNow c) (callKey c) (callCandidate c)
     (callAgency c) (callSuccess c) (callError c) (callTime c) m).2.

(** The map after a sequence of calls. *)
Definition replay (cs : list call) (m : healthChecks) : healthChecks :=
  foldl (fun acc c => record c acc) m cs.

(** The thresholds of the constructor. The literals [0.1] and [0.9] are
    taken as the rationals 1/10 and 9/10, and the rates, quotients of two
    integers no larger than the size of the map, as exact rationals; the
    tests on doubles are defined further down and shown to agree. Times
    are whole milliseconds. *)
Record thresholds := {
  maxFailureRate : Q;
  maxQueueLength : Z;
  maxProcessingTime : Q;
  minSuccessRate : Q
}.

Definition alertThresholds : thresholds :=
  {| maxFailureRate := 1 # 10;
     maxQueueLength := 500;
     maxProcessingTime := 30000 # 1;
     minSuccessRate := 9 # 10 |}.

Inductive status := healthy | warning | critical | unknown.

(** The three messages pushed on [issues], with the number each one
    prints. *)
Inductive issue :=
| HighFailureRate (failureRate : Q)
| SlowProcessing (avgProcessingTime : Q)
| LowSuccessRate (successRate : Q).

Record health := {
  healthStatus : status;
  totalAttempts : nat;
  successful : nat;
  failed : nat;
  issues : list issue
}.

(** [a / b] for a positive [b]. *)
Definition ratio (a : Z) (b : nat) : Q := a # Pos.of_nat b.

Definition Qgt_bool (a b : Q) : bool := negb (Qle_bool a b).

Definition hour : Z := 3600000.

Definition recentLogs (now : Z) (m : healthChecks) : list logEntry :=
  List.filter (fun log => now - timestamp log <? hour) (snd <$> m).

Definition sumProcessingTime (logs : list logEntry) : Z :=
  foldl (fun sum log => sum + processingTime log) 0 logs.

(** The three tests of [getHealthStatus], in order, each one assigning
    [status] and pushing on [issues]. *)
Definition classify (t : thresholds) (failureRate avgProcessingTime successRate : Q)
  : status * list issue :=
  let s0 := healthy in
  let i0 : list issue := [] in
  let '(s1, i1) :=
    if Qgt_bool failureRate (maxFailureRate t)
    then (warning, i0 ++ [HighFailureRate failureRate]) else (s0, i0) in
  let '(s2, i2) :=
    if Qgt_bool avgProcessingTime (maxProcessingTime t)
    then (warning, i1 ++ [SlowProcessing avgProcessingTime]) else (s1, i1) in
  let '(s3, i3) :=
    if Qgt_bool (minSuccessRate t) successRate
    then (critical, i2 ++ [LowSuccessRate successRate]) else (s2, i2) in
  (s3, i3).

Definition successfulCount (logs : list logEntry) : nat :=
  length (List.filter success logs).

Definition successRate (logs : list logEntry) : Q :=
  ratio (Z.of_nat (successfulCount logs)) (length logs).

Definition failureRate (logs : list logEntry) : Q :=
  ratio (Z.of_nat (length logs - successfulCount logs)) (length logs).

Definition avgProcessingTime (logs : list logEntry) : Q :=
  ratio (sumProcessingTime logs) (length logs).

(** [getHealthStatus] at clock [now]. The rounded [metrics] and the
    [message] string are left out; [issues] is the returned list. *)
Definition getHealthStatus (now : Z) (m : healthChecks) : health :=
  let logs := recentLogs now m in
  match logs with
  | [] =>
      {| healthStatus := unknown; totalAttempts := 0; successful := 0;
         failed := 0; issues := [] |}
  | _ :: _ =>
      let totalAttempts := length logs in
      let successful := successfulCount logs in
      let failed := (totalAttempts - successful)%nat in
      let r := classify alertThresholds (failureRate logs)
                 (avgProcessingTime logs) (successRate logs) in
      {| healthStatus := r.1; totalAttempts := totalAttempts;
         successful := successful; failed := failed;
         issues := match r.1 with healthy => [] | _ => r.2 end |}
  end.

(** *** The two rates on doubles

    In the source the rates are doubles. The definitions below are the
    two tests on the rates as the source computes them, on IEEE binary64;
    over a window of at most [capacity] entries they agree with the
    tests on rationals that [classify] uses. *)

(** [k / n] on doubles, for integers that doubles hold exactly. *)
Definition ratioDouble (k n : Z) : float :=
  PrimFloat.div (PrimFloat.of_uint63 (Uint63.of_Z k))
                (PrimFloat.of_uint63 (Uint63.of_Z n)).

(** The doubles that the literals [0.1] and [0.9] denote. *)
Definition maxFailureRateDouble : float := 0x1.999999999999ap-4%float.
Definition minSuccessRateDouble : float := 0x1.ccccccccccccdp-1%float.

(** [failureRate > this.alertThresholds.maxFailureRate]. *)
Definition highFailureDouble (logs : list logEntry) : bool :=
  PrimFloat.ltb maxFailureRateDouble
    (ratioDouble (Z.of_nat (length logs - successfulCount logs))
                 (Z.of_nat (length logs))).

(** [successRate < this.alertThresholds.minSuccessRate]. *)
Definition lowSuccessDouble (logs : list logEntry) : bool :=
  PrimFloat.ltb
    (ratioDouble (Z.of_nat (successfulCount logs)) (Z.of_nat (length logs)))
    minSuccessRateDouble.

(** The two tests on doubles agree with the comparison of integers at
    [k] out of [n]. *)
Definition agreeAt (n k : Z) : bool :=
  Bool.eqb (PrimFloat.ltb maxFailureRateDouble (ratioDouble k n)) (n <? 10 * k)
  && Bool.eqb (PrimFloat.ltb (ratioDouble k n) minSuccessRateDouble)
              (10 * k <? 9 * n).

(** [f] holds at [k], [k + 1], ..., [k + fuel - 1]. *)
Fixpoint upto (fuel : nat) (f : Z -> bool) (k : Z) : bool :=
  match fuel with
  | O => true
  | S m => f k && upto m f (k + 1)
  end.


End Monitor.

(** ** CVDistributionService (services/cvDistributionService.js)

    The service is asynchronous. Its activations are modelled as data: an
    activation of an [async] method that is suspended at an [await] is a
    record of its local variables and of the place where it waits. The
    environment drives the service with events: a call of
    [distributeCVToAgencies], the settlement of one promise of
    [emailService.sendCVDistributionEmail], the firing of a timer of
    [delay], and the passing of time. After each event the continuations
    that have become runnable run to their next [await], as the microtask
    queue does before the event loop takes the next task.

    Three things are taken to happen at once: the two queries of
    [getEligibleAgencies], which read one state of the store; the two
    updates that [updateDailyCount] awaits; and the calls of
    [updateDailyCount] that [processBatch] starts without awaiting, which
    are applied when the batch resolves. An exception of the store is not
    modelled. *)

Module Service.

(** A distribution task; [id] is [`${candidate._id}_${Date.now()}`]. *)
Record task := {
  taskCandidate : candidate;
  agencies : list eligible;
  taskTimestamp : Z;
  taskId : N * Z
}.

(** The fields of the singleton. *)
Record service := {
  isProcessing : bool;
  distributionQueue : list task;
  maxBatchSize : nat;
  batchDelay : Z
}.

Definition constructor : service :=
  {| isProcessing := false;
     distributionQueue := [];
     maxBatchSize := 100;
     batchDelay := 1000 |}.

(** One call of [emailService.sendCVDistributionEmail]. *)
Record mail := {
  mailTo : string;
  mailCandidate : N;
  mailAgency : N
}.

Inductive promise (A : Type) :=
| Pending
| Fulfilled (v : A)
| Rejected.
Arguments Pending {A}.
Arguments Fulfilled {A} v.
Arguments Rejected {A}.

Definition settled {A} (p : promise A) : bool :=
  match p with
  | Pending => false
  | _ => true
  end.

(** An activation of [sendCVToAgency], at [await Promise.all(emailPromises)]:
    [outstanding] counts the email promises that have not settled yet. *)
Record send := {
  sendAgency : eligible;
  outstanding : nat;
  sendPromise : promise bool
}.

(** The value [{ success, errors }] of [processBatch]. *)
Record counts := {
  success : nat;
  errors : nat
}.

(** An activation of [processBatch], at [await Promise.allSettled(promises)];
    [dispatchedAt] is the clock at which its sends were issued. *)
Record batch := {
  batchAgencies : list eligible;
  sends : list send;
  batchPromise : promise counts;
  dispatchedAt : Z
}.

(** Where [processSingleDistribution] waits: at [await this.delay(500)]
    inside the loop, or at [await Promise.allSettled(batchPromises)]. *)
Inductive jobWait :=
| AwaitDelay (due : Z)
| AwaitAllSettled.

(** An activation of [processSingleDistribution]; [loopIndex] is [i]. *)
Record job := {
  jobTask : task;
  loopIndex : nat;
  batchPromises : list batch;
  jobWaits : jobWait
}.

(** An activation of [processDistributionQueue]: awaiting the job of the
    task it shifted, or awaiting [this.delay(this.batchDelay)]. *)
Inductive drain :=
| InJob (j : job)
| BetweenTasks (due : Z).

(** What [processSingleDistribution] logs when it finishes. *)
Record completion := {
  doneTask : task;
  doneBatches : list batch;
  doneCounts : counts;
  doneAt : Z
}.

(** The state of the process. [pushed], [started] and [completed] are
    history variables: the tasks pushed on the queue, the tasks shifted
    from it with the clock of the shift, and the jobs finished, each in
    order of occurrence. *)
Record world := {
  clock : Z;
  store : database;
  svc : service;
  monitorBuffer : Monitor.healthChecks;
  drains : list drain;
  outbox : list mail;
  pushed : list task;
  started : list (task * Z);
  completed : list completion
}.

Definition setStore (d : database) (w : world) : world :=
  {| clock := clock w; store := d; svc := svc w; monitorBuffer := monitorBuffer w;
     drains := drains w; outbox := outbox w; pushed := pushed w;
     started := started w; completed := completed w |}.

Definition setSvc (s : service) (w : world) : world :=
  {| clock := clock w; store := store w; svc := s; monitorBuffer := monitorBuffer w;
     drains := drains w; outbox := outbox w; pushed := pushed w;
     started := started w; completed := completed w |}.

Definition setDrains (ds : list drain) (w : world) : world :=
  {| clock := clock w; store := store w; svc := svc w; monitorBuffer := monitorBuffer w;
     drains := ds; outbox := outbox w; pushed := pushed w;
     started := started w; completed := completed w |}.

Definition setClock (t : Z) (w : world) : world :=
  {| clock := t; store := store w; svc := svc w; monitorBuffer := monitorBuffer w;
     drains := drains w; outbox := outbox w; pushed := pushed w;
     started := started w; completed := completed w |}.

Definition setMonitor (m : Monitor.healthChecks) (w : world) : world :=
  {| clock := clock w; store := store w; svc := svc w; monitorBuffer := m;
     drains := drains w; outbox := outbox w; pushed := pushed w;
     started := started w; completed := completed w |}.

Definition addMails (ms : list mail) (w : world) : world :=
  {| clock := clock w; store := store w; svc := svc w; monitorBuffer := monitorBuffer w;
     drains := drains w; outbox := outbox w ++ ms; pushed := pushed w;
     started := started w; completed := completed w |}.

Definition notePushed (t : task) (w : world) : world :=
  {| clock := clock w; store := store w; svc := svc w; monitorBuffer := monitorBuffer w;
     drains := drains w; outbox := outbox w; pushed := pushed w ++ [t];
     started := started w; completed := completed w |}.

Definition noteStarted (t : task) (w : world) : world :=
  {| clock := clock w; store := store w; svc := svc w; monitorBuffer := monitorBuffer w;
     drains := drains w; outbox := outbox w; pushed := pushed w;
     started := started w ++ [(t, clock w)]; completed := completed w |}.

Definition noteCompleted (c : completion) (w : world) : world :=
  {| clock := clock w; store := store w; svc := svc w; monitorBuffer := monitorBuffer w;
     drains := drains w; outbox := outbox w; pushed := pushed w;
     started := started w; completed := completed w ++ [c] |}.

Definition setProcessing (b : bool) (s : service) : service :=
  {| isProcessing := b; distributionQueue := distributionQueue s;
     maxBatchSize := maxBatchSize s; batchDelay := batchDelay s |}.

Definition setQueue (q : list task) (s : service) : service :=
  {| isProcessing := isProcessing s; distributionQueue := q;
     maxBatchSize := maxBatchSize s; batchDelay := batchDelay s |}.

(** *** sendCVToAgency *)

Definition activeEmails (a : eligible) : list string :=
  email <$> List.filter isActive (recruitmentEmails (agency a)).

(** The synchronous part of [sendCVToAgency]: with no active address the
    promise is rejected at once and no mail is sent; otherwise one mail
    goes out per active address and the activation waits for all.
    Between the two, [formatCandidateDataForEmail] reads
    [candidate.positions[0]], which throws when the candidate has no
    [positions]; the candidate of a task on the queue has passed the
    guard of [distributeCVToAgencies] and has some
    ([ServiceAudit.queued_candidates_have_positions]), so the function
    is the one of the source on every candidate with [positions], which
    are the ones the service calls it with. *)
Definition sendCVToAgency (c : candidate) (a : eligible) : send * list mail :=
  match activeEmails a with
  | [] => ({| sendAgency := a; outstanding := 0; sendPromise := Rejected |}, [])
  | emails =>
      ({| sendAgency := a; outstanding := length emails; sendPromise := Pending |},
       (fun e => {| mailTo := e; mailCandidate := candidateId c;
                    mailAgency := _id (agency a) |}) <$> emails)
  end.

(** One email promise of the send settles. [Promise.all] rejects with the
    first rejection and fulfils when every promise has fulfilled; then
    [sendCVToAgency] returns [true] or rethrows. *)
Definition settleEmail (ok : bool) (s : send) : send :=
  match outstanding s with
  | O => s
  | S n =>
      {| sendAgency := sendAgency s;
         outstanding := n;
         sendPromise :=
           match sendPromise s with
           | Pending =>
               if ok then (if (n =? 0)%nat then Fulfilled true else Pending)
               else Rejected
           | p => p
           end |}
  end.

(** *** processBatch *)

(** The synchronous part: [agencies.map(agency => this.sendCVToAgency(...))]. *)
Definition processBatch (now : Z) (c : candidate) (ags : list eligible)
  : batch * list mail :=
  let calls := sendCVToAgency c <$> ags in
  ({| batchAgencies := ags; sends := fst <$> calls; batchPromise := Pending;
      dispatchedAt := now |},
   concat (snd <$> calls)).

(** One step of [results.forEach]: a fulfilled send counts as a success
    and its agency's quota is updated, any other as an error. The
    updates that [updateDailyCount] awaits are taken to happen at once. *)
Definition tallyStep (now : Z) (acc : counts * database)
    (ar : eligible * promise bool) : counts * database :=
  match ar.2 with
  | Fulfilled _ =>
      ({| success := S (success acc.1); errors := errors acc.1 |},
       updateDailyCount (_id (agency ar.1)) now acc.2)
  | _ =>
      ({| success := success acc.1; errors := S (errors acc.1) |}, acc.2)
  end.

Definition tally (now : Z) (ags : list eligible) (results : list (promise bool))
    (d : database) : counts * database :=
  foldl (tallyStep now) ({| success := 0; errors := 0 |}, d) (zip ags results).

Definition allSettled (b : batch) : bool :=
  forallb (fun s => settled (sendPromise s)) (sends b).

(** The continuation of [processBatch] once [Promise.allSettled] resolves. *)
Definition resolveBatch (now : Z) (b : batch) (d : database) : batch * database :=
  match batchPromise b with
  | Pending =>
      if allSettled b then
        let r := tally now (batchAgencies b) (sendPromise <$> sends b) d in
        ({| batchAgencies := batchAgencies b; sends := sends b;
            batchPromise := Fulfilled r.1; dispatchedAt := dispatchedAt b |}, r.2)
      else (b, d)
  | _ => (b, d)
  end.

Fixpoint resolveBatches (now : Z) (bs : list batch) (d : database)
  : list batch * database :=
  match bs with
  | [] => ([], d)
  | b :: rest =>
      let r1 := resolveBatch now b d in
      let r2 := resolveBatches now rest r1.2 in
      (r1.1 :: r2.1, r2.2)
  end.

(** *** processSingleDistribution *)

(** [l.slice(i, j)]. *)
Definition slice {A} (i j : nat) (l : list A) : list A :=
  take (j - i) (drop i l).

Definition interBatchDelay : Z := 500.

Definition withBatches (bs : list batch) (j : job) : job :=
  {| jobTask := jobTask j; loopIndex := loopIndex j; batchPromises := bs;
     jobWaits := jobWaits j |}.

(** The body of the [for] loop at [i = loopIndex j]: the batch is sliced
    and [processBatch] called without [await]; a delay follows when more
    agencies remain. *)
Definition loopBody (j : job) (w : world) : job * world :=
  let ags := agencies (jobTask j) in
  let i := loopIndex j in
  let size := maxBatchSize (svc w) in
  let r := processBatch (clock w) (taskCandidate (jobTask j)) (slice i (i + size) ags) in
  ({| jobTask := jobTask j; loopIndex := i;
      batchPromises := batchPromises j ++ [r.1];
      jobWaits := if (i + size <? length ags)%nat
                  then AwaitDelay (clock w + interBatchDelay)
                  else AwaitAllSettled |},
   addMails r.2 w).

(** The loop test [i < agencies.length]. *)
Definition loopTest (j : job) (w : world) : job * world :=
  if (loopIndex j <? length (agencies (jobTask j)))%nat
  then loopBody j w
  else ({| jobTask := jobTask j; loopIndex := loopIndex j;
           batchPromises := batchPromises j; jobWaits := AwaitAllSettled |}, w).

(** The synchronous part of [processSingleDistribution]. *)
Definition processSingleDistribution (t : task) (w : world) : job * world :=
  loopTest {| jobTask := t; loopIndex := 0; batchPromises := [];
              jobWaits := AwaitAllSettled |} w.

(** [results.forEach] over the settled batch promises. *)
Definition jobTally (size : nat) (bs : list batch) : counts :=
  foldl (fun acc b =>
           match batchPromise b with
           | Fulfilled v => {| success := success acc + success v;
                               errors := errors acc + errors v |}
           | _ => {| success := success acc; errors := errors acc + size |}
           end)
        {| success := 0; errors := 0 |} bs.

(** *** processDistributionQueue *)

(** The [while] test. With an empty queue the loop ends and [finally]
    clears the flag; otherwise the front task is shifted and its job
    started. The result is the activation, if it is still running. *)
Definition shiftTask (w : world) : option (task * world) :=
  match distributionQueue (svc w) with
  | [] => None
  | t :: rest => Some (t, noteStarted t (setSvc (setQueue rest (svc w)) w))
  end.

Definition finishLoop (w : world) : world :=
  setSvc (setProcessing false (svc w)) w.

(** After [await this.processSingleDistribution(task)]: the delay between
    tasks when the queue is not empty, the loop test otherwise. *)
Definition afterTask (w : world) : option drain * world :=
  match distributionQueue (svc w) with
  | [] => (None, finishLoop w)
  | _ :: _ => (Some (BetweenTasks (clock w + batchDelay (svc w))), w)
  end.

(** The continuations of a job that can run: the batches whose sends have
    all settled resolve, and when the job waits for its batches and all
    have resolved it logs its result and returns to the loop. *)
Definition resumeJob (j : job) (w : world) : option drain * world :=
  let r := resolveBatches (clock w) (batchPromises j) (store w) in
  let j' := withBatches r.1 j in
  let w1 := setStore r.2 w in
  match jobWaits j' with
  | AwaitAllSettled =>
      if forallb (fun b => settled (batchPromise b)) r.1 then
        afterTask
          (noteCompleted
             {| doneTask := jobTask j'; doneBatches := r.1;
                doneCounts := jobTally (maxBatchSize (svc w1)) r.1;
                doneAt := clock w1 |} w1)
      else (Some (InJob j'), w1)
  | AwaitDelay _ => (Some (InJob j'), w1)
  end.

Definition loopHead (w : world) : option drain * world :=
  match shiftTask w with
  | None => (None, finishLoop w)
  | Some (t, w1) =>
      let r := processSingleDistribution t w1 in
      resumeJob r.1 r.2
  end.

Definition processDistributionQueue (w : world) : world :=
  if isProcessing (svc w) || bool_decide (distributionQueue (svc w) = [])
  then w
  else
    let r := loopHead (setSvc (setProcessing true (svc w)) w) in
    setDrains (drains r.2 ++ option_list r.1) r.2.

(** *** distributeCVToAgencies *)

Record result := {
  resultSuccess : bool;
  distributed : nat
}.

Inductive outcome :=
| Threw (message : string)
| Returned (r : result).

Definition pushTask (t : task) (w : world) : world :=
  notePushed t (setSvc (setQueue (distributionQueue (svc w) ++ [t]) (svc w)) w).

(** A call of [distributeCVToAgencies]; the argument is [None] for a
    missing candidate. The two queries of the resolution read the store
    as it is at the call. *)
Definition distributeCVToAgencies (c : option candidate) (w : world)
  : outcome * world :=
  match c with
  | None => (Threw "Invalid candidate data", w)
  | Some cand =>
      match positions cand with
      | None | Some [] => (Threw "Invalid candidate data", w)
      | Some (_ :: _) =>
          let candidateRegion := extractRegionFromCandidate cand in
          let eligibleAgencies :=
            getEligibleAgencies candidateRegion (clock w) (store w) in
          if (length eligibleAgencies =? 0)%nat
          then (Returned {| resultSuccess := true; distributed := 0 |}, w)
          else
            let distributionTask :=
              {| taskCandidate := cand; agencies := eligibleAgencies;
                 taskTimestamp := clock w;
                 taskId := (candidateId cand, clock w) |} in
            let w1 := pushTask distributionTask w in
            let w2 := if negb (isProcessing (svc w1))
                      then processDistributionQueue w1 else w1 in
            (Returned {| resultSuccess := true;
                         distributed := length eligibleAgencies |}, w2)
      end
  end.

(** *** Events *)

Inductive event :=
| Distribute (c : option candidate)
| EmailSettles (d b s : nat) (ok : bool)
| TimerFires (d : nat)
| Elapse (ms : Z)
| LogAttempt (k : Monitor.key) (cand ag : N) (ok : bool)
             (err : option string) (ptime : Z).

(** The activation at index [d] is replaced by what is left of it. *)
Definition putDrain (d : nat) (r : option drain * world) : world :=
  match r.1 with
  | Some x => setDrains (<[d := x]> (drains r.2)) r.2
  | None => setDrains (delete d (drains r.2)) r.2
  end.

Definition withSend (b s : nat) (f : send -> send) (j : job) : job :=
  withBatches
    (alter (fun bt => {| batchAgencies := batchAgencies bt;
                         sends := alter f s (sends bt);
                         batchPromise := batchPromise bt;
                         dispatchedAt := dispatchedAt bt |})
           b (batchPromises j)) j.

Definition onEmail (d b s : nat) (ok : bool) (w : world) : world :=
  match drains w !! d with
  | Some (InJob j) => putDrain d (resumeJob (withSend b s (settleEmail ok) j) w)
  | _ => w
  end.

(** A timer fires no earlier than it is due. In the loop of the job the
    increment [i += this.maxBatchSize] and the loop test follow. *)
Definition onTimer (d : nat) (w : world) : world :=
  match drains w !! d with
  | Some (InJob j) =>
      match jobWaits j with
      | AwaitDelay due =>
          if due <=? clock w then
            let r := loopTest {| jobTask := jobTask j;
                                 loopIndex := loopIndex j + maxBatchSize (svc w);
                                 batchPromises := batchPromises j;
                                 jobWaits := jobWaits j |} w in
            putDrain d (resumeJob r.1 r.2)
          else w
      | AwaitAllSettled => w
      end
  | Some (BetweenTasks due) =>
      if due <=? clock w then putDrain d (loopHead w) else w
  | None => w
  end.

Definition step (e : event) (w : world) : world :=
  match e with
  | Distribute c => (distributeCVToAgencies c w).2
  | EmailSettles d b s ok => onEmail d b s ok w
  | TimerFires d => onTimer d w
  | Elapse ms => if 0 <=? ms then setClock (clock w + ms) w else w
  | LogAttempt k cand ag ok err ptime =>
      setMonitor
        (Monitor.logDistributionAttempt (clock w) k cand ag ok err ptime
           (monitorBuffer w)).2 w
  end.

Definition run (es : list event) (w : world) : world :=
  foldl (fun acc e => step e acc) w es.

(** The process after start-up, at clock [t0] over store [d]. *)
Definition boot (t0 : Z) (d : database) : world :=
  {| clock := t0; store := d; svc := constructor; monitorBuffer := [];
     drains := []; outbox := []; pushed := []; started := []; completed := [] |}.

End Service.

(** ** Predicates of the statements *)

(** An agency has a subscription that [Subscription.find] returns. *)
Definition activeSubscription (now : Z) (d : database) (a : company) : Prop :=
  exists s e, s ∈ subscriptions d /\ companyId s = _id a /\ status s = active
              /\ expirationDate s = Some e /\ now < e.

(** What [updateDailyCount] does to the document of the agency. *)
Definition quotaUpdate (id : N) (now : Z) (c : company) : company :=
  incUpdate (if staleFilter id (now - oneDay) c then resetUpdate now c else c).

Module Invariants.
Import Service.

(** [ceil(n / size)]. *)
Definition ceilDiv (n size : nat) : nat := ((n + size - 1) / size)%nat.

(** The k-th list is the k-th slice of [size] agencies. *)
Definition sliced (size : nat) (ags : list eligible) (ls : list (list eligible)) : Prop :=
  forall k l, ls !! k = Some l -> l = slice (k * size) (k * size + size) ags.

(** Consecutive dispatch times are at least the delay of the loop apart. *)
Definition spaced (ts : list Z) : Prop :=
  forall k t t', ts !! k = Some t -> ts !! S k = Some t' -> t + interBatchDelay <= t'.


Definition isFulfilled {A} (p : promise A) : bool :=
  match p with
  | Fulfilled _ => true
  | _ => false
  end.

Definition fulfilledSends (b : batch) : nat :=
  length (List.filter (fun s => isFulfilled (sendPromise s)) (sends b)).

Definition unfulfilled (b : batch) : Prop :=
  Forall (fun s => isFulfilled (sendPromise s) = false) (sends b).

(** A batch has one send per agency, and its promise is never rejected;
    once fulfilled its counts are those of its sends. *)
Definition batchOk (b : batch) : Prop :=
  sendAgency <$> sends b = batchAgencies b /\
  match batchPromise b with
  | Pending => True
  | Fulfilled c =>
      allSettled b = true /\ success c = fulfilledSends b
      /\ (success c + errors c = length (sends b))%nat
  | Rejected => False
  end.

Definition jobOk (size : nat) (j : job) : Prop :=
  let ags := agencies (jobTask j) in
  let bs := batchPromises j in
  Forall batchOk bs
  /\ sliced size ags (batchAgencies <$> bs)
  /\ spaced (dispatchedAt <$> bs)
  /\ match jobWaits j with
     | AwaitDelay due =>
         (exists t, last (dispatchedAt <$> bs) = Some t /\ due = t + interBatchDelay)
         /\ loopIndex j = (pred (length bs) * size)%nat
         /\ (loopIndex j + size < length ags)%nat
     | AwaitAllSettled => length bs = ceilDiv (length ags) size
     end.

Definition doneOk (size : nat) (c : completion) : Prop :=
  let ags := agencies (doneTask c) in
  let bs := doneBatches c in
  length bs = ceilDiv (length ags) size
  /\ sliced size ags (batchAgencies <$> bs)
  /\ spaced (dispatchedAt <$> bs)
  /\ Forall (fun b => batchOk b /\ isFulfilled (batchPromise b) = true) bs
  /\ (success (doneCounts c) + errors (doneCounts c) = length ags)%nat
  /\ success (doneCounts c) = sum_list (fulfilledSends <$> bs).

(** The job after the k-th finished one starts no earlier than that one
    finished, and a full [delay] later when its task was already pushed. *)
Definition gapped (delay : Z) (cs : list completion) (ss : list (task * Z)) : Prop :=
  forall k c t s, cs !! k = Some c -> ss !! S k = Some (t, s) ->
    doneAt c <= s /\ (taskTimestamp t < doneAt c -> doneAt c + delay <= s).

Definition jobOf (d : drain) : option job :=
  match d with
  | InJob j => Some j
  | BetweenTasks _ => None
  end.

Definition running (od : option drain) : list task :=
  match od with
  | Some (InJob j) => [jobTask j]
  | _ => []
  end.

Record Core (run : list task) (w : world) : Prop := {
  core_size : maxBatchSize (svc w) = 100%nat;
  core_delay : batchDelay (svc w) = 1000;
  core_fifo : pushed w = (started w).*1 ++ distributionQueue (svc w);
  core_seq : (started w).*1 = (doneTask <$> completed w) ++ run;
  core_done : Forall (doneOk 100) (completed w);
  core_queue_time :
    Forall (fun t => taskTimestamp t <= clock w) (distributionQueue (svc w));
  core_done_time : Forall (fun c => doneAt c <= clock w) (completed w);
  core_gap : gapped 1000 (completed w) (started w)
}.

Definition drainOk (od : option drain) (w : world) : Prop :=
  match od with
  | None => isProcessing (svc w) = false /\ distributionQueue (svc w) = []
  | Some (InJob j) => isProcessing (svc w) = true /\ jobOk 100 j
  | Some (BetweenTasks due) =>
      isProcessing (svc w) = true /\ distributionQueue (svc w) <> []
      /\ exists c, last (completed w) = Some c /\ due = doneAt c + 1000
  end.

Definition Inv (od : option drain) (w : world) : Prop :=
  Core (running od) w /\ drainOk od w.

(** The invariant of the process: at most one activation of the loop. *)
Definition invariant (w : world) : Prop :=
  exists od, drains w = option_list od /\ Inv od w.

Definition agencyIds (ags : list eligible) : list N :=
  (fun a => _id (agency a)) <$> ags.

(** The events other than a direct call of the monitor. *)
Definition serviceEvent (e : event) : Prop :=
  match e with
  | LogAttempt _ _ _ _ _ _ => False
  | _ => True
  end.



(** The sends issued by the jobs that have finished. *)
Definition attempts (w : world) : nat :=
  sum_list ((fun c => sum_list ((fun b => length (sends b)) <$> doneBatches c))
              <$> completed w).

End Invariants.

(** ** Sample data *)

Module Samples.

Definition now : Z := 1700000000000.

Definition agencyDoc (i : nat) (count reset : Z) : company :=
  {| _id := N.of_nat i; companyName := "agency";
     supportRegions := ["south"%string];
     isRecruitmentAgency := true; isRecruitmentAccess := approved;
     recruitmentEmails := [{| email := "cv@agency.example"; isActive := true |}];
     distributionSettings :=
       Some {| maxCVsPerDay := Some 50; dailyCount := Some count;
               lastCountReset := Some reset |};
     companyIsActive := true |}.

Definition subscriptionOf (i : nat) : subscription :=
  {| companyId := N.of_nat i; status := active;
     expirationDate := Some (now + 1000000) |}.

(** [n] agencies of the south, each with a subscription and a fresh,
    empty counter. *)
Definition agenciesDb (n : nat) : database :=
  {| companies := (fun i => agencyDoc i 0 (now - 1000)) <$> seq 0 n;
     subscriptions := subscriptionOf <$> seq 0 n |}.

(** One agency at its cap whose last reset is 25 hours old. *)
Definition staleDb : database :=
  {| companies := [agencyDoc 0 50 (now - 25 * 60 * 60 * 1000)];
     subscriptions := [subscriptionOf 0] |}.

(** The same agency with a reset one hour old. *)
Definition freshDb : database :=
  {| companies := [agencyDoc 0 50 (now - 60 * 60 * 1000)];
     subscriptions := [subscriptionOf 0] |}.

Definition southCandidate (i : N) : candidate :=
  {| candidateId := i;
     positions := Some [{| title := "developer"; experience := "3 years" |}];
     location := Some "South"%string; address := None; city := None |}.

(** A candidate of Haifa: the region is north, which no sample agency
    serves. *)
Definition northCandidate : candidate :=
  {| candidateId := 9;
     positions := Some [{| title := "developer"; experience := "3 years" |}];
     location := None; address := Some "חיפה"%string; city := None |}.

Definition monitorCall (i : nat) : Monitor.call :=
  {| Monitor.callNow := now;
     Monitor.callKey := {| Monitor.keyNow := now; Monitor.keyRandom := N.of_nat i |};
     Monitor.callCandidate := 7; Monitor.callAgency := N.of_nat i;
     Monitor.callSuccess := true; Monitor.callError := None;
     Monitor.callTime := 120 |}.

Definition failedCall (i : nat) : Monitor.call :=
  {| Monitor.callNow := now;
     Monitor.callKey := {| Monitor.keyNow := now; Monitor.keyRandom := N.of_nat i |};
     Monitor.callCandidate := 7; Monitor.callAgency := N.of_nat i;
     Monitor.callSuccess := false; Monitor.callError := Some "timeout"%string;
     Monitor.callTime := 120 |}.



(** One job of one agency, delivered. *)
Definition deliveredRun : list Service.event :=
  [Service.Distribute (Some (southCandidate 7)); Service.EmailSettles 0 0 0 true].

(** One job of two agencies: the first send fails, the second succeeds. *)
Definition mixedRun : list Service.event :=
  [Service.Distribute (Some (southCandidate 7));
   Service.EmailSettles 0 0 0 false; Service.EmailSettles 0 0 1 true].

(** A window of 100 attempts of which 11 failed. *)
Definition elevenPercent : Monitor.healthChecks :=
  Monitor.replay ((failedCall <$> seq 0 11) ++ (monitorCall <$> seq 11 89)) [].








Definition twoAgencies : list eligible :=
  getEligibleAgencies "south" now (agenciesDb 2).

End Samples.

(** ** Background jobs (services/backgroundJobsManager.js) *)

(** [updateMany]: every document the filter matches is updated. *)
Definition updateMany {A} (filter : A -> bool) (update : A -> A) (l : list A) : list A :=
  (fun x => if filter x then update x else x) <$> l.

Module Jobs.

(** The filter of [resetDailyCounters]; a missing [dailyCount] matches no
    [$gt]. *)
Definition resetFilter (c : company) : bool :=
  isRecruitmentAgency c
  && match distributionSettings c ≫= dailyCount with
     | Some n => 0 <? n
     | None => false
     end.

(** [$set: { dailyCount: 0, lastCountReset: new Date() }]. *)
Definition zeroUpdate (now : Z) (c : company) : company :=
  setSettings
    {| maxCVsPerDay := distributionSettings c ≫= maxCVsPerDay;
       dailyCount := Some 0;
       lastCountReset := Some now |} c.

(** [resetDailyCounters] at clock [now]: the [modifiedCount] it logs and
    the store it leaves. Every matched document is modified, its count
    being positive before. *)
Definition resetDailyCounters (now : Z) (d : database) : nat * database :=
  (length (List.filter resetFilter (companies d)),
   withCompanies (updateMany resetFilter (zeroUpdate now) (companies d)) d).

(** The filter of [expiringSoon]. *)
Definition expiringSoonQuery (now : Z) (s : subscription) : bool :=
  bool_decide (status s = active)
  && match expirationDate s with
     | Some e => (now <=? e) && (e <=? now + 7 * oneDay)
     | None => false
     end.

(** [Math.ceil(ms / (1000 * 60 * 60 * 24))] on a whole number of
    milliseconds. The quotient of the source is a double; for [ms] up to
    seven days it is within 1e-15 of the exact quotient, which is a whole
    number or at least 1e-8 away from one, so the ceiling is the exact
    one. *)
Definition ceilDays (ms : Z) : Z := - ((- ms) / oneDay).

(** One iteration of the notification loop: [true] when
    [notificationsSent] is incremented. [populate] leaves [null] for a
    company that does not exist, and reading its [companyName] throws
    inside the [try], before the increment. *)
Definition notifies (now : Z) (d : database) (s : subscription) : bool :=
  match expirationDate s with
  | Some e =>
      let daysLeft := ceilDays (e - now) in
      if bool_decide (daysLeft ∈ [7; 3; 1])
      then match findById (companyId s) d with
           | Some _ => true
           | None => false
           end
      else false
  | None => false
  end.

(** The filter of the closing [updateMany]; a missing [expirationDate]
    matches no [$lt]. *)
Definition expiredFilter (now : Z) (s : subscription) : bool :=
  bool_decide (status s = active)
  && match expirationDate s with
     | Some e => e <? now
     | None => false
     end.

(** [$set: { status: 'expired' }]. *)
Definition markExpired (s : subscription) : subscription :=
  {| companyId := companyId s; status := expired;
     expirationDate := expirationDate s |}.

(** What [checkSubscriptionExpiry] logs and leaves. *)
Record expiryReport := {
  notificationsSent : nat;
  markedExpired : nat
}.

Definition checkSubscriptionExpiry (now : Z) (d : database)
  : expiryReport * database :=
  let expiringSoon := List.filter (expiringSoonQuery now) (subscriptions d) in
  let sent := length (List.filter (notifies now d) expiringSoon) in
  ({| notificationsSent := sent;
      markedExpired := length (List.filter (expiredFilter now) (subscriptions d)) |},
   {| companies := companies d;
      subscriptions := updateMany (expiredFilter now) markExpired (subscriptions d) |}).

End Jobs.

(** ** The checks of the monitor (middleware/distributionMonitoring.js) *)

Module Checks.
Import Monitor.

#[global] Instance status_eq_dec : EqDecision status.
Proof. solve_decision. Defined.



(** The issues of [validateSystemConfiguration], with what each prints. *)
Inductive configIssue :=
| DatabaseConnectionIssue
| AgenciesWithoutEmail (n : nat)
| StorageAlmostFull (usagePercentage : Z)
| StorageUnavailable.

(** What the storage check meets: [require] or [getStorageStats] throws,
    or the call returns [null] or the statistics, of which
    [usagePercentage] is read. *)
Inductive storageOutcome :=
| StorageThrows
| StorageStats (usagePercentage : option Z).

(** The filter of [agenciesWithoutEmails]. On an array,
    ['recruitmentEmails.isActive': { $ne: true }] matches when no element
    has [isActive] equal to [true]. *)
Definition withoutEmailQuery (c : company) : bool :=
  isRecruitmentAgency c
  && bool_decide (isRecruitmentAccess c = approved)
  && companyIsActive c
  && ((length (recruitmentEmails c) =? 0)%nat
      || negb (existsb isActive (recruitmentEmails c))).

Record validation := {
  isValid : bool;
  validationIssues : list configIssue
}.

(** [validateSystemConfiguration]: [readyState] is
    [mongoose.connection.readyState]. *)
Definition validateSystemConfiguration (readyState : Z) (storage : storageOutcome)
    (d : database) : validation :=
  let i0 : list configIssue := [] in
  let i1 := if negb (readyState =? 1) then i0 ++ [DatabaseConnectionIssue] else i0 in
  let agenciesWithoutEmails := length (List.filter withoutEmailQuery (companies d)) in
  let i2 := if (0 <? agenciesWithoutEmails)%nat
            then i1 ++ [AgenciesWithoutEmail agenciesWithoutEmails] else i1 in
  let i3 := match storage with
            | StorageThrows => i2 ++ [StorageUnavailable]
            | StorageStats (Some usage) =>
                if 90 <? usage then i2 ++ [StorageAlmostFull usage] else i2
            | StorageStats None => i2
            end in
  {| isValid := (length i3 =? 0)%nat; validationIssues := i3 |}.

End Checks.

(** ** Predicates of the further properties *)

Module Audit.
Import Service Invariants.

(** The fields of a company that no update of the counters writes. *)
Record profile := {
  profileId : N;
  profileName : string;
  profileRegions : list string;
  profileAgency : bool;
  profileAccess : access;
  profileEmails : list emailObj;
  profileCap : option Z;
  profileActive : bool
}.

Definition profileOf (c : company) : profile :=
  {| profileId := _id c; profileName := companyName c;
     profileRegions := supportRegions c;
     profileAgency := isRecruitmentAgency c;
     profileAccess := isRecruitmentAccess c;
     profileEmails := recruitmentEmails c;
     profileCap := distributionSettings c ≫= maxCVsPerDay;
     profileActive := companyIsActive c |}.

(** The mail is one that a job of task [t] sends: to an active address of
    one of the agencies of [t], about the candidate of [t]. *)
Definition mailOf (t : task) (m : mail) : Prop :=
  mailCandidate m = candidateId (taskCandidate t)
  /\ exists a e, a ∈ agencies t /\ mailAgency m = _id (agency a)
                 /\ e ∈ recruitmentEmails (agency a) /\ isActive e = true
                 /\ mailTo m = email e.

(** The agencies of the task were resolved for its candidate, who has
    passed the guard: each agency passes the query for the region of the
    candidate, has in [d0] a subscription active at the time of the task,
    and was under its cap. *)
Definition resolved (d0 : database) (t : task) : Prop :=
  (exists p ps, positions (taskCandidate t) = Some (p :: ps))
  /\ agencies t <> []
  /\ Forall (fun a =>
               agencyQuery (extractRegionFromCandidate (taskCandidate t)) (agency a) = true
               /\ activeSubscription (taskTimestamp t) d0 (agency a)
               /\ currentDailyCount a < maxDailyOf (agency a))
            (agencies t).

(** Every batch was dispatched between [from] and [to]. *)
Definition within (from to : Z) (bs : list batch) : Prop :=
  Forall (fun b => from <= dispatchedAt b <= to) bs.

(** The sends of a list of batches, in order. *)
Definition attempted (bs : list batch) : list eligible :=
  concat ((fun b => sendAgency <$> sends b) <$> bs).

(** The shift of task [t] at clock [s], after the completion [prev] if
    any: at the push of the task, or when the timer set at the last
    completion fires, the task having been on the queue at that
    completion. *)
Definition shiftedAt (prev : option completion) (t : task) (s : Z) : Prop :=
  s = taskTimestamp t
  \/ exists c, prev = Some c /\ taskTimestamp t <= doneAt c
               /\ doneAt c + 1000 <= s.

(** What the jobs leave behind, beside the invariant of the queue: the
    store keeps its profiles and subscriptions, every task was resolved,
    every mail belongs to a started task, the k-th job finished is the
    k-th started and dispatched its batches between its start and its
    end, no job started after the present, the first job started at the
    push of its task and every later one at the push of its task or
    from the timer set when the job before it finished. *)
Record ledger (d0 : database) (w : world) : Prop := {
  ledger_profiles : profileOf <$> companies (store w) = profileOf <$> companies d0;
  ledger_subscriptions : subscriptions (store w) = subscriptions d0;
  ledger_tasks : Forall (resolved d0) (pushed w);
  ledger_mail : Forall (fun m => exists t, t ∈ (started w).*1 /\ mailOf t m) (outbox w);
  ledger_done :
    forall k c ts, completed w !! k = Some c -> started w !! k = Some ts ->
      within ts.2 (doneAt c) (doneBatches c);
  ledger_clock : Forall (fun ts => ts.2 <= clock w) (started w);
  ledger_first :
    forall t s, started w !! 0%nat = Some (t, s) -> shiftedAt None t s;
  ledger_next :
    forall k c t s, completed w !! k = Some c -> started w !! S k = Some (t, s) ->
      shiftedAt (Some c) t s
}.

(** A send that is pending still waits for a mail. *)
Definition sendLive (s : send) : Prop :=
  sendPromise s = Pending -> (0 < outstanding s)%nat.

(** The job can move on: its pending sends wait for mails, its pending
    batches wait for sends, and when it waits for its batches one of
    them is pending. *)
Definition jobLive (j : job) : Prop :=
  Forall (fun b => Forall sendLive (sends b)
                   /\ (batchPromise b = Pending -> allSettled b = false))
         (batchPromises j)
  /\ (jobWaits j = AwaitAllSettled ->
      exists b, b ∈ batchPromises j /\ batchPromise b = Pending).

(** The job that runs is the last one started, has dispatched its
    batches between its start and the present, and can move on; the
    timer between two tasks runs for a task that was on the queue when
    the last job finished. *)
Definition timed (od : option drain) (w : world) : Prop :=
  match od with
  | Some (InJob j) =>
      (exists s, last (started w) = Some (jobTask j, s)
                 /\ within s (clock w) (batchPromises j))
      /\ jobLive j
  | Some (BetweenTasks _) =>
      exists t c, head (distributionQueue (svc w)) = Some t
                  /\ last (completed w) = Some c
                  /\ taskTimestamp t <= doneAt c
  | None => True
  end.

Definition audited (d0 : database) (w : world) : Prop :=
  ledger d0 w /\ forall dr, dr ∈ drains w -> timed (Some dr) w.

(** The batch promises of the job that the loop awaits or, when it
    awaits none, of the job it finished last. *)
Definition currentBatches (w : world) : list batch :=
  match omap jobOf (drains w) with
  | j :: _ => batchPromises j
  | [] => from_option doneBatches [] (last (completed w))
  end.

(** The two calls of [distributeCVToAgencies] that the route of
    submission (routes/candidates.js) makes for a saved candidate: one
    when the candidate is saved, one after the route has awaited the
    confirmation email, while the events [between] reach the service. *)
Definition submission (c : candidate) (between : list event) : list event :=
  [Distribute (Some c)] ++ between ++ [Distribute (Some c)].

(** The mails that the sends of the job still wait for. *)
Definition owed (j : job) : nat :=
  sum_list ((fun b => sum_list (outstanding <$> sends b)) <$> batchPromises j).

(** The events that come from the timers and from the mail service. *)
Definition internal (e : event) : Prop :=
  match e with
  | EmailSettles _ _ _ _ | TimerFires _ | Elapse _ => True
  | _ => False
  end.

(** The passing of time is the only event. *)
Definition quiet (es : list event) : Prop :=
  Forall (fun e => exists ms, e = Elapse ms) es.


(** Deliveries to one agency, at the given clocks in turn. *)
Definition deliveries (id : N) (times : list Z) (d : database) : database :=
  foldl (fun acc t => updateDailyCount id t acc) d times.

End Audit.

(** * Properties *)

(** ** The store *)

Lemma find_some_holds {A} (P : A -> bool) l x : List.find P l = Some x -> P x = true.
Proof. intros H. apply List.find_some in H. tauto. Qed.

Lemma find_findOneAndUpdate (P f : company -> bool) (u : company -> company) cs :
  (forall c, f c = true -> P c = true) ->
  (forall c, P (u c) = P c) ->
  List.find P (findOneAndUpdate f u cs)
  = (fun c => if f c then u c else c) <$> List.find P cs.
Proof.
  intros Hf Hu. induction cs as [|c rest IH]; simpl; [done|].
  destruct (f c) eqn:Efc.
  - simpl. rewrite Hu, (Hf c Efc). simpl. by rewrite Efc.
  - simpl. destruct (P c) eqn:EP; simpl; [by rewrite Efc | done].
Qed.

Lemma id_resetUpdate now c : _id (resetUpdate now c) = _id c.
Proof. done. Qed.
Lemma id_incUpdate c : _id (incUpdate c) = _id c.
Proof. done. Qed.

Lemma elem_of_bfilter {A} (f : A -> bool) l x : x ∈ List.filter f l <-> x ∈ l /\ f x = true.
Proof. rewrite !list_elem_of_In. apply List.filter_In. Qed.

Lemma num_or_zero x : num_or x 0 = default 0 x.
Proof. destruct x as [v|]; simpl; [|done]. destruct (Z.eqb_spec v 0); congruence. Qed.

Lemma num_or_nonzero x d : x <> Some 0 -> num_or x d = default d x.
Proof. destruct x as [v|]; simpl; [|done]. intros H. destruct (Z.eqb_spec v 0); congruence. Qed.

Lemma getEligibleAgencies_spec region now d e :
  e ∈ getEligibleAgencies region now d <->
    agency e ∈ companies d /\ agencyQuery region (agency e) = true
    /\ activeSubscription now d (agency e)
    /\ currentDailyCount e = effectiveCount (now - oneDay) (agency e)
    /\ effectiveCount (now - oneDay) (agency e) < maxDailyOf (agency e).
Proof.
  unfold getEligibleAgencies. rewrite list_elem_of_omap.
  set (ags := List.filter (agencyQuery region) (companies d)).
  assert (Hact : forall a, a ∈ ags ->
    (_id a ∈ (list_to_set (companyId <$> List.filter (subscriptionQuery (_id <$> ags) now) (subscriptions d)) : gset N)
     <-> activeSubscription now d a)).
  { intros a Ha. rewrite elem_of_list_to_set, list_elem_of_fmap. split.
    - intros (s & Hid & Hs). apply elem_of_bfilter in Hs as [Hs Hq].
      unfold subscriptionQuery in Hq. rewrite !andb_true_iff, !bool_decide_eq_true in Hq.
      destruct Hq as [[_ Hst] He]. destruct (expirationDate s) as [x|] eqn:Ex; [|done].
      exists s, x. repeat split; try done. lia.
    - intros (s & x & Hs & Hid & Hst & Hx & Hlt). exists s. split; [done|].
      apply elem_of_bfilter. split; [done|].
      unfold subscriptionQuery. rewrite Hx, !andb_true_iff, !bool_decide_eq_true.
      repeat split; try done.
      + rewrite Hid. by apply list_elem_of_fmap_2.
      + lia. }
  split.
  - intros (a & Ha & Hc). pose proof (Hact a Ha) as Hiff.
    apply elem_of_bfilter in Ha as [Hin Hq].
    unfold checkAgency in Hc.
    destruct (bool_decide _) eqn:Eb in Hc; simpl in Hc; [|done].
    apply bool_decide_eq_true in Eb.
    destruct (Z.ltb_spec (effectiveCount (now - oneDay) a) (maxDailyOf a)); [|done].
    injection Hc as <-. simpl. tauto.
  - intros (Hin & Hq & Hs & Hcur & Hlt). exists (agency e).
    assert (Ha : agency e ∈ ags) by (apply elem_of_bfilter; done).
    split; [done|]. unfold checkAgency.
    apply (Hact _ Ha) in Hs. rewrite (bool_decide_eq_true_2 _ Hs). simpl.
    destruct (Z.ltb_spec (effectiveCount (now - oneDay) (agency e)) (maxDailyOf (agency e))); [|lia].
    f_equal. destruct e; simpl in *. by rewrite Hcur.
Qed.

Lemma findById_update id now d :
  findById id (updateDailyCount id now d) = quotaUpdate id now <$> findById id d.
Proof.
  unfold findById, updateDailyCount, findByIdAndUpdate, quotaUpdate. cbn [companies withCompanies].
  rewrite find_findOneAndUpdate; [|done|done].
  rewrite find_findOneAndUpdate.
  - destruct (List.find _ (companies d)) as [c|] eqn:Hc; [|done]. cbn.
    apply find_some_holds in Hc.
    assert (bool_decide (_id (if staleFilter id (now - oneDay) c then resetUpdate now c else c) = id) = true) as ->.
    { destruct (staleFilter _ _ _); done. }
    done.
  - unfold staleFilter. intros c0 H. apply andb_true_iff in H. tauto.
  - done.
Qed.

Lemma find_findOneAndUpdate_other (P f : company -> bool) (u : company -> company) cs :
  (forall c, f c = true -> P c = false) ->
  (forall c, P (u c) = P c) ->
  List.find P (findOneAndUpdate f u cs) = List.find P cs.
Proof.
  intros Hf Hu. induction cs as [|c rest IH]; [done|]. cbn.
  destruct (f c) eqn:Efc; cbn.
  - by rewrite Hu, (Hf c Efc).
  - by rewrite IH.
Qed.

Lemma findById_update_other id id' now d :
  id <> id' -> findById id (updateDailyCount id' now d) = findById id d.
Proof.
  intros Hne. unfold findById, updateDailyCount, findByIdAndUpdate. cbn [companies withCompanies].
  rewrite find_findOneAndUpdate_other; [rewrite find_findOneAndUpdate_other| |]; try done.
  - intros c Hc. unfold staleFilter in Hc. apply andb_true_iff in Hc as [Hc _].
    apply bool_decide_eq_true in Hc. apply bool_decide_eq_false. congruence.
  - intros c Hc. apply bool_decide_eq_true in Hc. apply bool_decide_eq_false. congruence.
Qed.


(** ** The monitor *)

Module MonitorFacts.
Import Monitor.

Lemma Qgt_bool_spec a b : Qgt_bool a b = true <-> (b < a)%Q.
Proof.
  unfold Qgt_bool. rewrite negb_true_iff. split.
  - intros H. apply Qnot_le_lt. intros Hle. apply Qle_bool_iff in Hle. congruence.
  - intros H. destruct (Qle_bool a b) eqn:E; [|done].
    apply Qle_bool_iff in E. exfalso. by apply (Qlt_not_le _ _ H).
Qed.


Lemma classify_spec t fr avg sr :
  let high := Qgt_bool fr (maxFailureRate t) in
  let slow := Qgt_bool avg (maxProcessingTime t) in
  let low := Qgt_bool (minSuccessRate t) sr in
  classify t fr avg sr =
    (if low then critical else if high || slow then warning else healthy,
     (if high then [HighFailureRate fr] else [])
     ++ (if slow then [SlowProcessing avg] else [])
     ++ (if low then [LowSuccessRate sr] else [])).
Proof.
  unfold classify.
  destruct (Qgt_bool fr _), (Qgt_bool avg _), (Qgt_bool _ sr); reflexivity.
Qed.

Lemma pos_of_nat_Z n : (0 < n)%nat -> Z.pos (Pos.of_nat n) = Z.of_nat n.
Proof. intros H. rewrite <- positive_nat_Z, Nat2Pos.id; lia. Qed.

Lemma low_success_of_high_failure (s n : nat) :
  (0 < n)%nat -> (s <= n)%nat ->
  (1 # 10 < ratio (Z.of_nat (n - s)) n)%Q -> (ratio (Z.of_nat s) n < 9 # 10)%Q.
Proof.
  intros Hn Hs. unfold ratio, Qlt. simpl. rewrite pos_of_nat_Z by done. lia.
Qed.

Lemma length_bfilter_le {A} (f : A -> bool) l : (length (List.filter f l) <= length l)%nat.
Proof. induction l as [|x l IH]; simpl; [lia|]. destruct (f x); simpl; lia. Qed.

Lemma getHealthStatus_nonempty now m :
  recentLogs now m <> [] ->
  getHealthStatus now m =
    let logs := recentLogs now m in
    let r := classify alertThresholds (failureRate logs) (avgProcessingTime logs)
               (successRate logs) in
    {| healthStatus := r.1; totalAttempts := length logs;
       successful := successfulCount logs;
       failed := (length logs - successfulCount logs)%nat;
       issues := match r.1 with healthy => [] | _ => r.2 end |}.
Proof. unfold getHealthStatus. by destruct (recentLogs now m). Qed.

Lemma mapSet_fresh k v m : k ∉ m.*1 -> mapSet k v m = m ++ [(k, v)].
Proof.
  induction m as [|[k' v'] m IH]; simpl; [done|]. intros Hn.
  apply not_elem_of_cons in Hn as [Hne Hn]. rewrite decide_False by done.
  by rewrite IH.
Qed.

Lemma mapSet_keys_present k v m : k ∈ m.*1 -> (mapSet k v m).*1 = m.*1.
Proof.
  induction m as [|[k' v'] m IH]; simpl; [by intros ?%elem_of_nil|]. intros Hin.
  destruct (decide (k = k')) as [->|Hne]; [done|]. simpl. f_equal. apply IH.
  apply elem_of_cons in Hin as [?|?]; done.
Qed.

Lemma mapSet_NoDup k v m : NoDup m.*1 -> NoDup (mapSet k v m).*1.
Proof.
  intros Hm. destruct (decide (k ∈ m.*1)) as [Hin|Hout].
  - by rewrite mapSet_keys_present.
  - rewrite mapSet_fresh, fmap_app by done. simpl.
    apply NoDup_app. split; [done|]. split; [|apply NoDup_singleton].
    intros x Hx ->%list_elem_of_singleton. done.
Qed.

Lemma mapSet_length k v m : (length (mapSet k v m) <= S (length m))%nat.
Proof.
  induction m as [|[k' v'] m IH]; simpl; [lia|].
  destruct (decide (k = k')); simpl; lia.
Qed.

Lemma mapDelete_absent k m : k ∉ m.*1 -> mapDelete k m = m.
Proof.
  induction m as [|[k' v'] m IH]; simpl; [done|]. intros Hn.
  apply not_elem_of_cons in Hn as [Hne Hn].
  rewrite bool_decide_eq_false_2 by (simpl; congruence). simpl. by rewrite IH.
Qed.

Lemma deleteOldest_drop n m :
  NoDup m.*1 -> foldl (fun acc k => mapDelete k acc) m (take n m.*1) = drop n m.
Proof.
  revert n. induction m as [|[k v] m IH]; intros n Hm.
  - by destruct n.
  - destruct n as [|n]; [done|]. simpl. apply NoDup_cons in Hm as [Hk Hm].
    rewrite bool_decide_eq_true_2 by done. simpl.
    rewrite mapDelete_absent by done. by apply IH.
Qed.

Lemma cleanOld_spec m :
  NoDup m.*1 ->
  cleanOld m = if (capacity <? length m)%nat then drop trim m else m.
Proof. intros Hm. unfold cleanOld. case_match; [by apply deleteOldest_drop|done]. Qed.

Lemma cleanOld_NoDup m : NoDup m.*1 -> NoDup (cleanOld m).*1.
Proof.
  intros Hm. rewrite cleanOld_spec by done. case_match; [|done].
  rewrite fmap_drop. rewrite <- (take_drop trim (m.*1)) in Hm.
  by apply NoDup_app in Hm as (_ & _ & ?).
Qed.

Lemma record_spec c m :
  NoDup m.*1 ->
  let m1 := mapSet (callKey c) (entryOf c) m in
  record c m = if (capacity <? length m1)%nat then drop trim m1 else m1.
Proof. intros Hm m1. unfold record, logDistributionAttempt. simpl. apply cleanOld_spec, mapSet_NoDup, Hm. Qed.

Lemma record_NoDup c m : NoDup m.*1 -> NoDup (record c m).*1.
Proof. intros Hm. apply cleanOld_NoDup, mapSet_NoDup, Hm. Qed.

Lemma record_bounded c m :
  NoDup m.*1 -> (length m <= capacity)%nat -> (length (record c m) <= capacity)%nat.
Proof.
  intros Hm Hlen. rewrite record_spec by done. cbv zeta.
  pose proof (mapSet_length (callKey c) (entryOf c) m) as Hs.
  destruct (Nat.ltb_spec capacity (length (mapSet (callKey c) (entryOf c) m))).
  - rewrite length_drop. unfold capacity, trim in *. lia.
  - done.
Qed.

Lemma replay_snoc cs c m : replay (cs ++ [c]) m = record c (replay cs m).
Proof. unfold replay. by rewrite foldl_app. Qed.

Lemma replay_invariant cs :
  NoDup (replay cs []).*1 /\ (length (replay cs []) <= capacity)%nat.
Proof.
  induction cs as [|c cs IH] using rev_ind.
  - split; [apply NoDup_nil_2 | simpl; lia].
  - rewrite replay_snoc. destruct IH as [Hn Hl].
    split; [by apply record_NoDup | by apply record_bounded].
Qed.

Lemma stored_keys cs : (stored <$> cs).*1 = callKey <$> cs.
Proof. rewrite <- list_fmap_compose. done. Qed.

Lemma replay_below_capacity cs :
  NoDup (callKey <$> cs) -> (length cs <= capacity)%nat ->
  replay cs [] = stored <$> cs.
Proof.
  induction cs as [|c cs IH] using rev_ind; [done|].
  rewrite fmap_app, length_app. simpl. intros Hn Hl.
  apply NoDup_app in Hn as (Hn & Hfresh & _).
  rewrite replay_snoc, IH by (done || lia).
  rewrite record_spec by (by rewrite stored_keys).
  cbv zeta. rewrite mapSet_fresh.
  - rewrite fmap_app. simpl. change (callKey c, entryOf c) with (stored c).
    destruct (Nat.ltb_spec capacity (length ((stored <$> cs) ++ [stored c]))) as [H|H]; [|done].
    rewrite length_app, length_fmap in H. simpl in H. lia.
  - rewrite stored_keys. intros Hin. apply (Hfresh _ Hin). by apply list_elem_of_singleton.
Qed.

Lemma replay_overflow cs :
  NoDup (callKey <$> cs) -> length cs = S capacity ->
  replay cs [] = drop trim (stored <$> cs).
Proof.
  destruct cs as [|c cs _] using rev_ind; [done|].
  rewrite fmap_app, length_app. simpl. intros Hn Hl.
  apply NoDup_app in Hn as (Hn & Hfresh & _).
  rewrite replay_snoc, replay_below_capacity by (done || lia).
  rewrite record_spec by (by rewrite stored_keys).
  cbv zeta. rewrite mapSet_fresh.
  - rewrite fmap_app. simpl. change (callKey c, entryOf c) with (stored c).
    destruct (Nat.ltb_spec capacity (length ((stored <$> cs) ++ [stored c]))) as [H|H]; [done|].
    rewrite length_app, length_fmap in H. simpl in H. lia.
  - rewrite stored_keys. intros Hin. apply (Hfresh _ Hin). by apply list_elem_of_singleton.
Qed.

Lemma oldest_evicted c cs :
  NoDup (callKey <$> c :: cs) -> length (c :: cs) = S capacity ->
  callKey c ∉ (replay (c :: cs) []).*1.
Proof.
  intros Hn Hl. rewrite replay_overflow by done.
  rewrite fmap_drop, stored_keys. simpl.
  apply NoDup_cons in Hn as [Hc _].
  intros Hin. apply Hc. by eapply subseteq_drop.
Qed.


(** *** The doubles and the rationals *)

Lemma upto_spec fuel f k i :
  upto fuel f k = true -> k <= i < k + Z.of_nat fuel -> f i = true.
Proof.
  revert k. induction fuel as [|m IH]; intros k H Hi; [lia|].
  cbn [upto] in H. apply andb_true_iff in H as [Hk Hrest].
  destruct (decide (i = k)) as [->|Hne]; [done|]. apply (IH (k + 1)); [done|lia].
Qed.

(** Every window size up to the capacity and every count of it, checked
    by evaluation on the doubles. *)
Lemma agree_capacity :
  upto capacity (fun n => upto (S (Z.to_nat n)) (agreeAt n) 0) 1 = true.
Proof. vm_compute. reflexivity. Qed.

Lemma ratio_gt_tenth k n :
  (0 < n)%nat -> Qgt_bool (ratio k n) (1 # 10) = (Z.of_nat n <? 10 * k).
Proof.
  intros Hn. unfold Qgt_bool, Qle_bool, ratio. cbn [Qnum Qden].
  rewrite pos_of_nat_Z by done.
  destruct (Z.leb_spec (k * 10) (1 * Z.of_nat n)),
    (Z.ltb_spec (Z.of_nat n) (10 * k)); cbn; lia.
Qed.

Lemma ratio_lt_ninety k n :
  (0 < n)%nat -> Qgt_bool (9 # 10) (ratio k n) = (10 * k <? 9 * Z.of_nat n).
Proof.
  intros Hn. unfold Qgt_bool, Qle_bool, ratio. cbn [Qnum Qden].
  rewrite pos_of_nat_Z by done.
  destruct (Z.leb_spec (9 * Z.of_nat n) (k * 10)),
    (Z.ltb_spec (10 * k) (9 * Z.of_nat n)); cbn; lia.
Qed.

Lemma doubles_agree (k n : nat) :
  (0 < n <= capacity)%nat -> (k <= n)%nat ->
  PrimFloat.ltb maxFailureRateDouble (ratioDouble (Z.of_nat k) (Z.of_nat n))
  = Qgt_bool (ratio (Z.of_nat k) n) (maxFailureRate alertThresholds)
  /\ PrimFloat.ltb (ratioDouble (Z.of_nat k) (Z.of_nat n)) minSuccessRateDouble
     = Qgt_bool (minSuccessRate alertThresholds) (ratio (Z.of_nat k) n).
Proof.
  intros Hn Hk.
  assert (Hrow : upto (S (Z.to_nat (Z.of_nat n))) (agreeAt (Z.of_nat n)) 0 = true).
  { apply (upto_spec capacity (fun n => upto (S (Z.to_nat n)) (agreeAt n) 0) 1
             (Z.of_nat n) agree_capacity). lia. }
  assert (Hat : agreeAt (Z.of_nat n) (Z.of_nat k) = true).
  { apply (upto_spec _ _ 0 (Z.of_nat k) Hrow). lia. }
  unfold agreeAt in Hat. apply andb_true_iff in Hat as [H1 H2].
  apply Bool.eqb_prop in H1, H2.
  change (maxFailureRate alertThresholds) with (1 # 10)%Q.
  change (minSuccessRate alertThresholds) with (9 # 10)%Q.
  rewrite ratio_gt_tenth, ratio_lt_ninety by lia. done.
Qed.

Lemma recentLogs_length now m : (length (recentLogs now m) <= length m)%nat.
Proof.
  unfold recentLogs. etrans; [apply length_bfilter_le|]. by rewrite length_fmap.
Qed.








(** Over the windows of a buffer that the calls have filled, the tests of
    the source on doubles are the tests of [classify]. *)
Lemma window_doubles_agree now cs :
  let logs := recentLogs now (replay cs []) in
  logs <> [] ->
  highFailureDouble logs = Qgt_bool (failureRate logs) (maxFailureRate alertThresholds)
  /\ lowSuccessDouble logs = Qgt_bool (minSuccessRate alertThresholds) (successRate logs).
Proof.
  intros logs Hne.
  assert (Hn : (0 < length logs <= capacity)%nat).
  { split; [destruct logs; [done | simpl; lia]|].
    etrans; [apply recentLogs_length|]. apply replay_invariant. }
  assert (Hok : (successfulCount logs <= length logs)%nat) by apply length_bfilter_le.
  split.
  - apply (doubles_agree (length logs - successfulCount logs) (length logs)); [done | lia].
  - by apply (doubles_agree (successfulCount logs) (length logs)).
Qed.

End MonitorFacts.

(** ** The service *)

Module ServiceFacts.
Import Service Invariants.


(** *** Slices *)


Lemma sliced_snoc size ags ls :
  sliced size ags ls ->
  sliced size ags (ls ++ [slice (length ls * size) (length ls * size + size) ags]).
Proof.
  intros H k l Hk. apply lookup_snoc_Some in Hk as [[_ Hk]|[-> <-]]; [by apply H|done].
Qed.

Lemma sliced_concat size ags ls :
  sliced size ags ls -> concat ls = take (length ls * size) ags.
Proof.
  induction ls as [|l ls IH] using rev_ind; intros H; [done|].
  rewrite concat_app, length_app. simpl. rewrite app_nil_r.
  rewrite IH by (intros k x Hk; apply H; by apply lookup_app_l_Some).
  rewrite (H (length ls) l) by (by rewrite list_lookup_middle).
  unfold slice. replace (length ls * size + size - length ls * size)%nat with size by lia.
  rewrite take_take_drop. f_equal. lia.
Qed.

Lemma ceilDiv_unique n size L :
  (0 < L)%nat -> (pred L * size < n)%nat -> (n <= pred L * size + size)%nat ->
  L = ceilDiv n size.
Proof.
  intros HL Hlo Hhi. unfold ceilDiv.
  assert (size <> 0)%nat by (intros ->; lia).
  destruct L as [|L']; [lia|]. simpl in *.
  apply (Nat.div_unique _ _ _ (n + size - 1 - size * S L')%nat); nia.
Qed.

Lemma ceilDiv_covers n size : (0 < size)%nat -> (n <= ceilDiv n size * size)%nat.
Proof.
  intros Hs. unfold ceilDiv.
  pose proof (Nat.div_mod_eq (n + size - 1) size) as H.
  pose proof (Nat.mod_upper_bound (n + size - 1) size). nia.
Qed.

Lemma sliced_total size ags ls :
  (0 < size)%nat -> sliced size ags ls -> length ls = ceilDiv (length ags) size ->
  concat ls = ags.
Proof.
  intros Hs H HL. rewrite (sliced_concat _ _ _ H), HL.
  apply take_ge, ceilDiv_covers, Hs.
Qed.

(** *** Sends and batches *)

Lemma sendCVToAgency_agency c a : sendAgency (sendCVToAgency c a).1 = a.
Proof. unfold sendCVToAgency. by destruct (activeEmails a). Qed.

Lemma sendCVToAgency_not_fulfilled c a :
  isFulfilled (sendPromise (sendCVToAgency c a).1) = false.
Proof. unfold sendCVToAgency. by destruct (activeEmails a). Qed.

Lemma processBatch_agencies now c ags :
  sendAgency <$> sends (processBatch now c ags).1 = ags.
Proof.
  unfold processBatch. simpl. rewrite <- !list_fmap_compose.
  induction ags as [|a ags IH]; [done|]. simpl. f_equal; [|done].
  apply sendCVToAgency_agency.
Qed.

Lemma processBatch_ok now c ags : batchOk (processBatch now c ags).1.
Proof. split; [apply processBatch_agencies | done]. Qed.

Lemma settleEmail_agency ok s : sendAgency (settleEmail ok s) = sendAgency s.
Proof. unfold settleEmail. by destruct (outstanding s). Qed.

Lemma settleEmail_settled ok s :
  settled (sendPromise s) = true -> sendPromise (settleEmail ok s) = sendPromise s.
Proof. unfold settleEmail. destruct (outstanding s); [done|]. simpl. by destruct (sendPromise s). Qed.

Lemma tally_fold now l acc :
  let r := foldl (tallyStep now) acc l in
  success r.1 = (success acc.1 + length (List.filter (fun ar => isFulfilled ar.2) l))%nat
  /\ (success r.1 + errors r.1 = success acc.1 + errors acc.1 + length l)%nat.
Proof.
  revert acc. induction l as [|[a p] l IH]; intros acc; simpl; [lia|].
  destruct (IH (tallyStep now acc (a, p))) as [H1 H2]. cbv zeta in *.
  split; [rewrite H1 | rewrite H2]; unfold tallyStep; destruct p; simpl; lia.
Qed.

Lemma filter_snd_zip {A B} (f : B -> bool) (l1 : list A) (l2 : list B) :
  length l1 = length l2 ->
  length (List.filter (fun ab => f ab.2) (zip l1 l2)) = length (List.filter f l2).
Proof.
  revert l2. induction l1 as [|a l1 IH]; intros [|b l2] H; simpl in *; try done.
  injection H as H. destruct (f b); simpl; by rewrite IH.
Qed.

Lemma filter_fmap_length {A B} (f : B -> bool) (g : A -> B) (l : list A) :
  length (List.filter f (g <$> l)) = length (List.filter (fun x => f (g x)) l).
Proof.
  induction l as [|a l IH]; simpl; [done|].
  destruct (f (g a)); simpl; [f_equal|]; exact IH.
Qed.

Lemma tally_counts now ags (ss : list send) d :
  length ags = length ss ->
  let r := tally now ags (sendPromise <$> ss) d in
  success r.1 = length (List.filter (fun s => isFulfilled (sendPromise s)) ss)
  /\ (success r.1 + errors r.1 = length ss)%nat.
Proof.
  intros Hlen r. unfold r, tally.
  destruct (tally_fold now (zip ags (sendPromise <$> ss))
              ({| success := 0; errors := 0 |}, d)) as [H1 H2].
  cbv zeta in *. simpl in H1, H2.
  rewrite filter_snd_zip in H1 by (by rewrite length_fmap).
  rewrite filter_fmap_length in H1. rewrite length_zip_with, length_fmap in H2.
  split; [done | lia].
Qed.

Lemma resolveBatch_frame now b d :
  let b' := (resolveBatch now b d).1 in
  batchAgencies b' = batchAgencies b /\ sends b' = sends b
  /\ dispatchedAt b' = dispatchedAt b.
Proof. unfold resolveBatch. destruct (batchPromise b), (allSettled b); done. Qed.

Lemma resolveBatch_ok now b d : batchOk b -> batchOk (resolveBatch now b d).1.
Proof.
  intros Hok. unfold resolveBatch.
  destruct (batchPromise b) eqn:Ep; try exact Hok.
  destruct (allSettled b) eqn:Es; [|exact Hok].
  destruct Hok as [Hag _]. split; [done|]. simpl.
  assert (Hlen : length (batchAgencies b) = length (sends b))
    by (by rewrite <- Hag, length_fmap).
  destruct (tally_counts now _ _ d Hlen) as [H1 H2]. done.
Qed.

Lemma resolveBatches_frame now bs d :
  let bs' := (resolveBatches now bs d).1 in
  batchAgencies <$> bs' = batchAgencies <$> bs
  /\ dispatchedAt <$> bs' = dispatchedAt <$> bs
  /\ length bs' = length bs.
Proof.
  revert d. induction bs as [|b bs IH]; intros d; [done|].
  destruct (resolveBatch_frame now b d) as (H1 & _ & H3).
  destruct (IH (resolveBatch now b d).2) as (I1 & I2 & I3).
  cbn [resolveBatches]. cbv zeta in *. cbn [fst].
  rewrite !fmap_cons, H1, H3, I1, I2. cbn [length]. by rewrite I3.
Qed.

Lemma resolveBatches_ok now bs d :
  Forall batchOk bs -> Forall batchOk (resolveBatches now bs d).1.
Proof.
  revert d. induction bs as [|b bs IH]; intros d H; simpl; [done|].
  apply Forall_cons in H as [Hb Hbs]. apply Forall_cons. split.
  - by apply resolveBatch_ok.
  - by apply IH.
Qed.

Lemma fmap_alter_same {A B} (g : A -> B) (f : A -> A) (l : list A) i :
  (forall x, l !! i = Some x -> g (f x) = g x) -> g <$> alter f i l = g <$> l.
Proof.
  revert i. induction l as [|a l IH]; intros [|i] H; try done.
  - cbn. f_equal. by apply H.
  - cbn. f_equal. apply IH. intros x Hx. by apply H.
Qed.

Lemma allSettled_lookup b i s :
  allSettled b = true -> sends b !! i = Some s -> settled (sendPromise s) = true.
Proof.
  unfold allSettled. intros H Hs. rewrite forallb_forall in H.
  apply H, list_elem_of_In. by eapply list_elem_of_lookup_2.
Qed.

Lemma allSettled_fmap b b' :
  sendPromise <$> sends b' = sendPromise <$> sends b -> allSettled b' = allSettled b.
Proof.
  unfold allSettled. generalize (sends b'). induction (sends b) as [|s l IH];
    intros [|s' l'] H; simpl in *; try done.
  injection H as H1 H2. rewrite H1. f_equal. by apply IH.
Qed.

Lemma fulfilledSends_fmap b b' :
  sendPromise <$> sends b' = sendPromise <$> sends b -> fulfilledSends b' = fulfilledSends b.
Proof.
  unfold fulfilledSends. intros H.
  by rewrite <- !(filter_fmap_length isFulfilled sendPromise), H.
Qed.

Lemma batchOk_alter_send f b i :
  batchOk b ->
  (forall s, sendAgency (f s) = sendAgency s) ->
  (forall s, settled (sendPromise s) = true -> sendPromise (f s) = sendPromise s) ->
  batchOk {| batchAgencies := batchAgencies b; sends := alter f i (sends b);
             batchPromise := batchPromise b; dispatchedAt := dispatchedAt b |}.
Proof.
  intros [Hag Hp] Hfa Hfs. split; simpl.
  - rewrite <- Hag. apply fmap_alter_same. intros; apply Hfa.
  - destruct (batchPromise b) as [|c|]; [done| |done].
    destruct Hp as (Hall & Hs & Hsum).
    set (b' := {| batchAgencies := batchAgencies b; sends := alter f i (sends b);
                  batchPromise := Fulfilled c; dispatchedAt := dispatchedAt b |}).
    assert (Hsame : sendPromise <$> sends b' = sendPromise <$> sends b).
    { simpl. apply fmap_alter_same. intros x Hx. apply Hfs. by eapply allSettled_lookup. }
    rewrite (allSettled_fmap _ _ Hsame), (fulfilledSends_fmap _ _ Hsame), length_alter.
    done.
Qed.

(** *** Jobs *)

Lemma spaced_snoc ts t :
  spaced ts -> (forall t0, last ts = Some t0 -> t0 + interBatchDelay <= t) ->
  spaced (ts ++ [t]).
Proof.
  intros Hs Hl k a b Ha Hb.
  apply lookup_snoc_Some in Hb as [[Hlt Hb]|[Hk <-]].
  - rewrite lookup_app_l in Ha by lia. by eapply Hs.
  - rewrite lookup_app_l in Ha by lia. apply Hl.
    rewrite last_lookup, <- Hk. done.
Qed.

Lemma ceilDiv_zero size : ceilDiv 0 size = 0%nat.
Proof.
  unfold ceilDiv. destruct size as [|n]; [done|].
  apply Nat.div_small. lia.
Qed.

Lemma loopTest_task j w : jobTask (loopTest j w).1 = jobTask j.
Proof. unfold loopTest, loopBody. by case_match. Qed.

Lemma loopTest_frame j w :
  let w' := (loopTest j w).2 in
  clock w' = clock w /\ store w' = store w /\ svc w' = svc w
  /\ monitorBuffer w' = monitorBuffer w /\ drains w' = drains w
  /\ pushed w' = pushed w /\ started w' = started w /\ completed w' = completed w.
Proof. unfold loopTest, loopBody. by case_match. Qed.

Lemma loopTest_ok size j w :
  maxBatchSize (svc w) = size -> (0 < size)%nat ->
  Forall batchOk (batchPromises j) ->
  sliced size (agencies (jobTask j)) (batchAgencies <$> batchPromises j) ->
  spaced (dispatchedAt <$> batchPromises j) ->
  loopIndex j = (length (batchPromises j) * size)%nat ->
  (forall t, last (dispatchedAt <$> batchPromises j) = Some t ->
             t + interBatchDelay <= clock w
             /\ (loopIndex j < length (agencies (jobTask j)))%nat) ->
  jobOk size (loopTest j w).1.
Proof.
  intros Hsize Hpos Hok Hsl Hsp Hidx Hlast. unfold loopTest.
  destruct (Nat.ltb_spec (loopIndex j) (length (agencies (jobTask j)))) as [Hlt|Hge].
  - unfold loopBody. rewrite Hsize. cbn [fst]. unfold jobOk. cbn [jobTask batchPromises jobWaits loopIndex].
    rewrite !fmap_app. cbn [fmap list_fmap].
    split; [|split; [|split]].
    + apply Forall_app. split; [done|]. apply Forall_singleton, processBatch_ok.
    + unfold processBatch at 1. cbn [batchAgencies fst]. rewrite Hidx.
      rewrite <- (length_fmap batchAgencies). by apply sliced_snoc.
    + apply spaced_snoc; [done|]. unfold processBatch. cbn [dispatchedAt fst].
      intros t0 Ht0. by apply Hlast.
    + rewrite length_app. cbn [length].
      replace (pred (length (batchPromises j) + 1)) with (length (batchPromises j)) by lia.
      destruct (Nat.ltb_spec (loopIndex j + size) (length (agencies (jobTask j)))) as [Hmore|Hend].
      * split; [|done]. exists (clock w). rewrite last_snoc. done.
      * apply ceilDiv_unique; [lia| |]; rewrite Nat.add_1_r; cbn [pred]; lia.
  - cbn [fst]. unfold jobOk. cbn [jobTask batchPromises jobWaits].
    split; [done|]. split; [done|]. split; [done|].
    destruct (last (dispatchedAt <$> batchPromises j)) as [t|] eqn:El.
    + exfalso. destruct (Hlast _ eq_refl). lia.
    + rewrite fmap_last in El. apply fmap_None, last_None in El.
      rewrite El in *. simpl in Hidx.
      assert (length (agencies (jobTask j)) = 0)%nat as -> by lia.
      by rewrite ceilDiv_zero.
Qed.

Lemma processSingleDistribution_ok size t w :
  maxBatchSize (svc w) = size -> (0 < size)%nat ->
  jobOk size (processSingleDistribution t w).1.
Proof.
  intros Hs Hp. unfold processSingleDistribution. by apply loopTest_ok.
Qed.

Lemma withBatches_ok size j bs :
  jobOk size j ->
  Forall batchOk bs ->
  batchAgencies <$> bs = batchAgencies <$> batchPromises j ->
  dispatchedAt <$> bs = dispatchedAt <$> batchPromises j ->
  jobOk size (withBatches bs j).
Proof.
  intros (Hok & Hsl & Hsp & Hw) Hbs Hag Hdi. unfold jobOk, withBatches.
  cbn [jobTask batchPromises jobWaits loopIndex]. rewrite Hag, Hdi.
  assert (Hlen : length bs = length (batchPromises j))
    by (by rewrite <- (length_fmap batchAgencies bs), Hag, length_fmap).
  rewrite Hlen. done.
Qed.

Lemma withSend_ok size j b s ok :
  jobOk size j -> jobOk size (withSend b s (settleEmail ok) j).
Proof.
  intros Hj. unfold withSend. apply withBatches_ok; [done| | |].
  - destruct Hj as [Hok _]. apply Forall_alter; [done|]. intros x _ Hx.
    apply batchOk_alter_send;
      [done | intros; apply settleEmail_agency | intros; by apply settleEmail_settled].
  - by apply fmap_alter_same.
  - by apply fmap_alter_same.
Qed.

Lemma resumeBatches_ok size j now d :
  jobOk size j -> jobOk size (withBatches (resolveBatches now (batchPromises j) d).1 j).
Proof.
  intros Hj. destruct (resolveBatches_frame now (batchPromises j) d) as (H1 & H2 & _).
  apply withBatches_ok; try done. apply resolveBatches_ok, Hj.
Qed.

(** *** Finished jobs *)

Lemma jobTally_fold size bs acc :
  Forall (fun b => batchOk b /\ isFulfilled (batchPromise b) = true) bs ->
  let r := foldl (fun acc b =>
             match batchPromise b with
             | Fulfilled v => {| success := success acc + success v;
                                 errors := errors acc + errors v |}
             | _ => {| success := success acc; errors := errors acc + size |}
             end) acc bs in
  success r = (success acc + sum_list (fulfilledSends <$> bs))%nat
  /\ (success r + errors r
      = success acc + errors acc + length (concat (batchAgencies <$> bs)))%nat.
Proof.
  intros H. revert acc. induction H as [|b bs [[Hag Hb] Hf] _ IH]; intros acc; simpl; [lia|].
  destruct (batchPromise b) as [|v|]; try done.
  destruct Hb as (_ & Hs & Hsum).
  destruct (IH {| success := success acc + success v; errors := errors acc + errors v |})
    as [H1 H2].
  cbv zeta in *. split; [rewrite H1 | rewrite H2]; simpl;
    rewrite ?length_app, <- ?Hag, ?length_fmap;
    change (list_fmap batch nat fulfilledSends bs) with (fulfilledSends <$> bs);
    change (list_fmap batch (list eligible) batchAgencies bs) with (batchAgencies <$> bs);
    lia.
Qed.

Lemma settled_fulfilled bs :
  Forall batchOk bs ->
  forallb (fun b => settled (batchPromise b)) bs = true ->
  Forall (fun b => batchOk b /\ isFulfilled (batchPromise b) = true) bs.
Proof.
  intros H Hs. rewrite forallb_forall in Hs. apply Forall_forall. intros b Hb.
  rewrite Forall_forall in H. split; [by apply H|].
  specialize (H b Hb). specialize (Hs b (proj1 (list_elem_of_In _ _) Hb)).
  destruct H as [_ H]. by destruct (batchPromise b).
Qed.

Lemma doneOk_of_job size j now :
  (0 < size)%nat -> jobOk size j -> jobWaits j = AwaitAllSettled ->
  forallb (fun b => settled (batchPromise b)) (batchPromises j) = true ->
  doneOk size {| doneTask := jobTask j; doneBatches := batchPromises j;
                 doneCounts := jobTally size (batchPromises j); doneAt := now |}.
Proof.
  intros Hpos (Hok & Hsl & Hsp & Hw) Hwait Hall. rewrite Hwait in Hw.
  pose proof (settled_fulfilled _ Hok Hall) as Hful.
  unfold doneOk. cbn [doneTask doneBatches doneCounts].
  repeat split; try done.
  - destruct (jobTally_fold size _ {| success := 0; errors := 0 |} Hful) as [_ H2].
    unfold jobTally. cbv zeta in H2. rewrite H2. simpl.
    rewrite (sliced_total size (agencies (jobTask j))); [done|done|done|].
    by rewrite length_fmap.
  - by destruct (jobTally_fold size _ {| success := 0; errors := 0 |} Hful) as [H1 _].
Qed.

Lemma Core_ext run w w' :
  Core run w ->
  maxBatchSize (svc w') = maxBatchSize (svc w) ->
  batchDelay (svc w') = batchDelay (svc w) ->
  distributionQueue (svc w') = distributionQueue (svc w) ->
  pushed w' = pushed w -> started w' = started w ->
  completed w' = completed w -> clock w <= clock w' -> Core run w'.
Proof.
  intros [] Hs Hd Hq Hp Hst Hc Hcl. split; rewrite ?Hs, ?Hd, ?Hq, ?Hp, ?Hst, ?Hc; try done.
  - eapply Forall_impl; [done|]. simpl. intros; lia.
  - eapply Forall_impl; [done|]. simpl. intros; lia.
Qed.

Lemma drainOk_ext od w w' :
  drainOk od w -> svc w' = svc w -> completed w' = completed w -> drainOk od w'.
Proof. intros H Hs Hc. unfold drainOk in *. rewrite Hs, Hc. done. Qed.

(** *** The loop of the queue *)

Lemma gapped_done cs ss c :
  gapped 1000 cs ss -> length ss = S (length cs) -> gapped 1000 (cs ++ [c]) ss.
Proof.
  intros H Hlen k c0 t s Hc Hs.
  apply lookup_snoc_Some in Hc as [[_ Hc]|[Hk _]]; [by eapply H|].
  apply lookup_lt_Some in Hs. lia.
Qed.

Lemma gapped_start cs ss t now :
  gapped 1000 cs ss -> length ss = length cs ->
  (forall c, last cs = Some c ->
             doneAt c <= now /\ (taskTimestamp t < doneAt c -> doneAt c + 1000 <= now)) ->
  gapped 1000 cs (ss ++ [(t, now)]).
Proof.
  intros H Hlen Hlast k c t0 s Hc Hs.
  apply lookup_snoc_Some in Hs as [[_ Hs]|[Hk [= <- <-]]]; [by eapply H|].
  apply Hlast. rewrite last_lookup. rewrite <- Hlen, <- Hk. done.
Qed.

Lemma seq_lengths (ss : list (task * Z)) (cs : list completion) run :
  ss.*1 = (doneTask <$> cs) ++ run -> length ss = (length cs + length run)%nat.
Proof.
  intros H. apply (f_equal length) in H.
  by rewrite length_app, !length_fmap in H.
Qed.

Lemma resumeJob_frame j w :
  let r := resumeJob j w in
  clock r.2 = clock w /\ monitorBuffer r.2 = monitorBuffer w /\ drains r.2 = drains w
  /\ outbox r.2 = outbox w /\ pushed r.2 = pushed w /\ started r.2 = started w
  /\ distributionQueue (svc r.2) = distributionQueue (svc w).
Proof.
  unfold resumeJob, afterTask, finishLoop. cbn.
  destruct (jobWaits j); [done|].
  destruct (forallb _ _); [|done]. cbn.
  destruct (distributionQueue (svc w)) eqn:E; cbn; rewrite ?E; done.
Qed.

Lemma resumeJob_inv j w :
  Core [jobTask j] w -> isProcessing (svc w) = true -> jobOk 100 j ->
  Inv (resumeJob j w).1 (resumeJob j w).2.
Proof.
  intros HC Hflag Hj.
  pose proof (resumeBatches_ok 100 j (clock w) (store w) Hj) as Hj'.
  unfold resumeJob.
  set (bs := (resolveBatches (clock w) (batchPromises j) (store w)).1) in *.
  set (d' := (resolveBatches (clock w) (batchPromises j) (store w)).2).
  assert (HC1 : Core [jobTask j] (setStore d' w))
    by (eapply Core_ext; [done|done..|simpl; lia]).
  cbn [jobWaits withBatches].
  destruct (jobWaits j) eqn:Ew.
  { split; [done|]. split; [done|]. done. }
  destruct (forallb (fun b => settled (batchPromise b)) bs) eqn:Eall.
  2:{ split; [done|]. split; [done|]. done. }
  set (c := {| doneTask := jobTask j; doneBatches := bs;
               doneCounts := jobTally (maxBatchSize (svc (setStore d' w))) bs;
               doneAt := clock (setStore d' w) |}).
  assert (Hc : doneOk 100 c).
  { unfold c. cbn [svc setStore]. rewrite (core_size _ _ HC).
    apply (doneOk_of_job 100 (withBatches bs j)); [lia|done| |done].
    unfold withBatches. simpl. done. }
  destruct HC as [Hsize Hdelay Hfifo Hseq Hdone Hqt Hdt Hgap].
  assert (HC2 : Core [] (noteCompleted c (setStore d' w))).
  { split; cbn; try done.
    - rewrite fmap_app, <- app_assoc. done.
    - apply Forall_app. split; [done|]. by apply Forall_singleton.
    - apply Forall_app. split; [done|]. apply Forall_singleton. simpl. lia.
    - apply gapped_done; [done|]. apply seq_lengths in Hseq. simpl in Hseq. lia. }
  unfold afterTask. cbn [svc noteCompleted setStore].
  destruct (distributionQueue (svc w)) as [|t q] eqn:Eq; cbn [fst snd].
  - split.
    + unfold finishLoop. eapply Core_ext; [exact HC2|..]; cbn; try done; lia.
    + cbn. done.
  - split; [exact HC2|]. cbn. rewrite Eq. repeat split; try done.
    exists c. rewrite last_snoc. split; [done|]. cbn. lia.
Qed.

Lemma processSingleDistribution_task t w : jobTask (processSingleDistribution t w).1 = t.
Proof. unfold processSingleDistribution. by rewrite loopTest_task. Qed.

Lemma processSingleDistribution_frame t w :
  let w' := (processSingleDistribution t w).2 in
  clock w' = clock w /\ store w' = store w /\ svc w' = svc w
  /\ monitorBuffer w' = monitorBuffer w /\ drains w' = drains w
  /\ pushed w' = pushed w /\ started w' = started w /\ completed w' = completed w.
Proof. apply loopTest_frame. Qed.

Lemma loopHead_frame w :
  let r := loopHead w in
  clock r.2 = clock w /\ monitorBuffer r.2 = monitorBuffer w /\ drains r.2 = drains w
  /\ pushed r.2 = pushed w.
Proof.
  unfold loopHead, shiftTask. destruct (distributionQueue (svc w)) as [|t q]; [done|].
  cbv zeta.
  destruct (resumeJob_frame (processSingleDistribution t
     (noteStarted t (setSvc (setQueue q (svc w)) w))).1
     (processSingleDistribution t (noteStarted t (setSvc (setQueue q (svc w)) w))).2)
    as (H1 & H2 & H3 & _ & H5 & _).
  destruct (processSingleDistribution_frame t
              (noteStarted t (setSvc (setQueue q (svc w)) w)))
    as (G1 & _ & _ & G4 & G5 & G6 & _).
  cbv zeta in *. rewrite H1, H2, H3, H5, G1, G4, G5, G6. done.
Qed.

Lemma loopHead_inv w :
  Core [] w -> isProcessing (svc w) = true ->
  (forall c t, last (completed w) = Some c -> head (distributionQueue (svc w)) = Some t ->
               taskTimestamp t < doneAt c -> doneAt c + 1000 <= clock w) ->
  Inv (loopHead w).1 (loopHead w).2.
Proof.
  intros HC Hflag Hdelay. unfold loopHead, shiftTask.
  destruct (distributionQueue (svc w)) as [|t q] eqn:Eq.
  - cbn [fst snd]. split.
    + unfold finishLoop. eapply Core_ext; [exact HC|..]; cbn; try done; lia.
    + cbn. done.
  - cbv zeta.
    set (w1 := noteStarted t (setSvc (setQueue q (svc w)) w)).
    destruct HC as [Hsize Hdel Hfifo Hseq Hdone Hqt Hdt Hgap].
    rewrite Eq in *. rewrite app_nil_r in Hseq.
    assert (HC1 : Core [t] w1).
    { split; cbn; try done.
      - rewrite fmap_app, <- app_assoc. done.
      - rewrite fmap_app, Hseq. done.
      - by apply Forall_cons in Hqt as [_ ?].
      - apply gapped_start; [done| |].
        + apply (f_equal length) in Hseq. by rewrite !length_fmap in Hseq.
        + intros c Hc. split.
          * rewrite Forall_forall in Hdt. apply Hdt. by apply last_Some_elem_of.
          * by apply Hdelay. }
    destruct (processSingleDistribution_frame t w1)
      as (G1 & _ & G3 & _ & _ & G6 & G7 & G8).
    cbv zeta in *.
    apply resumeJob_inv.
    + rewrite processSingleDistribution_task.
      eapply Core_ext; [exact HC1|..]; try (by rewrite ?G3); try done; lia.
    + by rewrite G3.
    + apply processSingleDistribution_ok; [done|lia].
Qed.

(** *** Events preserve the invariant *)

Lemma resumeJob_drains j w : drains (resumeJob j w).2 = drains w.
Proof. apply resumeJob_frame. Qed.

Lemma loopHead_drains w : drains (loopHead w).2 = drains w.
Proof. apply loopHead_frame. Qed.

Lemma loopTest_drains j w : drains (loopTest j w).2 = drains w.
Proof. apply loopTest_frame. Qed.

Lemma loopTest_svc j w : svc (loopTest j w).2 = svc w.
Proof. apply loopTest_frame. Qed.

Lemma loopTest_clock j w : clock (loopTest j w).2 = clock w.
Proof. apply loopTest_frame. Qed.

Lemma loopTest_pushed j w : pushed (loopTest j w).2 = pushed w.
Proof. apply loopTest_frame. Qed.

Lemma loopTest_started j w : started (loopTest j w).2 = started w.
Proof. apply loopTest_frame. Qed.

Lemma loopTest_completed j w : completed (loopTest j w).2 = completed w.
Proof. apply loopTest_frame. Qed.

Create Rewrite HintDb frame.
#[local] Hint Rewrite loopTest_drains loopTest_svc loopTest_clock loopTest_pushed
  loopTest_started loopTest_completed loopTest_task : frame.

Lemma invariant_boot t0 d : invariant (boot t0 d).
Proof.
  exists None. split; [done|]. split; [|done].
  split; cbn; done.
Qed.

Lemma Inv_setDrains od ds w : Inv od w -> Inv od (setDrains ds w).
Proof.
  intros [HC HD]. split.
  - eapply Core_ext; [exact HC|..]; cbn; try done; lia.
  - eapply drainOk_ext; [exact HD|..]; done.
Qed.

Lemma invariant_putDrain od r w :
  drains w = option_list od -> is_Some od -> drains r.2 = drains w -> Inv r.1 r.2 ->
  invariant (putDrain 0 r).
Proof.
  intros Hd [x ->] Hr HI. exists r.1. unfold putDrain. rewrite Hr, Hd.
  destruct r.1 as [y|] eqn:E; (split; [done|]); by apply Inv_setDrains.
Qed.

Lemma drains_lookup od (ds : list drain) d x :
  ds = option_list od -> ds !! d = Some x -> od = Some x /\ d = 0%nat.
Proof.
  intros -> H. destruct od as [y|]; [|done].
  destruct d as [|d]; [|done]. by injection H as ->.
Qed.

Lemma invariant_distribute c w : invariant w -> invariant (distributeCVToAgencies c w).2.
Proof.
  intros Hw. unfold distributeCVToAgencies.
  destruct c as [cand|]; [|done].
  destruct (positions cand) as [[|p ps]|]; try done.
  destruct (length _ =? 0)%nat; [done|]. cbn [snd].
  set (t := {| taskCandidate := cand;
               agencies := getEligibleAgencies (extractRegionFromCandidate cand) (clock w) (store w);
               taskTimestamp := clock w; taskId := (candidateId cand, clock w) |}).
  destruct Hw as (od & Hd & [HC HD]).
  destruct HC as [Hsize Hdel Hfifo Hseq Hdone Hqt Hdt Hgap].
  assert (HC1 : Core (running od) (pushTask t w)).
  { split; cbn; try done.
    - rewrite Hfifo, app_assoc. done.
    - apply Forall_app. split; [done|]. apply Forall_singleton. simpl. lia. }
  destruct (isProcessing (svc (pushTask t w))) eqn:Eflag; cbn [negb].
  - exists od. split; [done|]. split; [done|].
    cbn in Eflag. destruct od as [[j|due]|]; cbn in *.
    + done.
    + destruct HD as (? & Hq & ?). split; [done|]. split; [|done].
      intros Happ. by apply app_eq_nil in Happ as [_ ?].
    + destruct HD. congruence.
  - cbn in Eflag. assert (od = None) as ->.
    { destruct od as [[j|due]|]; cbn in HD; [destruct HD; congruence..|done]. }
    destruct HD as [_ Hq]. unfold processDistributionQueue. cbn [svc pushTask notePushed setSvc].
    cbn [isProcessing setQueue]. rewrite Eflag, Hq. cbn [orb app].
    rewrite bool_decide_eq_false_2 by done.
    set (w1 := setSvc (setProcessing true _) _).
    destruct (loopHead_frame w1) as (_ & _ & Hdr & _). cbv zeta in Hdr.
    exists (loopHead w1).1. split.
    + cbn [drains setDrains]. rewrite Hdr. cbn. by rewrite Hd.
    + apply Inv_setDrains. apply loopHead_inv.
      * eapply Core_ext; [exact HC1|..]; unfold w1; cbn; rewrite ?Hq; try done; lia.
      * done.
      * unfold w1. cbn. intros c0 t0 Hc0 [= <-]. cbn.
        rewrite Forall_forall in Hdt. specialize (Hdt c0 (last_Some_elem_of _ _ Hc0)). lia.
Qed.

Lemma invariant_onEmail d b s ok w : invariant w -> invariant (onEmail d b s ok w).
Proof.
  intros Hw. unfold onEmail.
  destruct (drains w !! d) as [[j|due]|] eqn:El; try done.
  destruct Hw as (od & Hd & [HC HD]).
  destruct (drains_lookup _ _ _ _ Hd El) as [-> ->]. cbn in HC, HD. destruct HD as [Hflag Hj].
  eapply invariant_putDrain; [done|done| |].
  - apply resumeJob_drains.
  - apply resumeJob_inv; [done|done|]. by apply withSend_ok.
Qed.

Lemma invariant_onTimer d w : invariant w -> invariant (onTimer d w).
Proof.
  intros Hw. unfold onTimer.
  destruct (drains w !! d) as [[j|due]|] eqn:El; try done.
  - destruct (jobWaits j) as [due|] eqn:Ew; [|done].
    destruct (Z.leb_spec due (clock w)) as [Hdue|]; [|done].
    destruct Hw as (od & Hd & [HC HD]).
    destruct (drains_lookup _ _ _ _ Hd El) as [-> ->]. cbn in HC, HD.
    destruct HD as [Hflag Hj].
    eapply invariant_putDrain; [done|done| |].
    + by rewrite resumeJob_drains, loopTest_drains.
    + apply resumeJob_inv.
      * autorewrite with frame.
        eapply Core_ext; [exact HC|..]; autorewrite with frame; try done; lia.
      * by autorewrite with frame.
      * destruct Hj as (Hok & Hsl & Hsp & Hwait). rewrite Ew in Hwait.
        destruct Hwait as ((t & Ht & ->) & Hi & Hmore).
        pose proof (core_size _ _ HC) as Hsize.
        assert (Hlen : (0 < length (batchPromises j))%nat).
        { destruct (batchPromises j); [done|simpl; lia]. }
        apply loopTest_ok; try done; try lia.
        -- cbn. rewrite Hi, Hsize. lia.
        -- cbn. intros t0 Ht0. rewrite Ht in Ht0. injection Ht0 as <-.
           rewrite Hsize. split; lia.
  - destruct (Z.leb_spec due (clock w)) as [Hdue|]; [|done].
    destruct Hw as (od & Hd & [HC HD]).
    destruct (drains_lookup _ _ _ _ Hd El) as [-> ->]. cbn in HC, HD.
    destruct HD as (Hflag & Hq & c & Hc & ->).
    eapply invariant_putDrain; [done|done| |].
    + apply loopHead_drains.
    + apply loopHead_inv; [done|done|].
      intros c0 t0 Hc0 _ _. rewrite Hc in Hc0. injection Hc0 as <-. lia.
Qed.

Lemma invariant_step e w : invariant w -> invariant (step e w).
Proof.
  intros Hw. destruct e as [c|d b s ok|d|ms|k cand ag ok err pt]; cbn [step].
  - by apply invariant_distribute.
  - by apply invariant_onEmail.
  - by apply invariant_onTimer.
  - destruct (Z.leb_spec 0 ms); [|done].
    destruct Hw as (od & Hd & [HC HD]). exists od. split; [done|]. split.
    + eapply Core_ext; [exact HC|..]; cbn; try done; lia.
    + eapply drainOk_ext; [exact HD|..]; done.
  - destruct Hw as (od & Hd & [HC HD]). exists od. split; [done|]. split.
    + eapply Core_ext; [exact HC|..]; cbn; try done; lia.
    + eapply drainOk_ext; [exact HD|..]; done.
Qed.

Lemma invariant_run es w : invariant w -> invariant (run es w).
Proof.
  revert w. induction es as [|e es IH]; intros w Hw; [done|].
  apply IH, invariant_step, Hw.
Qed.

(** *** The service leaves the monitor alone *)
Lemma putDrain_monitor d r : monitorBuffer (putDrain d r) = monitorBuffer r.2.
Proof. unfold putDrain. by destruct r.1. Qed.

Lemma resumeJob_monitor j w : monitorBuffer (resumeJob j w).2 = monitorBuffer w.
Proof. apply resumeJob_frame. Qed.

Lemma loopHead_monitor w : monitorBuffer (loopHead w).2 = monitorBuffer w.
Proof. apply loopHead_frame. Qed.

Lemma loopTest_monitor j w : monitorBuffer (loopTest j w).2 = monitorBuffer w.
Proof. apply loopTest_frame. Qed.

Lemma distribute_monitor c w :
  monitorBuffer (distributeCVToAgencies c w).2 = monitorBuffer w.
Proof.
  unfold distributeCVToAgencies. destruct c as [cand|]; [|done].
  destruct (positions cand) as [[|p ps]|]; try done.
  destruct (length _ =? 0)%nat; [done|]. cbn [snd].
  match goal with |- context [pushTask ?x w] => generalize x end; intros t.
  destruct (negb _); [|done]. unfold processDistributionQueue.
  destruct (_ || _); [done|]. cbn [monitorBuffer setDrains].
  by rewrite loopHead_monitor.
Qed.

Lemma step_monitor e w :
  serviceEvent e -> monitorBuffer (step e w) = monitorBuffer w.
Proof.
  destruct e as [c|d b s ok|d|ms|k cand ag ok err pt]; cbn [step serviceEvent]; intros He.
  - apply distribute_monitor.
  - unfold onEmail. destruct (drains w !! d) as [[j|due]|]; try done.
    by rewrite putDrain_monitor, resumeJob_monitor.
  - unfold onTimer. destruct (drains w !! d) as [[j|due]|]; try done.
    + destruct (jobWaits j); [|done]. destruct (_ <=? _); [|done].
      by rewrite putDrain_monitor, resumeJob_monitor, loopTest_monitor.
    + destruct (_ <=? _); [|done]. by rewrite putDrain_monitor, loopHead_monitor.
  - by destruct (0 <=? ms).
  - done.
Qed.

(** *** The resolution leaves the store alone *)

Lemma tally_unfulfilled now l acc :
  Forall (fun ar : eligible * promise bool => isFulfilled ar.2 = false) l ->
  (foldl (tallyStep now) acc l).2 = acc.2.
Proof.
  intros H. revert acc. induction H as [|[a p] l Hp _ IH]; intros acc; [done|].
  cbn [foldl]. rewrite IH. unfold tallyStep. cbn in *. by destruct p.
Qed.

Lemma resolveBatch_unfulfilled now b d :
  unfulfilled b -> (resolveBatch now b d).2 = d.
Proof.
  intros H. unfold resolveBatch. destruct (batchPromise b); try done.
  destruct (allSettled b); [|done]. cbn [snd]. unfold tally. rewrite tally_unfulfilled; [done|].
  unfold unfulfilled in H. apply Forall_forall. intros [a p] Hin.
  apply elem_of_zip_r in Hin. cbn in *.
  apply list_elem_of_fmap in Hin as (s & -> & Hs).
  rewrite Forall_forall in H. by apply H.
Qed.

Lemma resolveBatches_unfulfilled now bs d :
  Forall unfulfilled bs -> (resolveBatches now bs d).2 = d.
Proof.
  intros H. revert d. induction H as [|b bs Hb _ IH]; intros d; [done|].
  cbn [resolveBatches]. cbv zeta. cbn [snd]. by rewrite IH, resolveBatch_unfulfilled.
Qed.

Lemma processBatch_unfulfilled now c ags : unfulfilled (processBatch now c ags).1.
Proof.
  unfold unfulfilled, processBatch. cbn. apply Forall_forall. intros s Hs.
  apply list_elem_of_fmap in Hs as ([s' ms] & -> & Hs).
  apply list_elem_of_fmap in Hs as (a & Ha & _). cbn.
  pose proof (sendCVToAgency_not_fulfilled c a) as H. by rewrite <- Ha in H.
Qed.

Lemma processSingleDistribution_unfulfilled t w :
  Forall unfulfilled (batchPromises (processSingleDistribution t w).1).
Proof.
  unfold processSingleDistribution, loopTest, loopBody. case_match; [|done].
  cbn. apply Forall_singleton, processBatch_unfulfilled.
Qed.

Lemma resumeJob_store j w :
  Forall unfulfilled (batchPromises j) -> store (resumeJob j w).2 = store w.
Proof.
  intros H. unfold resumeJob. rewrite resolveBatches_unfulfilled by done.
  cbn [jobWaits withBatches]. destruct (jobWaits j); [done|].
  destruct (forallb _ _); [|done]. unfold afterTask. cbn [svc noteCompleted setStore].
  by destruct (distributionQueue (svc w)).
Qed.

Lemma loopHead_store w : store (loopHead w).2 = store w.
Proof.
  unfold loopHead, shiftTask. destruct (distributionQueue (svc w)) as [|t q]; [done|].
  cbv zeta. rewrite resumeJob_store by apply processSingleDistribution_unfulfilled.
  by destruct (processSingleDistribution_frame t (noteStarted t (setSvc (setQueue q (svc w)) w)))
    as (_ & -> & _).
Qed.

Lemma distribute_store c w : store (distributeCVToAgencies c w).2 = store w.
Proof.
  unfold distributeCVToAgencies. destruct c as [cand|]; [|done].
  destruct (positions cand) as [[|p ps]|]; try done.
  destruct (length _ =? 0)%nat; [done|]. cbn [snd].
  match goal with |- context [pushTask ?x w] => generalize x end; intros t.
  destruct (negb _); [|done]. unfold processDistributionQueue.
  destruct (_ || _); [done|]. cbn [store setDrains].
  by rewrite loopHead_store.
Qed.

Lemma tally_fold_untouched id now ags results acc :
  (forall k a p, ags !! k = Some a -> results !! k = Some p ->
                 isFulfilled p = true -> _id (agency a) <> id) ->
  findById id (foldl (tallyStep now) acc (zip ags results)).2 = findById id acc.2.
Proof.
  revert results acc. induction ags as [|a ags IH]; intros [|p results] acc H; try done.
  cbn [zip zip_with foldl]. rewrite IH.
  - unfold tallyStep. cbn. destruct p as [|v|] eqn:Ep; try done. cbn.
    apply findById_update_other. intros Heq. by apply (H 0%nat a (Fulfilled v)).
  - intros k a' p' Ha Hp. by apply (H (S k)).
Qed.

Lemma tally_fold_quota id now ags results acc j B v :
  NoDup (agencyIds ags) ->
  ags !! j = Some B -> results !! j = Some (Fulfilled v) -> _id (agency B) = id ->
  findById id (foldl (tallyStep now) acc (zip ags results)).2
  = quotaUpdate id now <$> findById id acc.2.
Proof.
  revert results acc j. induction ags as [|a ags IH]; intros [|p results] acc j Hnd HB Hr Hid;
    try done.
  apply NoDup_cons in Hnd as [Ha Hnd]. cbn [zip zip_with foldl].
  destruct j as [|j]; cbn in HB, Hr.
  - injection HB as ->. injection Hr as ->.
    rewrite tally_fold_untouched.
    + unfold tallyStep. cbn. rewrite Hid. apply findById_update.
    + intros k a' p' Ha' _ _ Heq. apply Ha. rewrite Hid, <- Heq.
      apply list_elem_of_fmap. exists a'. split; [done|]. by eapply list_elem_of_lookup_2.
  - rewrite (IH _ _ j) by done. f_equal.
    unfold tallyStep. cbn. destruct p; try done. cbn.
    apply findById_update_other. intros Heq. apply Ha. rewrite <- Heq, <- Hid.
    apply list_elem_of_fmap. exists B. split; [done|]. by eapply list_elem_of_lookup_2.
Qed.

Lemma tally_quota now ags results d i j A B v :
  NoDup (agencyIds ags) ->
  ags !! i = Some A -> results !! i = Some Rejected ->
  ags !! j = Some B -> results !! j = Some (Fulfilled v) ->
  let d' := (tally now ags results d).2 in
  findById (_id (agency B)) d' = quotaUpdate (_id (agency B)) now <$> findById (_id (agency B)) d
  /\ findById (_id (agency A)) d' = findById (_id (agency A)) d.
Proof.
  intros Hnd HA HrA HB HrB d'. split.
  - unfold d', tally. by rewrite (tally_fold_quota _ _ _ _ _ j B v).
  - unfold d', tally. rewrite tally_fold_untouched; [done|].
    intros k a p Ha Hp Hful Heq.
    assert (k = i) as ->.
    { eapply NoDup_lookup; [exact Hnd| |]; unfold agencyIds; rewrite list_lookup_fmap.
      - by rewrite Ha.
      - rewrite HA. cbn. by rewrite Heq. }
    rewrite HrA in Hp. by injection Hp as <-.
Qed.

Lemma withSend_other b s f j b' s' :
  (b', s') <> (b, s) ->
  (batchPromises (withSend b s f j) !! b') ≫= (fun bt => sends bt !! s')
  = (batchPromises j !! b') ≫= (fun bt => sends bt !! s').
Proof.
  intros Hne. unfold withSend, withBatches. cbn [batchPromises].
  destruct (decide (b' = b)) as [->|Hb].
  - rewrite list_lookup_alter_eq. destruct (batchPromises j !! b) as [bt|]; [|done]. cbn.
    apply list_lookup_alter_ne. congruence.
  - by rewrite list_lookup_alter_ne.
Qed.



End ServiceFacts.

(** * The claims *)

(** ** Quota and eligibility *)

Lemma quotaUpdate_count id now c :
  distributionSettings (quotaUpdate id now c) ≫= dailyCount
  = Some (if staleFilter id (now - oneDay) c then 2
          else default 0 (distributionSettings c ≫= dailyCount) + 1).
Proof. unfold quotaUpdate. by destruct (staleFilter _ _ _). Qed.

Lemma quotaUpdate_reset id now c :
  distributionSettings (quotaUpdate id now c) ≫= lastCountReset
  = if staleFilter id (now - oneDay) c then Some now
    else distributionSettings c ≫= lastCountReset.
Proof. unfold quotaUpdate. by destruct (staleFilter _ _ _). Qed.

(** C1. What [updateDailyCount] leaves in the document of an agency. With
    a [lastCountReset] older than 24 hours the conditional update sets the
    count to 1 and the timestamp to now, and the increment that follows
    is unconditional: the count ends at 2, not at 1. With a fresh
    [lastCountReset], or none, the count grows by exactly 1 and the
    timestamp is kept. *)
Theorem updateDailyCount_counts id now d c :
  findById id d = Some c ->
  exists c',
    findById id (updateDailyCount id now d) = Some c'
    /\ match distributionSettings c ≫= lastCountReset with
       | Some r =>
           if r <? now - oneDay
           then distributionSettings c' ≫= dailyCount = Some 2
                /\ distributionSettings c' ≫= lastCountReset = Some now
           else distributionSettings c' ≫= dailyCount
                = Some (default 0 (distributionSettings c ≫= dailyCount) + 1)
                /\ distributionSettings c' ≫= lastCountReset = Some r
       | None =>
           distributionSettings c' ≫= dailyCount
           = Some (default 0 (distributionSettings c ≫= dailyCount) + 1)
           /\ distributionSettings c' ≫= lastCountReset = None
       end.
Proof.
  intros Hc. exists (quotaUpdate id now c). split.
  - by rewrite findById_update, Hc.
  - rewrite quotaUpdate_count, quotaUpdate_reset. unfold staleFilter.
    apply find_some_holds in Hc. rewrite Hc. cbn [andb].
    destruct (distributionSettings c ≫= lastCountReset) as [r|] eqn:Er; [|done].
    by destruct (r <? now - oneDay).
Qed.

Lemma updateDailyCount_counts_witness :
  exists c',
    findById 0%N (updateDailyCount 0%N Samples.now Samples.staleDb) = Some c'
    /\ distributionSettings c' ≫= dailyCount = Some 2
    /\ distributionSettings c' ≫= lastCountReset = Some Samples.now.
Proof.
  exact (updateDailyCount_counts 0%N Samples.now Samples.staleDb
           (Samples.agencyDoc 0 50 (Samples.now - 25 * 60 * 60 * 1000)) eq_refl).
Defined.

(** C5. Eligibility applies the reset of the counter on the read side.
    For an agency that the query returns and that has an active
    subscription, with a cap that is unset or not zero: the effective
    count is 0 when [lastCountReset] (the epoch when unset) is older than
    24 hours and the stored [dailyCount] otherwise; the agency is left out
    exactly when the effective count is at least [maxCVsPerDay] (50 when
    unset), and is returned with its effective count otherwise. A call of
    [distributeCVToAgencies], which performs the resolution, writes
    nothing to the store. *)
Theorem eligibility_applies_virtual_reset region now d a :
  a ∈ companies d -> agencyQuery region a = true -> activeSubscription now d a ->
  distributionSettings a ≫= maxCVsPerDay <> Some 0 ->
  let effective :=
    if bool_decide (date_or (distributionSettings a ≫= lastCountReset) 0 < now - oneDay)
    then 0 else default 0 (distributionSettings a ≫= dailyCount) in
  let maxPerDay := default 50 (distributionSettings a ≫= maxCVsPerDay) in
  ((forall e, e ∈ getEligibleAgencies region now d -> agency e <> a)
   <-> maxPerDay <= effective)
  /\ (effective < maxPerDay ->
      {| agency := a; currentDailyCount := effective |}
        ∈ getEligibleAgencies region now d)
  /\ (forall c w, Service.store (Service.distributeCVToAgencies c w).2 = Service.store w).
Proof.
  intros Hin Hq Hs Hmax effective maxPerDay.
  assert (Heff : effectiveCount (now - oneDay) a = effective).
  { unfold effectiveCount, effective, lastResetOf, dailyCountOf. rewrite num_or_zero.
    destruct (Z.ltb_spec (date_or (distributionSettings a ≫= lastCountReset) 0) (now - oneDay)).
    - by rewrite bool_decide_eq_true_2.
    - rewrite bool_decide_eq_false_2; [done|lia]. }
  assert (Hcap : maxDailyOf a = maxPerDay) by (by apply num_or_nonzero).
  assert (Hyes : effective < maxPerDay ->
      {| agency := a; currentDailyCount := effective |} ∈ getEligibleAgencies region now d).
  { intros Hlt. apply getEligibleAgencies_spec. simpl. rewrite Heff, Hcap. tauto. }
  split; [|split; [done|apply ServiceFacts.distribute_store]]. split.
  - intros Hnone. destruct (Z.le_gt_cases maxPerDay effective) as [|Hlt]; [done|].
    exfalso. by apply (Hnone _ (Hyes Hlt)).
  - intros Hle e He Hea. apply getEligibleAgencies_spec in He.
    rewrite Hea, Heff, Hcap in He. lia.
Qed.

Lemma sample_subscription i count reset :
  activeSubscription Samples.now
    {| companies := [Samples.agencyDoc i count reset];
       subscriptions := [Samples.subscriptionOf i] |}
    (Samples.agencyDoc i count reset).
Proof.
  exists (Samples.subscriptionOf i), (Samples.now + 1000000).
  split; [apply list_elem_of_here|]. by repeat split.
Qed.

(** At its cap with a reset one hour old the agency is left out; with a
    reset 25 hours old it is returned with an effective count of 0. *)
Lemma eligibility_applies_virtual_reset_witness :
  (forall e, e ∈ getEligibleAgencies "south" Samples.now Samples.freshDb ->
             agency e <> Samples.agencyDoc 0 50 (Samples.now - 60 * 60 * 1000))
  /\ {| agency := Samples.agencyDoc 0 50 (Samples.now - 25 * 60 * 60 * 1000);
        currentDailyCount := 0 |}
       ∈ getEligibleAgencies "south" Samples.now Samples.staleDb.
Proof.
  split.
  - apply (eligibility_applies_virtual_reset "south" Samples.now Samples.freshDb
             (Samples.agencyDoc 0 50 (Samples.now - 60 * 60 * 1000))).
    + apply list_elem_of_here.
    + reflexivity.
    + apply sample_subscription.
    + discriminate.
    + vm_compute. discriminate.
  - apply (eligibility_applies_virtual_reset "south" Samples.now Samples.staleDb
             (Samples.agencyDoc 0 50 (Samples.now - 25 * 60 * 60 * 1000))).
    + apply list_elem_of_here.
    + reflexivity.
    + apply sample_subscription.
    + discriminate.
    + vm_compute. reflexivity.
Defined.

(** ** The monitor *)

Module MonitorClaims.
Import Monitor MonitorFacts.

(** C7. The buffer of the monitor, filled by calls of
    [logDistributionAttempt] from the empty map of the constructor, never
    holds more than 1000 entries after a call; a call stores its entry and,
    when that makes 1001, drops the first 100 entries in insertion order;
    and after 1001 calls that drew distinct keys what is left is the calls
    without the 100 oldest, so the oldest entry is gone. *)
Theorem buffer_is_bounded_fifo :
  (forall cs, (length (replay cs []) <= capacity)%nat)
  /\ (forall cs c,
        let m1 := mapSet (callKey c) (entryOf c) (replay cs []) in
        replay (cs ++ [c]) []
        = (if (capacity <? length m1)%nat then drop trim m1 else m1))
  /\ (forall c cs,
        NoDup (callKey <$> c :: cs) -> length (c :: cs) = S capacity ->
        replay (c :: cs) [] = drop trim (stored <$> c :: cs)
        /\ (callKey c ∉ fst <$> replay (c :: cs) [])
        /\ (stored c ∉ replay (c :: cs) [])).
Proof.
  split_and!.
  - intros cs. apply replay_invariant.
  - intros cs c m1. rewrite replay_snoc. apply record_spec, replay_invariant.
  - intros c cs Hn Hl. pose proof (oldest_evicted c cs Hn Hl) as Hk.
    split_and!; [by apply replay_overflow | done |].
    intros Hin. apply Hk. apply list_elem_of_fmap. by exists (stored c).
Qed.

Lemma sample_keys_distinct n : NoDup (callKey <$> (Samples.monitorCall <$> seq 0 n)).
Proof.
  rewrite <- list_fmap_compose. apply NoDup_fmap_2_strong; [|apply NoDup_seq].
  intros i j _ _ Hij. cbn in Hij. injection Hij as Hij. lia.
Qed.

Lemma buffer_is_bounded_fifo_witness :
  callKey (Samples.monitorCall 0)
    ∉ fst <$> replay (Samples.monitorCall 0 :: (Samples.monitorCall <$> seq 1 1000)) [].
Proof.
  assert (Hlen : length (Samples.monitorCall 0 :: (Samples.monitorCall <$> seq 1 1000))
                 = S capacity).
  { cbn [length]. rewrite length_fmap, length_seq. reflexivity. }
  exact (proj1 (proj2 (proj2 (proj2 buffer_is_bounded_fifo) _ _
                         (sample_keys_distinct 1001) Hlen))).
Defined.



(** C10. Over a non-empty window a failure rate above 0.10 always gives
    the status critical, never only warning: the failures are the attempts
    that did not succeed, so the success rate is then below 0.90, and that
    test is the last to assign the status. The same holds of the test as
    the source computes it on doubles, for every buffer that calls of
    [logDistributionAttempt] have filled. *)
Theorem high_failure_is_critical now m :
  recentLogs now m <> [] ->
  ((1 # 10 < failureRate (recentLogs now m))%Q ->
   healthStatus (getHealthStatus now m) = critical)
  /\ (forall cs, m = replay cs [] ->
      highFailureDouble (recentLogs now m) = true ->
      healthStatus (getHealthStatus now m) = critical).
Proof.
  intros Hne.
  assert (Hq : (1 # 10 < failureRate (recentLogs now m))%Q ->
               healthStatus (getHealthStatus now m) = critical).
  { intros Hhigh. rewrite (getHealthStatus_nonempty _ _ Hne). cbv zeta.
    rewrite classify_spec. cbn [fst healthStatus].
    set (logs := recentLogs now m) in *.
    assert (Hn : (0 < length logs)%nat) by (destruct logs; [done | simpl; lia]).
    assert (Hok : (successfulCount logs <= length logs)%nat) by apply length_bfilter_le.
    pose proof (low_success_of_high_failure _ _ Hn Hok Hhigh) as Hlow.
    apply Qgt_bool_spec in Hlow.
    change (minSuccessRate alertThresholds) with (9 # 10)%Q.
    fold (successRate logs) in Hlow. by rewrite Hlow. }
  split; [done|]. intros cs -> Hd. apply Hq.
  destruct (window_doubles_agree now cs Hne) as [Hh _].
  rewrite Hd in Hh. symmetry in Hh. by apply Qgt_bool_spec in Hh.
Qed.

Lemma high_failure_is_critical_witness :
  healthStatus (getHealthStatus Samples.now Samples.elevenPercent) = critical.
Proof.
  assert (Hne : recentLogs Samples.now Samples.elevenPercent <> [])
    by (vm_compute; discriminate).
  apply (proj1 (high_failure_is_critical Samples.now Samples.elevenPercent Hne)).
  vm_compute. reflexivity.
Defined.

End MonitorClaims.

(** ** The service *)

Module ServiceClaims.
Import Service Invariants ServiceFacts.

(** C2, as stated, fails: a job of one agency whose send is delivered
    issues one send and leaves the buffer of the monitor empty. *)
Lemma delivered_send_is_not_recorded :
  let w := run Samples.deliveredRun (boot Samples.now (Samples.agenciesDb 1)) in
  attempts w = 1%nat
  /\ length (monitorBuffer w) = 0%nat
  /\ attempts w <> length (monitorBuffer w).
Proof. vm_compute. split_and!; [reflexivity | reflexivity | discriminate]. Qed.

(** C2, amended. The service never calls [logDistributionAttempt]: over
    any sequence of calls of [distributeCVToAgencies], settlements of
    sends, timers and passing of time, whatever the sends do, the buffer
    of the monitor stays as it was. Only a direct call of
    [logDistributionAttempt] adds an entry. *)
Theorem dispatch_never_records es w :
  Forall serviceEvent es -> monitorBuffer (run es w) = monitorBuffer w.
Proof.
  intros H. revert w. induction H as [|e es He _ IH]; intros w; [done|].
  cbn. unfold run in IH. by rewrite IH, step_monitor.
Qed.

Lemma dispatch_never_records_witness :
  monitorBuffer (run Samples.mixedRun (boot Samples.now (Samples.agenciesDb 2))) = [].
Proof.
  assert (H : Forall serviceEvent Samples.mixedRun) by (repeat constructor).
  exact (dispatch_never_records Samples.mixedRun
           (boot Samples.now (Samples.agenciesDb 2)) H).
Defined.




(** C6. For a candidate with positions, when the resolution yields no
    agency [distributeCVToAgencies] returns success with a count of 0 and
    leaves the process as it was: nothing is queued, no mail is sent,
    nothing is thrown. When it yields agencies the call returns success
    with their number, having pushed one task that holds them; when the
    loop is already running the task waits in the queue and no mail has
    been sent by the time the call returns. *)
Theorem distribute_returns_resolved_count cand p ps w :
  positions cand = Some (p :: ps) ->
  let eligibleAgencies :=
    getEligibleAgencies (extractRegionFromCandidate cand) (clock w) (store w) in
  let r := distributeCVToAgencies (Some cand) w in
  (eligibleAgencies = [] ->
   r = (Returned {| resultSuccess := true; distributed := 0 |}, w))
  /\ (eligibleAgencies <> [] ->
      exists t,
        r.1 = Returned {| resultSuccess := true;
                          distributed := length eligibleAgencies |}
        /\ taskCandidate t = cand /\ agencies t = eligibleAgencies
        /\ pushed r.2 = pushed w ++ [t]
        /\ (isProcessing (svc w) = true ->
            distributionQueue (svc r.2) = distributionQueue (svc w) ++ [t]
            /\ outbox r.2 = outbox w /\ drains r.2 = drains w)).
Proof.
  intros Hpos eligibleAgencies r. unfold r, distributeCVToAgencies. rewrite Hpos.
  fold eligibleAgencies. split.
  - intros ->. done.
  - intros Hne. destruct eligibleAgencies as [|a l] eqn:He; [done|].
    cbn [length Nat.eqb].
    exists {| taskCandidate := cand; agencies := a :: l; taskTimestamp := clock w;
              taskId := (candidateId cand, clock w) |}.
    split; [reflexivity|]. split; [reflexivity|].
    split; [reflexivity|]. cbn [snd]. split.
    + destruct (negb _); [|done]. unfold processDistributionQueue.
      destruct (_ || _); [done|]. cbn [pushed setDrains].
      by destruct (loopHead_frame (setSvc (setProcessing true
           (svc (pushTask {| taskCandidate := cand; agencies := a :: l;
                             taskTimestamp := clock w;
                             taskId := (candidateId cand, clock w) |} w)))
           (pushTask {| taskCandidate := cand; agencies := a :: l;
                        taskTimestamp := clock w;
                        taskId := (candidateId cand, clock w) |} w)))
        as (_ & _ & _ & ->).
    + intros Hflag. cbn [isProcessing svc pushTask notePushed setSvc setQueue].
      rewrite Hflag. done.
Qed.

(** No agency serves the north: the call returns a count of 0 and the
    process is unchanged. Three agencies serve the south: the count is 3. *)
Lemma distribute_returns_resolved_count_witness :
  distributeCVToAgencies (Some Samples.northCandidate)
    (boot Samples.now (Samples.agenciesDb 3))
  = (Returned {| resultSuccess := true; distributed := 0 |},
     boot Samples.now (Samples.agenciesDb 3))
  /\ exists t,
       (distributeCVToAgencies (Some (Samples.southCandidate 7))
          (boot Samples.now (Samples.agenciesDb 3))).1
       = Returned {| resultSuccess := true; distributed := 3 |}
       /\ length (agencies t) = 3%nat.
Proof.
  split.
  - apply (proj1 (distribute_returns_resolved_count Samples.northCandidate
                    {| title := "developer"; experience := "3 years" |} []
                    (boot Samples.now (Samples.agenciesDb 3)) eq_refl)).
    vm_compute. reflexivity.
  - destruct (proj2 (distribute_returns_resolved_count (Samples.southCandidate 7)
                       {| title := "developer"; experience := "3 years" |} []
                       (boot Samples.now (Samples.agenciesDb 3)) eq_refl))
      as (t & Hr & _ & Ht & _).
    + vm_compute. discriminate.
    + exists t. split; [rewrite Hr; vm_compute; reflexivity|].
      rewrite Ht. vm_compute. reflexivity.
Defined.


End ServiceClaims.

(** * Further properties *)

(** ** The region of a candidate *)

Lemma firstCity_in loc table r :
  firstCity loc table = Some r -> r ∈ table.*2.
Proof.
  induction table as [|[cityName region] rest IH]; simpl; [done|].
  destruct (includes loc cityName).
  - intros [= ->]. apply list_elem_of_here.
  - intros H. apply list_elem_of_further, IH, H.
Qed.

Lemma regionMap_tokens : Forall (fun r => r ∈ regionTokens) regionMap.*2.
Proof. apply (bool_decide_unpack _). vm_compute. exact I. Qed.

Lemma toLowerCase_nonempty l : toLowerCase l ∈ regionTokens -> l <> ""%string.
Proof. intros H ->. by apply (bool_decide_pack _) in H. Qed.

Lemma eqb_empty_false l : l <> ""%string -> String.eqb l "" = false.
Proof. intros H. by apply String.eqb_neq. Qed.

(** X1 (extractRegionFromCandidate). Whatever the candidate holds, the
    region extracted is one of the four tokens north, center, lowlands and
    south. *)
Theorem region_is_a_token c : extractRegionFromCandidate c ∈ regionTokens.
Proof.
  assert (Hfall : forall loc, default "center"%string (firstCity loc regionMap) ∈ regionTokens).
  { intros loc. destruct (firstCity loc regionMap) as [r|] eqn:E; simpl.
    - apply firstCity_in in E.
      exact (proj1 (Forall_forall _ _) regionMap_tokens r E).
    - apply (bool_decide_unpack _). vm_compute. exact I. }
  unfold extractRegionFromCandidate.
  destruct (location c) as [l|]; [|apply Hfall].
  destruct (negb (String.eqb l "") && bool_decide (toLowerCase l ∈ regionTokens)) eqn:E;
    [|apply Hfall].
  apply andb_true_iff in E as [_ E]. by apply bool_decide_eq_true in E.
Qed.

(** X2 (extractRegionFromCandidate). A [location] that is one of the four
    tokens, in any mix of upper and lower case, is the region, in lower
    case, whatever the address and the city say. *)
Theorem region_location_wins c l :
  location c = Some l -> toLowerCase l ∈ regionTokens ->
  extractRegionFromCandidate c = toLowerCase l.
Proof.
  intros Hl Htok. unfold extractRegionFromCandidate. rewrite Hl.
  rewrite (eqb_empty_false l (toLowerCase_nonempty l Htok)).
  by rewrite bool_decide_eq_true_2.
Qed.

Lemma region_location_wins_witness :
  extractRegionFromCandidate
    {| candidateId := 7; positions := None; location := Some "SoUtH"%string;
       address := Some "חיפה"%string; city := None |} = "south"%string.
Proof.
  apply (region_location_wins
           {| candidateId := 7; positions := None; location := Some "SoUtH"%string;
              address := Some "חיפה"%string; city := None |} "SoUtH").
  - reflexivity.
  - apply (bool_decide_unpack _). vm_compute. exact I.
Defined.

(** X3 (extractRegionFromCandidate). The city is read only when the address
    is missing or empty: two candidates with the same location and the same
    non-empty address have the same region. *)
Theorem region_address_before_city c c' a :
  location c = location c' -> address c = Some a -> address c' = Some a ->
  a <> ""%string ->
  extractRegionFromCandidate c = extractRegionFromCandidate c'.
Proof.
  intros Hl Ha Ha' Hne. unfold extractRegionFromCandidate.
  rewrite Hl, Ha, Ha'. destruct a as [|ch rest]; [done|]. reflexivity.
Qed.

Lemma region_address_before_city_witness :
  extractRegionFromCandidate
    {| candidateId := 1; positions := None; location := None;
       address := Some "Main street 1"%string; city := Some "חיפה"%string |}
  = extractRegionFromCandidate
      {| candidateId := 2; positions := None; location := None;
         address := Some "Main street 1"%string; city := Some "אילת"%string |}.
Proof.
  apply (region_address_before_city _ _ "Main street 1"); [reflexivity..|done].
Defined.

(** ** Eligibility *)

Lemma omap_sublist {A B} (f : A -> option B) (g : B -> A) (l : list A) :
  (forall a b, f a = Some b -> g b = a) -> sublist (g <$> omap f l) l.
Proof.
  intros Hf. induction l as [|a l IH]; simpl; [constructor|].
  destruct (f a) as [b|] eqn:E; simpl.
  - rewrite (Hf a b E). by constructor.
  - by constructor.
Qed.

Lemma bfilter_sublist {A} (f : A -> bool) (l : list A) : sublist (List.filter f l) l.
Proof.
  induction l as [|a l IH]; simpl; [constructor|].
  destruct (f a); by constructor.
Qed.

Lemma checkAgency_agency ids t a e : checkAgency ids t a = Some e -> agency e = a.
Proof.
  unfold checkAgency. destruct (negb _); [done|].
  destruct (_ <? _); [|done]. by intros [= <-].
Qed.

Lemma eligible_sublist region now d :
  sublist (agency <$> getEligibleAgencies region now d) (companies d).
Proof.
  unfold getEligibleAgencies. etrans; [|apply (bfilter_sublist (agencyQuery region))].
  apply omap_sublist. intros a b. apply checkAgency_agency.
Qed.

(** X4 (getEligibleAgencies). An entry is returned exactly when its agency is
    a document of the store that the company query matches for the region,
    that has a subscription active and unexpired at the clock, and whose
    count of the day, taken as zero when the last reset is more than a day
    old, is under its cap; the entry carries that count. *)
Theorem eligible_iff region now d e :
  e ∈ getEligibleAgencies region now d <->
    agency e ∈ companies d /\ agencyQuery region (agency e) = true
    /\ activeSubscription now d (agency e)
    /\ currentDailyCount e = effectiveCount (now - oneDay) (agency e)
    /\ effectiveCount (now - oneDay) (agency e) < maxDailyOf (agency e).
Proof. apply getEligibleAgencies_spec. Qed.

(** X5 (getEligibleAgencies). The agencies returned are documents of the
    store, in the order of the store, none of them twice: with distinct ids
    in the store the ids of the result are distinct. *)
Theorem eligible_in_store_order region now d :
  sublist (agency <$> getEligibleAgencies region now d) (companies d)
  /\ (NoDup (_id <$> companies d) ->
      NoDup (Invariants.agencyIds (getEligibleAgencies region now d))).
Proof.
  split; [apply eligible_sublist|].
  intros Hnd. unfold Invariants.agencyIds.
  assert (Hs : sublist (_id <$> (agency <$> getEligibleAgencies region now d))
                       (_id <$> companies d))
    by apply fmap_sublist, eligible_sublist.
  rewrite <- list_fmap_compose in Hs. eapply sublist_NoDup; eassumption.
Qed.

Lemma eligible_in_store_order_witness :
  NoDup (Invariants.agencyIds (getEligibleAgencies "south" Samples.now (Samples.agenciesDb 2))).
Proof.
  apply (proj2 (eligible_in_store_order "south" Samples.now (Samples.agenciesDb 2))).
  apply (bool_decide_unpack _). vm_compute. exact I.
Defined.

(** ** The quota *)

Lemma findOneAndUpdate_none (f : company -> bool) u cs :
  Forall (fun c => f c = false) cs -> findOneAndUpdate f u cs = cs.
Proof.
  induction 1 as [|c cs Hc _ IH]; simpl; [done|]. by rewrite Hc, IH.
Qed.

Lemma findOneAndUpdate_fmap {B} (g : company -> B) (f : company -> bool) u cs :
  (forall c, g (u c) = g c) -> g <$> findOneAndUpdate f u cs = g <$> cs.
Proof.
  intros Hu. induction cs as [|c cs IH]; [done|]. cbn [findOneAndUpdate].
  destruct (f c); rewrite !fmap_cons; [by rewrite Hu | by rewrite IH].
Qed.

Lemma findOneAndUpdate_lookup (f : company -> bool) u cs i c :
  cs !! i = Some c -> f c = false -> findOneAndUpdate f u cs !! i = Some c.
Proof.
  revert i. induction cs as [|c0 cs IH]; intros i Hi Hf; [done|]. simpl.
  destruct i as [|i]; simpl in *.
  - injection Hi as ->. by rewrite Hf.
  - destruct (f c0); simpl; [done|]. by apply IH.
Qed.

Lemma profileOf_resetUpdate now c : Audit.profileOf (resetUpdate now c) = Audit.profileOf c.
Proof. done. Qed.
Lemma profileOf_incUpdate c : Audit.profileOf (incUpdate c) = Audit.profileOf c.
Proof. done. Qed.

Lemma updateDailyCount_profiles id now d :
  Audit.profileOf <$> companies (updateDailyCount id now d)
  = Audit.profileOf <$> companies d.
Proof.
  unfold updateDailyCount, findByIdAndUpdate. cbn [companies withCompanies].
  rewrite findOneAndUpdate_fmap by apply profileOf_incUpdate.
  by rewrite findOneAndUpdate_fmap by apply profileOf_resetUpdate.
Qed.

Lemma updateDailyCount_subscriptions id now d :
  subscriptions (updateDailyCount id now d) = subscriptions d.
Proof. done. Qed.

Lemma findById_Some id d c : findById id d = Some c -> c ∈ companies d /\ _id c = id.
Proof.
  unfold findById. intros H. apply List.find_some in H as [Hin Hid].
  split; [by apply list_elem_of_In|]. by apply bool_decide_eq_true in Hid.
Qed.

Lemma findById_NoDup d c :
  NoDup (_id <$> companies d) -> c ∈ companies d -> findById (_id c) d = Some c.
Proof.
  unfold findById. induction (companies d) as [|c0 cs IH]; simpl.
  - by intros _ ?%elem_of_nil.
  - intros [Hn Hnd]%NoDup_cons Hin. destruct (decide (_id c0 = _id c)) as [E|E].
    + rewrite bool_decide_eq_true_2 by done.
      apply elem_of_cons in Hin as [->|Hin]; [done|]. exfalso. apply Hn.
      rewrite E. apply list_elem_of_fmap. by exists c.
    + rewrite bool_decide_eq_false_2 by done.
      apply elem_of_cons in Hin as [->|Hin]; [done|]. by apply IH.
Qed.

Lemma effectiveCount_quotaUpdate_fresh id now t c r :
  distributionSettings c ≫= lastCountReset = Some r -> now - oneDay <= r -> t <= r ->
  effectiveCount t (quotaUpdate id now c) = effectiveCount t c + 1.
Proof.
  intros Hr Hfresh Ht. unfold quotaUpdate, staleFilter. rewrite Hr.
  replace (r <? now - oneDay) with false by (symmetry; apply Z.ltb_ge; lia).
  rewrite andb_false_r.
  unfold effectiveCount, lastResetOf, dailyCountOf, incUpdate. cbn.
  rewrite Hr. cbn.
  replace (r <? t) with false by (symmetry; apply Z.ltb_ge; lia).
  rewrite num_or_zero.
  destruct (Z.eqb_spec (default 0 (distributionSettings c ≫= dailyCount) + 1) 0); lia.
Qed.

(** X6 (updateDailyCount). An id that no document of the store carries
    leaves the store as it is: neither of the two updates creates a
    document. *)
Theorem updateDailyCount_unknown_id id now d :
  id ∉ _id <$> companies d -> updateDailyCount id now d = d.
Proof.
  intros Hid.
  assert (Hall : forall f : company -> bool,
             (forall c, f c = true -> _id c = id) ->
             Forall (fun c => f c = false) (companies d)).
  { intros f Hf. apply Forall_forall. intros c Hc.
    destruct (f c) eqn:E; [|done]. exfalso. apply Hid.
    apply list_elem_of_fmap. exists c. by rewrite (Hf c E). }
  unfold updateDailyCount, findByIdAndUpdate.
  rewrite (findOneAndUpdate_none (staleFilter id (now - oneDay))).
  - rewrite findOneAndUpdate_none; [by destruct d|].
    apply Hall. intros c Hc. by apply bool_decide_eq_true in Hc.
  - apply Hall. unfold staleFilter. intros c Hc.
    apply andb_true_iff in Hc as [Hc _]. by apply bool_decide_eq_true in Hc.
Qed.

Lemma updateDailyCount_unknown_id_witness :
  updateDailyCount 5 Samples.now Samples.staleDb = Samples.staleDb.
Proof.
  apply (updateDailyCount_unknown_id 5 Samples.now Samples.staleDb).
  apply (bool_decide_unpack _). vm_compute. exact I.
Defined.

(** X7 (updateDailyCount). The update writes nothing but the two counters of
    the agency it is given: every document keeps its id and place, its
    name, regions, flags, addresses and cap, the subscriptions are not
    touched, and a document with another id is left as it is. *)
Theorem updateDailyCount_frame id now d :
  Audit.profileOf <$> companies (updateDailyCount id now d)
  = Audit.profileOf <$> companies d
  /\ subscriptions (updateDailyCount id now d) = subscriptions d
  /\ (forall i c, companies d !! i = Some c -> _id c <> id ->
        companies (updateDailyCount id now d) !! i = Some c).
Proof.
  split; [apply updateDailyCount_profiles|]. split; [done|].
  intros i c Hi Hne. unfold updateDailyCount, findByIdAndUpdate.
  cbn [companies withCompanies].
  apply findOneAndUpdate_lookup; [apply findOneAndUpdate_lookup; [done|]|].
  - unfold staleFilter. by rewrite bool_decide_eq_false_2.
  - by rewrite bool_decide_eq_false_2.
Qed.

Lemma deliveries_snoc id times t d :
  Audit.deliveries id (times ++ [t]) d
  = updateDailyCount id t (Audit.deliveries id times d).
Proof. unfold Audit.deliveries. by rewrite foldl_app. Qed.

(** X8 (updateDailyCount). Deliveries that all fall within a day of the last
    reset of the agency add up: after n of them the count is n higher and
    the time of the last reset is the same. The count is one that the
    store holds exactly, from the first delivery to the last: between
    [- 2 ^ 53] and [2 ^ 53], where every sum of [$inc] is the exact one. *)
Theorem updateDailyCount_accumulates id times d c r :
  findById id d = Some c ->
  distributionSettings c ≫= lastCountReset = Some r ->
  - 2 ^ 53 <= default 0 (distributionSettings c ≫= dailyCount) ->
  default 0 (distributionSettings c ≫= dailyCount) + Z.of_nat (length times) <= 2 ^ 53 ->
  Forall (fun t => t - oneDay <= r) times ->
  exists c', findById id (Audit.deliveries id times d) = Some c'
    /\ default 0 (distributionSettings c' ≫= dailyCount)
       = default 0 (distributionSettings c ≫= dailyCount) + Z.of_nat (length times)
    /\ distributionSettings c' ≫= lastCountReset = Some r.
Proof.
  intros Hc Hr _ _. induction times as [|t times IH] using rev_ind; intros Hall.
  - exists c. split; [done|]. split; [simpl; lia|done].
  - apply Forall_app in Hall as [Hall Ht]. apply Forall_inv in Ht. cbv beta in Ht.
    destruct (IH Hall) as (c1 & Hc1 & Hn1 & Hr1).
    rewrite deliveries_snoc, findById_update, Hc1. cbn [fmap option_fmap option_map].
    eexists. split; [reflexivity|].
    unfold quotaUpdate, staleFilter. rewrite Hr1.
    replace (r <? t - oneDay) with false by (symmetry; apply Z.ltb_ge; lia).
    rewrite andb_false_r. cbn. rewrite Hn1, length_app. cbn. split; [lia|done].
Qed.

Lemma updateDailyCount_accumulates_witness :
  exists c', findById 0%N
               (Audit.deliveries 0%N [Samples.now; Samples.now + 5; Samples.now + 9]
                  Samples.freshDb) = Some c'
    /\ default 0 (distributionSettings c' ≫= dailyCount) = 50 + Z.of_nat 3
    /\ distributionSettings c' ≫= lastCountReset = Some (Samples.now - 60 * 60 * 1000).
Proof.
  apply (updateDailyCount_accumulates 0%N [Samples.now; Samples.now + 5; Samples.now + 9]
           Samples.freshDb (Samples.agencyDoc 0 50 (Samples.now - 60 * 60 * 1000))
           (Samples.now - 60 * 60 * 1000)).
  - reflexivity.
  - reflexivity.
  - vm_compute. discriminate.
  - vm_compute. discriminate.
  - repeat constructor; vm_compute; discriminate.
Defined.

(** X9 (updateDailyCount, getEligibleAgencies). An agency whose document has
    no [lastCountReset] is never capped. No delivery stamps it: the first
    update matches only a stored date and the second one only increments.
    The eligibility check reads the missing date as the epoch and so takes
    the count as zero, whatever the deliveries have added to it. *)
Theorem unstamped_agency_is_never_capped id times d c :
  findById id d = Some c ->
  distributionSettings c ≫= lastCountReset = None ->
  exists c', findById id (Audit.deliveries id times d) = Some c'
    /\ distributionSettings c' ≫= lastCountReset = None
    /\ default 0 (distributionSettings c' ≫= dailyCount)
       = default 0 (distributionSettings c ≫= dailyCount) + Z.of_nat (length times)
    /\ forall now ids, oneDay < now -> _id c ∈ ids -> 0 < maxDailyOf c ->
         checkAgency ids (now - oneDay) c'
         = Some {| agency := c'; currentDailyCount := 0 |}.
Proof.
  intros Hc Hr.
  assert (Hcheck : forall c', _id c' = _id c -> maxDailyOf c' = maxDailyOf c ->
            distributionSettings c' ≫= lastCountReset = None ->
            forall now (ids : gset N), oneDay < now -> _id c ∈ ids -> 0 < maxDailyOf c ->
              checkAgency ids (now - oneDay) c'
              = Some {| agency := c'; currentDailyCount := 0 |}).
  { intros c' Hid Hmax Hr' now ids Hnow Hin Hcap. unfold checkAgency.
    rewrite Hid, bool_decide_eq_true_2 by done. cbn [negb].
    unfold effectiveCount, lastResetOf. rewrite Hr'. cbn [date_or].
    replace (0 <? now - oneDay) with true by (symmetry; apply Z.ltb_lt; lia).
    rewrite Hmax. by replace (0 <? maxDailyOf c) with true by (symmetry; apply Z.ltb_lt; lia). }
  enough (H : exists c', findById id (Audit.deliveries id times d) = Some c'
            /\ distributionSettings c' ≫= lastCountReset = None
            /\ default 0 (distributionSettings c' ≫= dailyCount)
               = default 0 (distributionSettings c ≫= dailyCount) + Z.of_nat (length times)
            /\ _id c' = _id c /\ maxDailyOf c' = maxDailyOf c).
  { destruct H as (c' & H1 & H2 & H3 & H4 & H5). exists c'. split_and!; try done.
    by apply Hcheck. }
  induction times as [|t times IH] using rev_ind.
  - exists c. split_and!; try done. simpl; lia.
  - destruct IH as (c1 & Hc1 & Hr1 & Hn1 & Hid1 & Hmax1).
    rewrite deliveries_snoc, findById_update, Hc1. cbn [fmap option_fmap option_map].
    eexists. split; [reflexivity|].
    unfold quotaUpdate, staleFilter. rewrite Hr1, andb_false_r.
    cbn. rewrite Hn1, length_app. cbn. split_and!; try done. lia.
Qed.

Lemma unstamped_agency_is_never_capped_witness :
  let c := {| _id := 3; companyName := "agency"; supportRegions := ["south"%string];
              isRecruitmentAgency := true; isRecruitmentAccess := approved;
              recruitmentEmails := [{| email := "cv@agency.example"; isActive := true |}];
              distributionSettings :=
                Some {| maxCVsPerDay := Some 1; dailyCount := Some 1;
                        lastCountReset := None |};
              companyIsActive := true |} in
  let d := {| companies := [c]; subscriptions := [] |} in
  exists c', findById 3%N (Audit.deliveries 3%N [Samples.now; Samples.now] d) = Some c'
    /\ distributionSettings c' ≫= lastCountReset = None
    /\ default 0 (distributionSettings c' ≫= dailyCount) = 1 + Z.of_nat 2
    /\ forall now ids, oneDay < now -> _id c ∈ ids -> 0 < maxDailyOf c ->
         checkAgency ids (now - oneDay) c'
         = Some {| agency := c'; currentDailyCount := 0 |}.
Proof.
  intros c d.
  apply (unstamped_agency_is_never_capped 3%N [Samples.now; Samples.now] d c);
    reflexivity.
Defined.

(** X10 (updateDailyCount, getEligibleAgencies). The cap closes: when an
    eligible agency with a reset less than a day old stands one below its
    cap, a delivery to it leaves it out of the agencies resolved for as long
    as that reset is less than a day old. *)
Theorem cap_closes_after_last_delivery region now now' d e r :
  NoDup (_id <$> companies d) ->
  e ∈ getEligibleAgencies region now d ->
  distributionSettings (agency e) ≫= lastCountReset = Some r ->
  now - oneDay <= r -> now' - oneDay <= r ->
  currentDailyCount e + 1 = maxDailyOf (agency e) ->
  _id (agency e)
  ∉ Invariants.agencyIds
      (getEligibleAgencies region now' (updateDailyCount (_id (agency e)) now d)).
Proof.
  intros Hnd He Hr Hfresh Hfresh' Hcap Hmem.
  apply list_elem_of_fmap in Hmem as (e' & Hid & He'). symmetry in Hid.
  apply getEligibleAgencies_spec in He as (Hin & _ & _ & Hcur & _).
  apply getEligibleAgencies_spec in He' as (Hin' & _ & _ & _ & Hlt).
  set (id := _id (agency e)) in *.
  assert (Hnd' : NoDup (_id <$> companies (updateDailyCount id now d))).
  { pose proof (updateDailyCount_profiles id now d) as Hp.
    apply (f_equal (fmap Audit.profileId)) in Hp.
    rewrite <- !list_fmap_compose in Hp.
    change (Audit.profileId ∘ Audit.profileOf) with _id in Hp. by rewrite Hp. }
  pose proof (findById_NoDup _ _ Hnd' Hin') as Hf'. rewrite Hid in Hf'.
  pose proof (findById_NoDup _ _ Hnd Hin) as Hf. fold id in Hf.
  rewrite findById_update, Hf in Hf'. cbn in Hf'. injection Hf' as Hf'.
  rewrite <- Hf' in Hlt.
  rewrite (effectiveCount_quotaUpdate_fresh id now (now' - oneDay) (agency e) r) in Hlt
    by (try done; lia).
  assert (Hmax : maxDailyOf (quotaUpdate id now (agency e)) = maxDailyOf (agency e)).
  { unfold quotaUpdate, maxDailyOf. by destruct (staleFilter _ _ _). }
  rewrite Hmax in Hlt.
  assert (Heff : effectiveCount (now' - oneDay) (agency e)
                 = effectiveCount (now - oneDay) (agency e)).
  { unfold effectiveCount, lastResetOf. rewrite Hr. cbn.
    replace (r <? now' - oneDay) with false by (symmetry; apply Z.ltb_ge; lia).
    by replace (r <? now - oneDay) with false by (symmetry; apply Z.ltb_ge; lia). }
  lia.
Qed.

Lemma cap_closes_after_last_delivery_witness :
  let a := Samples.agencyDoc 0 49 (Samples.now - 1000) in
  let d := {| companies := [a]; subscriptions := [Samples.subscriptionOf 0] |} in
  let e := {| agency := a; currentDailyCount := 49 |} in
  e ∈ getEligibleAgencies "south" Samples.now d
  /\ _id (agency e)
     ∉ Invariants.agencyIds
         (getEligibleAgencies "south" (Samples.now + 5000)
            (updateDailyCount (_id (agency e)) Samples.now d)).
Proof.
  intros a d e.
  assert (He : e ∈ getEligibleAgencies "south" Samples.now d)
    by (vm_compute; apply list_elem_of_here).
  split; [exact He|].
  apply (cap_closes_after_last_delivery "south" Samples.now (Samples.now + 5000) d e
           (Samples.now - 1000)).
  - apply (bool_decide_unpack _). vm_compute. exact I.
  - exact He.
  - reflexivity.
  - vm_compute. discriminate.
  - vm_compute. discriminate.
  - reflexivity.
Defined.

(** ** The background jobs *)

Module JobsFacts.
Import Jobs.

Lemma updateMany_id {A} (f : A -> bool) (u : A -> A) (l : list A) :
  Forall (fun x => f x = false) l -> updateMany f u l = l.
Proof.
  unfold updateMany. induction 1 as [|x l Hx _ IH]; [done|].
  rewrite fmap_cons, Hx. by f_equal.
Qed.

Lemma elem_of_updateMany {A} (f : A -> bool) (u : A -> A) (l : list A) y :
  y ∈ updateMany f u l <-> exists x, x ∈ l /\ y = if f x then u x else x.
Proof.
  unfold updateMany. rewrite list_elem_of_fmap. split; intros (x & H1 & H2); exists x; done.
Qed.

Lemma bfilter_updateMany {A} (q f : A -> bool) (u : A -> A) (l : list A) :
  (forall x, f x = true -> q x = false /\ q (u x) = false) ->
  List.filter q (updateMany f u l) = List.filter q l.
Proof.
  intros H. unfold updateMany. induction l as [|x l IH]; [done|].
  rewrite fmap_cons. cbn [List.filter]. rewrite IH.
  destruct (f x) eqn:E; [|done]. destruct (H x E) as [-> ->]. done.
Qed.

Lemma bfilter_nil {A} (f : A -> bool) (l : list A) :
  Forall (fun x => f x = false) l -> List.filter f l = [].
Proof. induction 1 as [|x l Hx _ IH]; [done|]. cbn. by rewrite Hx. Qed.

Lemma find_updateMany (P f : company -> bool) (u : company -> company) cs :
  (forall c, P (u c) = P c) ->
  List.find P (updateMany f u cs) = (fun c => if f c then u c else c) <$> List.find P cs.
Proof.
  intros Hu. unfold updateMany. induction cs as [|c cs IH]; [done|].
  rewrite fmap_cons. cbn [List.find].
  assert (P (if f c then u c else c) = P c) as -> by (destruct (f c); [apply Hu|done]).
  destruct (P c); [done|apply IH].
Qed.

Lemma findById_reset id now d :
  findById id (resetDailyCounters now d).2
  = (fun c => if resetFilter c then zeroUpdate now c else c) <$> findById id d.
Proof. unfold findById. cbn. by apply find_updateMany. Qed.

Lemma resetFilter_zeroUpdate now c : resetFilter (zeroUpdate now c) = false.
Proof. unfold resetFilter. cbn. apply andb_false_r. Qed.

Lemma reset_clears now d :
  Forall (fun c => resetFilter c = false) (companies (resetDailyCounters now d).2).
Proof.
  apply Forall_forall. intros c Hc. cbn in Hc.
  apply elem_of_updateMany in Hc as (c0 & _ & ->).
  destruct (resetFilter c0) eqn:E; [apply resetFilter_zeroUpdate|done].
Qed.

Lemma resetFilter_false_count c :
  resetFilter c = false -> isRecruitmentAgency c = true -> dailyCountOf c <= 0.
Proof.
  unfold resetFilter. intros Hf Hag. rewrite Hag in Hf. cbn in Hf.
  unfold dailyCountOf, num_or.
  destruct (distributionSettings c ≫= dailyCount) as [n|]; [|lia].
  apply Z.ltb_ge in Hf. destruct (n =? 0); lia.
Qed.

Lemma ceilDays_spec ms k : ceilDays ms = k <-> (k - 1) * oneDay < ms <= k * oneDay.
Proof.
  unfold ceilDays.
  assert (HD : 0 < oneDay) by (unfold oneDay; lia).
  pose proof (Z.div_mod (- ms) oneDay ltac:(lia)) as Hdm.
  pose proof (Z.mod_pos_bound (- ms) oneDay HD) as Hb.
  split.
  - intros <-. nia.
  - intros [H1 H2]. nia.
Qed.

(** X11 (resetDailyCounters). After the nightly reset no recruitment agency
    has a positive count of the day; the job reports the agencies that had
    one; and a second run finds nothing to reset and leaves the store as it
    is. *)
Theorem resetDailyCounters_clears now now' d :
  let r := resetDailyCounters now d in
  (forall c, c ∈ companies r.2 -> isRecruitmentAgency c = true -> dailyCountOf c <= 0)
  /\ r.1 = length (List.filter
                     (fun c => isRecruitmentAgency c && (0 <? dailyCountOf c))
                     (companies d))
  /\ resetDailyCounters now' r.2 = (0%nat, r.2).
Proof.
  intros r. split_and!.
  - intros c Hc Hag. apply resetFilter_false_count; [|done].
    exact (proj1 (Forall_forall _ _) (reset_clears now d) c Hc).
  - cbn. f_equal. apply List.filter_ext. intros c. unfold resetFilter, dailyCountOf.
    f_equal. unfold num_or.
    destruct (distributionSettings c ≫= dailyCount) as [n|]; [|done].
    destruct (Z.eqb_spec n 0) as [->|]; done.
  - unfold resetDailyCounters at 1. f_equal.
    + by rewrite bfilter_nil by apply reset_clears.
    + rewrite updateMany_id by apply reset_clears. by destruct r.2.
Qed.

(** X12 (resetDailyCounters, getEligibleAgencies). The reset reopens the
    agencies: whatever its count was, an agency that the company query
    matches, with an active subscription and a positive cap, is resolved
    after the reset, with a count that is not positive. *)
Theorem reset_reopens_agencies region now now' d a :
  a ∈ companies d -> agencyQuery region a = true ->
  activeSubscription now' d a -> 0 < maxDailyOf a ->
  exists e, e ∈ getEligibleAgencies region now' (resetDailyCounters now d).2
            /\ _id (agency e) = _id a /\ currentDailyCount e <= 0.
Proof.
  intros Hin Hq Hsub Hcap.
  set (a' := if resetFilter a then zeroUpdate now a else a).
  assert (Hin' : a' ∈ companies (resetDailyCounters now d).2).
  { cbn. apply elem_of_updateMany. by exists a. }
  assert (Hclear : dailyCountOf a' <= 0).
  { apply resetFilter_false_count.
    - exact (proj1 (Forall_forall _ _) (reset_clears now d) a' Hin').
    - unfold agencyQuery in Hq. repeat (apply andb_true_iff in Hq as [Hq ?]).
      unfold a'. by destruct (resetFilter a). }
  assert (Heff : effectiveCount (now' - oneDay) a' <= 0).
  { unfold effectiveCount. destruct (_ <? _); lia. }
  exists {| agency := a'; currentDailyCount := effectiveCount (now' - oneDay) a' |}.
  split; [|split; [|done]].
  - apply getEligibleAgencies_spec. cbn [agency currentDailyCount].
    split; [done|]. split; [|split; [|split; [done|]]].
    + unfold a'. by destruct (resetFilter a).
    + destruct Hsub as (s & e & Hs & Hid & Hrest). exists s, e.
      split; [done|]. split; [|done]. rewrite Hid. unfold a'. by destruct (resetFilter a).
    + assert (maxDailyOf a' = maxDailyOf a) as ->; [|lia].
      unfold a'. by destruct (resetFilter a).
  - cbn. unfold a'. by destruct (resetFilter a).
Qed.

Lemma reset_reopens_agencies_witness :
  exists e, e ∈ getEligibleAgencies "south" Samples.now
                  (resetDailyCounters Samples.now Samples.freshDb).2
            /\ _id (agency e) = 0%N /\ currentDailyCount e <= 0.
Proof.
  apply (reset_reopens_agencies "south" Samples.now Samples.now Samples.freshDb
           (Samples.agencyDoc 0 50 (Samples.now - 60 * 60 * 1000))).
  - apply list_elem_of_here.
  - reflexivity.
  - exists (Samples.subscriptionOf 0), (Samples.now + 1000000).
    split; [apply list_elem_of_here|]. repeat split.
  - reflexivity.
Defined.

(** X13 (resetDailyCounters, updateDailyCount). For an agency that the
    nightly reset has reset, the first delivery within the next day counts
    one. An agency with no count that day is not touched by the reset: when
    its stored reset is more than a day old at its next delivery, that
    delivery leaves a count of two. *)
Theorem delivery_after_nightly_reset id t t' d c :
  findById id d = Some c -> isRecruitmentAgency c = true ->
  let d' := updateDailyCount id t' (resetDailyCounters t d).2 in
  (forall n, distributionSettings c ≫= dailyCount = Some n -> 0 < n ->
     t' - oneDay <= t ->
     exists c', findById id d' = Some c'
                /\ distributionSettings c' ≫= dailyCount = Some 1
                /\ distributionSettings c' ≫= lastCountReset = Some t)
  /\ (forall r, dailyCountOf c = 0 ->
        distributionSettings c ≫= lastCountReset = Some r -> r < t' - oneDay ->
        exists c', findById id d' = Some c'
                   /\ distributionSettings c' ≫= dailyCount = Some 2
                   /\ distributionSettings c' ≫= lastCountReset = Some t').
Proof.
  intros Hc Hag d'. unfold d'. rewrite findById_update, findById_reset, Hc.
  cbn [fmap option_fmap option_map]. split.
  - intros n Hn Hpos Hfresh. eexists. split; [reflexivity|].
    unfold resetFilter. rewrite Hag, Hn. cbn [andb].
    replace (0 <? n) with true by (symmetry; apply Z.ltb_lt; lia).
    unfold quotaUpdate, staleFilter. cbn.
    replace (t <? t' - oneDay) with false by (symmetry; apply Z.ltb_ge; lia).
    rewrite andb_false_r. done.
  - intros r Hn Hr Hstale. eexists. split; [reflexivity|].
    assert (resetFilter c = false) as ->.
    { unfold resetFilter. rewrite Hag. cbn. unfold dailyCountOf, num_or in Hn.
      destruct (distributionSettings c ≫= dailyCount) as [n|]; [|done].
      destruct (Z.eqb_spec n 0); apply Z.ltb_ge; lia. }
    apply findById_Some in Hc as [_ Hid].
    unfold quotaUpdate, staleFilter. rewrite Hr, Hid, bool_decide_eq_true_2 by done.
    replace (r <? t' - oneDay) with true by (symmetry; apply Z.ltb_lt; lia).
    done.
Qed.

Lemma delivery_after_nightly_reset_witness :
  let busy := {| companies := [Samples.agencyDoc 0 7 (Samples.now - 3 * oneDay)];
                 subscriptions := [] |} in
  let idle := {| companies := [Samples.agencyDoc 0 0 (Samples.now - 3 * oneDay)];
                 subscriptions := [] |} in
  let after d :=
    updateDailyCount 0 (Samples.now + 1000) (resetDailyCounters Samples.now d).2 in
  (exists c', findById 0%N (after busy) = Some c'
              /\ distributionSettings c' ≫= dailyCount = Some 1
              /\ distributionSettings c' ≫= lastCountReset = Some Samples.now)
  /\ (exists c', findById 0%N (after idle) = Some c'
                 /\ distributionSettings c' ≫= dailyCount = Some 2
                 /\ distributionSettings c' ≫= lastCountReset = Some (Samples.now + 1000)).
Proof.
  intros busy idle after. split.
  - apply (proj1 (delivery_after_nightly_reset 0%N Samples.now (Samples.now + 1000) busy
                    (Samples.agencyDoc 0 7 (Samples.now - 3 * oneDay))
                    eq_refl eq_refl) 7).
    + reflexivity.
    + lia.
    + vm_compute. discriminate.
  - apply (proj2 (delivery_after_nightly_reset 0%N Samples.now (Samples.now + 1000) idle
                    (Samples.agencyDoc 0 0 (Samples.now - 3 * oneDay))
                    eq_refl eq_refl) (Samples.now - 3 * oneDay)).
    + reflexivity.
    + reflexivity.
    + vm_compute. reflexivity.
Defined.

(** X14 (checkSubscriptionExpiry, getEligibleAgencies). Marking the expired
    subscriptions changes nothing for the resolution of agencies, at the
    clock of the check or later: the subscriptions it marks were already
    passed over for their date. *)
Theorem expiry_check_keeps_eligibility region now now' d :
  now <= now' ->
  getEligibleAgencies region now' (checkSubscriptionExpiry now d).2
  = getEligibleAgencies region now' d.
Proof.
  intros Hle. unfold getEligibleAgencies. cbn [companies subscriptions snd checkSubscriptionExpiry].
  rewrite bfilter_updateMany; [done|].
  intros s Hs. unfold expiredFilter in Hs. apply andb_true_iff in Hs as [_ Hs].
  unfold subscriptionQuery. cbn [status expirationDate companyId markExpired].
  destruct (expirationDate s) as [e|]; [|done]. apply Z.ltb_lt in Hs.
  replace (now' <? e) with false by (symmetry; apply Z.ltb_ge; lia).
  by rewrite !andb_false_r.
Qed.

Lemma expiry_check_keeps_eligibility_witness :
  getEligibleAgencies "south" (Samples.now + 1)
    (checkSubscriptionExpiry Samples.now (Samples.agenciesDb 2)).2
  = getEligibleAgencies "south" (Samples.now + 1) (Samples.agenciesDb 2).
Proof.
  apply (expiry_check_keeps_eligibility "south" Samples.now (Samples.now + 1)
           (Samples.agenciesDb 2)).
  lia.
Defined.

(** X15 (checkSubscriptionExpiry). After the check no subscription is active
    with a date before the clock of the check. A subscription is changed
    only in its status, and only when it was active with such a date: one
    that has no date, or whose date is the clock itself, stays active. A
    second check at the same clock marks none. *)
Theorem expiry_check_marks now d :
  let r := checkSubscriptionExpiry now d in
  (forall s, s ∈ subscriptions r.2 -> status s = active ->
     forall e, expirationDate s = Some e -> now <= e)
  /\ (fun s => (companyId s, expirationDate s)) <$> subscriptions r.2
     = (fun s => (companyId s, expirationDate s)) <$> subscriptions d
  /\ (forall i s, subscriptions d !! i = Some s ->
        (status s = active /\ exists e, expirationDate s = Some e /\ e < now)
        \/ subscriptions r.2 !! i = Some s)
  /\ markedExpired (checkSubscriptionExpiry now r.2).1 = 0%nat
  /\ subscriptions (checkSubscriptionExpiry now r.2).2 = subscriptions r.2.
Proof.
  intros r.
  assert (Hclear : Forall (fun s => expiredFilter now s = false) (subscriptions r.2)).
  { apply Forall_forall. intros s Hs. cbn in Hs.
    apply elem_of_updateMany in Hs as (s0 & _ & ->).
    destruct (expiredFilter now s0) eqn:E; [done|done]. }
  split_and!.
  - intros s Hs Hact e He.
    pose proof (proj1 (Forall_forall _ _) Hclear s Hs) as Hf.
    unfold expiredFilter in Hf. rewrite Hact, He in Hf. cbn in Hf.
    by apply Z.ltb_ge in Hf.
  - cbn. unfold updateMany. rewrite <- list_fmap_compose. apply list_fmap_ext.
    intros i s _. cbn. by destruct (expiredFilter now s).
  - intros i s Hi. cbn. unfold updateMany. rewrite list_lookup_fmap, Hi. cbn.
    destruct (expiredFilter now s) eqn:E; [left|by right].
    unfold expiredFilter in E. apply andb_true_iff in E as [E1 E2].
    apply bool_decide_eq_true in E1. split; [done|].
    destruct (expirationDate s) as [e|]; [|done]. exists e. split; [done|].
    by apply Z.ltb_lt.
  - cbn [checkSubscriptionExpiry fst markedExpired]. by rewrite bfilter_nil.
  - cbn [checkSubscriptionExpiry snd subscriptions]. by rewrite updateMany_id.
Qed.

(** X16 (checkSubscriptionExpiry). The subscriptions counted as notified are
    the active ones of an existing company whose time left is in the last
    day, in the third day or in the seventh day before expiry: more than
    zero and at most one day, more than two and at most three, more than
    six and at most seven. One that expires at the clock of the check is
    not counted. *)
Theorem expiry_notice_days now d :
  let notified :=
    List.filter (notifies now d)
      (List.filter (expiringSoonQuery now) (subscriptions d)) in
  notificationsSent (checkSubscriptionExpiry now d).1 = length notified
  /\ forall s,
       s ∈ notified
       <-> s ∈ subscriptions d /\ status s = active
           /\ is_Some (findById (companyId s) d)
           /\ exists e, expirationDate s = Some e
                /\ (0 < e - now <= oneDay
                    \/ 2 * oneDay < e - now <= 3 * oneDay
                    \/ 6 * oneDay < e - now <= 7 * oneDay).
Proof.
  intros notified. split; [done|]. intros s. unfold notified.
  rewrite !elem_of_bfilter. unfold notifies, expiringSoonQuery.
  assert (HD : 0 < oneDay) by (unfold oneDay; lia).
  split.
  - intros [[Hin Hq] Hn]. apply andb_true_iff in Hq as [Hact Hq].
    apply bool_decide_eq_true in Hact.
    destruct (expirationDate s) as [e|]; [|done].
    destruct (bool_decide _) eqn:Hd in Hn; [|done].
    apply bool_decide_eq_true in Hd.
    destruct (findById (companyId s) d) as [c|] eqn:Hc; [|done].
    split_and!; [done..|]. exists e. split; [done|].
    rewrite !elem_of_cons in Hd. destruct Hd as [Hd|[Hd|[Hd|Hd]]];
      [apply ceilDays_spec in Hd..|by apply elem_of_nil in Hd]; lia.
  - intros (Hin & Hact & [c Hc] & e & He & Hd). rewrite He, Hc.
    assert (Hk : ceilDays (e - now) ∈ [7; 3; 1]).
    { rewrite !elem_of_cons.
      destruct Hd as [Hd|[Hd|Hd]];
        [right; right; left|right; left|left]; apply ceilDays_spec; lia. }
    rewrite (bool_decide_eq_true_2 _ Hk). split; [|done]. split; [done|].
    rewrite (bool_decide_eq_true_2 _ Hact). cbn.
    apply andb_true_iff. split; [apply Z.leb_le|apply Z.leb_le]; lia.
Qed.

End JobsFacts.

(** ** The checks of the monitor *)

Module ChecksFacts.
Import Monitor MonitorFacts Checks.

Lemma mapSet_elem k v m : (k, v) ∈ mapSet k v m.
Proof.
  induction m as [|[k' v'] m IH]; simpl; [apply list_elem_of_here|].
  destruct (decide (k = k')); [apply list_elem_of_here|by apply list_elem_of_further].
Qed.

Lemma NoDup_fst_functional {A B} (l : list (A * B)) k v v' :
  NoDup l.*1 -> (k, v) ∈ l -> (k, v') ∈ l -> v = v'.
Proof.
  induction l as [|[k0 v0] l IH]; [by intros _ ?%elem_of_nil|].
  rewrite fmap_cons. cbn [fst]. intros [Hn Hnd]%NoDup_cons H1 H2.
  apply elem_of_cons in H1 as [H1|H1]; apply elem_of_cons in H2 as [H2|H2].
  - congruence.
  - injection H1 as -> ->. exfalso. apply Hn. apply list_elem_of_fmap. by exists (k0, v').
  - injection H2 as -> ->. exfalso. apply Hn. apply list_elem_of_fmap. by exists (k0, v).
  - by apply IH.
Qed.

Lemma record_stores c m :
  NoDup m.*1 -> (length m <= capacity)%nat -> stored c ∈ record c m.
Proof.
  intros Hnd Hlen. rewrite record_spec by done. cbv zeta.
  destruct (decide (callKey c ∈ m.*1)) as [Hin|Hout].
  - assert (length (mapSet (callKey c) (entryOf c) m) = length m) as Hl.
    { rewrite <- (length_fmap fst), mapSet_keys_present by done. apply length_fmap. }
    rewrite Hl. replace (capacity <? length m)%nat with false
      by (symmetry; apply Nat.ltb_ge; lia).
    apply mapSet_elem.
  - rewrite mapSet_fresh by done. destruct (_ <? _)%nat eqn:E.
    + apply Nat.ltb_lt in E. rewrite length_app in E. cbn in E.
      rewrite drop_app_le by (unfold trim, capacity in *; lia).
      apply elem_of_app. right. apply list_elem_of_here.
    + apply elem_of_app. right. apply list_elem_of_here.
Qed.

(** X17 (logDistributionAttempt). The entry of the latest call is always
    in the buffer when the call returns, under the key the call drew and
    as the only entry under that key: the clean-up that follows the
    insertion never drops the entry just inserted. *)
Theorem latest_attempt_is_stored cs c :
  stored c ∈ replay (cs ++ [c]) []
  /\ (forall v, (callKey c, v) ∈ replay (cs ++ [c]) [] -> v = entryOf c).
Proof.
  destruct (replay_invariant cs) as [Hnd Hlen].
  assert (Hin : stored c ∈ replay (cs ++ [c]) []).
  { rewrite replay_snoc. by apply record_stores. }
  split; [done|]. intros v Hv.
  destruct (replay_invariant (cs ++ [c])) as [Hnd' _].
  exact (NoDup_fst_functional _ _ _ _ Hnd' Hv Hin).
Qed.



Lemma withoutEmail_iff c :
  withoutEmailQuery c = true
  <-> isRecruitmentAgency c = true /\ isRecruitmentAccess c = approved
      /\ companyIsActive c = true
      /\ List.filter isActive (recruitmentEmails c) = [].
Proof.
  unfold withoutEmailQuery. rewrite !andb_true_iff, bool_decide_eq_true.
  assert (H : (length (recruitmentEmails c) =? 0)%nat
              || negb (existsb isActive (recruitmentEmails c)) = true
              <-> List.filter isActive (recruitmentEmails c) = []).
  { induction (recruitmentEmails c) as [|e l IH]; [done|]. cbn.
    destruct (isActive e); cbn; [done|]. rewrite <- IH.
    destruct l; cbn; [done|]. done. }
  rewrite H. tauto.
Qed.

Lemma validation_spec readyState storage d :
  isValid (validateSystemConfiguration readyState storage d) = true
  <-> readyState = 1
      /\ (forall c, c ∈ companies d -> isRecruitmentAgency c = true ->
            isRecruitmentAccess c = approved -> companyIsActive c = true ->
            exists e, e ∈ recruitmentEmails c /\ isActive e = true)
      /\ match storage with
         | StorageThrows => False
         | StorageStats (Some usage) => usage <= 90
         | StorageStats None => True
         end.
Proof.
  unfold validateSystemConfiguration. cbv zeta. cbn [isValid].
  set (bad := List.filter withoutEmailQuery (companies d)).
  assert (Hbad : bad = [] <->
            (forall c, c ∈ companies d -> isRecruitmentAgency c = true ->
               isRecruitmentAccess c = approved -> companyIsActive c = true ->
               exists e, e ∈ recruitmentEmails c /\ isActive e = true)).
  { split.
    - intros Hb c Hc H1 H2 H3.
      destruct (List.filter isActive (recruitmentEmails c)) as [|e l] eqn:Ef.
      + exfalso. assert (c ∈ bad) as Hin.
        { apply elem_of_bfilter. split; [done|]. by apply withoutEmail_iff. }
        rewrite Hb in Hin. by apply elem_of_nil in Hin.
      + exists e. apply elem_of_bfilter. rewrite Ef. apply list_elem_of_here.
    - intros H. destruct bad as [|c l] eqn:Eb; [done|]. exfalso.
      assert (c ∈ bad) as Hin by (rewrite Eb; apply list_elem_of_here).
      apply elem_of_bfilter in Hin as [Hin Hq].
      apply withoutEmail_iff in Hq as (H1 & H2 & H3 & H4).
      destruct (H c Hin H1 H2 H3) as (e & He & Hact).
      assert (e ∈ List.filter isActive (recruitmentEmails c)) as Hin'
        by (by apply elem_of_bfilter).
      rewrite H4 in Hin'. by apply elem_of_nil in Hin'. }
  rewrite <- Hbad.
  destruct (Z.eqb_spec readyState 1) as [->|Hr]; cbn [negb].
  - destruct bad as [|c l]; cbn [length Nat.ltb Nat.leb].
    + destruct storage as [|[usage|]]; cbn.
      * split; [done|]. tauto.
      * destruct (Z.ltb_spec 90 usage); cbn; intuition (try done; try lia).
      * tauto.
    + split; [|by intros (_ & ? & _)]. intros H. exfalso.
      destruct storage as [|[usage|]]; [| destruct (90 <? usage) |];
        rewrite ?length_app in H; cbn in H; done.
  - split; [|by intros (? & _)]. intros H. exfalso.
    destruct (0 <? length bad)%nat; destruct storage as [|[usage|]];
      try destruct (90 <? usage); rewrite ?length_app in H; cbn in H; done.
Qed.

(** X20 (validateSystemConfiguration). The configuration is reported valid
    exactly when the connection is ready, every approved and active
    recruitment agency has at least one active address, and the storage
    check neither throws nor finds more than 90 percent in use; statistics
    that are missing count as no problem. *)
Theorem validation_is_valid_iff readyState storage d :
  isValid (validateSystemConfiguration readyState storage d) = true
  <-> readyState = 1
      /\ (forall c, c ∈ companies d -> isRecruitmentAgency c = true ->
            isRecruitmentAccess c = approved -> companyIsActive c = true ->
            exists e, e ∈ recruitmentEmails c /\ isActive e = true)
      /\ match storage with
         | StorageThrows => False
         | StorageStats (Some usage) => usage <= 90
         | StorageStats None => True
         end.
Proof. apply validation_spec. Qed.

(** X21 (validateSystemConfiguration, getEligibleAgencies, sendCVToAgency).
    When no agency without a valid address is reported, no send of a
    candidate with [positions], whom [formatCandidateDataForEmail]
    formats, to a resolved agency is rejected on the spot: every agency
    resolved from that store has an active address, so its send goes out
    with at least one mail and waits for the mail service. Conversely, a
    resolved agency whose addresses are all inactive is rejected at once,
    before the candidate is read, with no mail, and is among the agencies
    the validation counts. *)
Theorem valid_configuration_sends_mail readyState storage region now d cand e :
  e ∈ getEligibleAgencies region now d ->
  let r := Service.sendCVToAgency cand e in
  (isValid (validateSystemConfiguration readyState storage d) = true ->
   positions cand <> None ->
   Service.sendPromise r.1 = Service.Pending
   /\ (0 < Service.outstanding r.1)%nat
   /\ length r.2 = Service.outstanding r.1)
  /\ (Service.activeEmails e = [] ->
      r = ({| Service.sendAgency := e; Service.outstanding := 0;
              Service.sendPromise := Service.Rejected |}, [])
      /\ agency e ∈ List.filter withoutEmailQuery (companies d)
      /\ isValid (validateSystemConfiguration readyState storage d) = false).
Proof.
  intros He r. apply getEligibleAgencies_spec in He as (Hin & Hq & _).
  unfold agencyQuery in Hq. rewrite !andb_true_iff, !bool_decide_eq_true in Hq.
  destruct Hq as ((((Hag & Hacc) & Hact) & _) & _).
  split.
  - intros Hvalid _. apply validation_spec in Hvalid as (_ & Hall & _).
    destruct (Hall _ Hin Hag Hacc Hact) as (em & Hem & Hemact).
    unfold r, Service.sendCVToAgency.
    destruct (Service.activeEmails e) as [|x xs] eqn:Ea.
    + exfalso. unfold Service.activeEmails in Ea. apply fmap_nil_inv in Ea.
      assert (em ∈ List.filter isActive (recruitmentEmails (agency e))) as Hin'
        by (by apply elem_of_bfilter).
      rewrite Ea in Hin'. by apply elem_of_nil in Hin'.
    + cbn [fst snd Service.sendPromise Service.outstanding]. split; [done|].
      split; [simpl; lia|]. by rewrite length_fmap.
  - intros Ha. assert (Hw : agency e ∈ List.filter withoutEmailQuery (companies d)).
    { apply elem_of_bfilter. split; [done|]. apply withoutEmail_iff.
      split_and!; try done. unfold Service.activeEmails in Ha. by apply fmap_nil_inv in Ha. }
    split_and!; [|done|].
    + unfold r, Service.sendCVToAgency. by rewrite Ha.
    + destruct (isValid _) eqn:Ev; [|done]. exfalso.
      apply validation_spec in Ev as (_ & Hall & _).
      destruct (Hall _ Hin Hag Hacc Hact) as (em & Hem & Hemact).
      unfold Service.activeEmails in Ha. apply fmap_nil_inv in Ha.
      assert (em ∈ List.filter isActive (recruitmentEmails (agency e))) as Hin'
        by (by apply elem_of_bfilter).
      rewrite Ha in Hin'. by apply elem_of_nil in Hin'.
Qed.

Lemma valid_configuration_sends_mail_witness :
  let e := {| agency := Samples.agencyDoc 0 0 (Samples.now - 1000);
              currentDailyCount := 0 |} in
  let r := Service.sendCVToAgency (Samples.southCandidate 7) e in
  Service.sendPromise r.1 = Service.Pending
  /\ (0 < Service.outstanding r.1)%nat
  /\ length r.2 = Service.outstanding r.1.
Proof.
  intros e r.
  assert (He : e ∈ getEligibleAgencies "south" Samples.now (Samples.agenciesDb 1))
    by (vm_compute; apply list_elem_of_here).
  exact (proj1 (valid_configuration_sends_mail 1 (StorageStats None) "south" Samples.now
                  (Samples.agenciesDb 1) (Samples.southCandidate 7) e He) eq_refl
           ltac:(discriminate)).
Defined.

End ChecksFacts.

(** ** The ledger of the service *)

Module ServiceAudit.
Import Service Invariants ServiceFacts Audit.

Lemma tally_fold_profiles now l acc :
  profileOf <$> companies (foldl (tallyStep now) acc l).2 = profileOf <$> companies acc.2
  /\ subscriptions (foldl (tallyStep now) acc l).2 = subscriptions acc.2.
Proof.
  revert acc. induction l as [|[a p] l IH]; intros acc; [done|].
  cbn [foldl]. destruct (IH (tallyStep now acc (a, p))) as [H1 H2]. rewrite H1, H2.
  unfold tallyStep. cbn [snd fst]. destruct p; cbn [snd]; try done.
  split; [apply updateDailyCount_profiles|done].
Qed.

Lemma resolveBatch_profiles now b d :
  profileOf <$> companies (resolveBatch now b d).2 = profileOf <$> companies d
  /\ subscriptions (resolveBatch now b d).2 = subscriptions d.
Proof.
  unfold resolveBatch. destruct (batchPromise b); try done.
  destruct (allSettled b); [|done]. cbn [snd]. apply tally_fold_profiles.
Qed.

Lemma resolveBatches_profiles now bs d :
  profileOf <$> companies (resolveBatches now bs d).2 = profileOf <$> companies d
  /\ subscriptions (resolveBatches now bs d).2 = subscriptions d.
Proof.
  revert d. induction bs as [|b bs IH]; intros d; [done|].
  cbn [resolveBatches]. cbv zeta. cbn [snd].
  destruct (IH (resolveBatch now b d).2) as [H1 H2].
  destruct (resolveBatch_profiles now b d) as [G1 G2].
  by rewrite H1, H2, G1, G2.
Qed.

Lemma within_fmap s t bs bs' :
  dispatchedAt <$> bs' = dispatchedAt <$> bs -> within s t bs -> within s t bs'.
Proof.
  unfold within. intros H Hw.
  apply (Forall_fmap dispatchedAt (fun x => s <= x <= t)).
  rewrite H. by apply Forall_fmap.
Qed.

Lemma within_mono s t t' bs : t <= t' -> within s t bs -> within s t' bs.
Proof.
  intros Ht Hw. unfold within in *. eapply Forall_impl; [exact Hw|].
  cbn. intros b. lia.
Qed.

Lemma ledger_ext d0 w w' :
  ledger d0 w ->
  profileOf <$> companies (store w') = profileOf <$> companies (store w) ->
  subscriptions (store w') = subscriptions (store w) ->
  pushed w' = pushed w -> outbox w' = outbox w -> started w' = started w ->
  completed w' = completed w -> clock w <= clock w' -> ledger d0 w'.
Proof.
  intros [] Hp Hs Hpu Ho Hst Hc Hcl.
  split; rewrite ?Hp, ?Hs, ?Hpu, ?Ho, ?Hst, ?Hc; try done.
  eapply Forall_impl; [done|]. cbn. intros; lia.
Qed.

Lemma ledger_complete d0 w c t s :
  ledger d0 w -> length (started w) = S (length (completed w)) ->
  last (started w) = Some (t, s) -> within s (doneAt c) (doneBatches c) ->
  ledger d0 (noteCompleted c w).
Proof.
  intros [] Hlen Hlast Hw. split; cbn; try done.
  - intros k c' ts Hk Hs. apply lookup_app_Some in Hk as [Hk|[Hge Hk]].
    + by eapply ledger_done0.
    + apply list_lookup_singleton_Some in Hk as [Hk <-].
      assert (k = length (completed w)) as -> by lia.
      rewrite last_lookup, Hlen in Hlast. cbn in Hlast. rewrite Hlast in Hs.
      by injection Hs as <-.
  - intros k c' t' s' Hk Hs. apply lookup_app_Some in Hk as [Hk|[Hge Hk]].
    + by eapply ledger_next0.
    + apply lookup_lt_Some in Hs. lia.
Qed.

Lemma ledger_start d0 w t :
  ledger d0 w -> length (started w) = length (completed w) ->
  shiftedAt (last (completed w)) t (clock w) ->
  ledger d0 (noteStarted t w).
Proof.
  intros [] Hlen Hshift. split; cbn; try done.
  - eapply Forall_impl; [done|]. cbn. intros m (t' & Ht' & Hm). exists t'.
    split; [|done]. rewrite fmap_app. apply elem_of_app. by left.
  - intros k c ts Hk Hs. apply lookup_lt_Some in Hk as Hlt.
    rewrite lookup_app_l in Hs by lia. by eapply ledger_done0.
  - apply Forall_app. split; [done|]. apply Forall_singleton. cbn. lia.
  - intros t' s' Hs. apply lookup_app_Some in Hs as [Hs|[Hge Hs]].
    + by apply ledger_first0.
    + apply list_lookup_singleton_Some in Hs as [_ Hs]. injection Hs as <- <-.
      assert (completed w = []) as Hnil by (apply length_zero_iff_nil; lia).
      by rewrite Hnil in Hshift.
  - intros k c t' s' Hk Hs. apply lookup_app_Some in Hs as [Hs|[Hge Hs]].
    + by eapply ledger_next0.
    + apply list_lookup_singleton_Some in Hs as [Hi Hs]. injection Hs as <- <-.
      apply lookup_lt_Some in Hk as Hlt.
      assert (Hl : last (completed w) = Some c).
      { rewrite last_lookup. replace (pred (length (completed w))) with k by lia. done. }
      by rewrite Hl in Hshift.
Qed.

Lemma sendCVToAgency_mails c a :
  Forall (fun m => mailCandidate m = candidateId c /\ mailAgency m = _id (agency a)
                   /\ exists e, e ∈ recruitmentEmails (agency a) /\ isActive e = true
                                /\ mailTo m = email e)
         (sendCVToAgency c a).2.
Proof.
  unfold sendCVToAgency. destruct (activeEmails a) as [|x xs] eqn:E; [constructor|].
  cbn [snd]. rewrite <- E. apply Forall_fmap, Forall_forall. intros em Hem. cbn.
  split; [done|]. split; [done|]. unfold activeEmails in Hem.
  apply list_elem_of_fmap in Hem as (e & -> & He).
  apply elem_of_bfilter in He as [? ?]. by exists e.
Qed.

Lemma processBatch_mails now t ags :
  ags ⊆ agencies t -> Forall (mailOf t) (processBatch now (taskCandidate t) ags).2.
Proof.
  intros Hsub. unfold processBatch. cbn [snd]. apply Forall_concat.
  rewrite <- list_fmap_compose. apply Forall_fmap, Forall_forall. intros a Ha. cbn.
  eapply Forall_impl; [apply sendCVToAgency_mails|]. cbn.
  intros m (H1 & H2 & e & He & Hact & Hto).
  split; [done|]. exists a, e. split_and!; try done. by apply Hsub.
Qed.

Lemma slice_subseteq {A} i j (l : list A) : slice i j l ⊆ l.
Proof. unfold slice. etrans; [apply subseteq_take|apply subseteq_drop]. Qed.

Lemma loopTest_outbox j w :
  exists ms, outbox (loopTest j w).2 = outbox w ++ ms /\ Forall (mailOf (jobTask j)) ms.
Proof.
  unfold loopTest, loopBody. case_match.
  - eexists. split; [reflexivity|]. apply processBatch_mails, slice_subseteq.
  - exists []. split; [by rewrite app_nil_r|constructor].
Qed.

Lemma loopTest_within j w s :
  within s (clock w) (batchPromises j) -> s <= clock w ->
  within s (clock w) (batchPromises (loopTest j w).1).
Proof.
  intros Hw Hs. unfold loopTest, loopBody. case_match; [|done]. cbn.
  apply Forall_app. split; [done|]. apply Forall_singleton. cbn. lia.
Qed.

Lemma loopTest_ledger d0 j w :
  ledger d0 w -> jobTask j ∈ (started w).*1 -> ledger d0 (loopTest j w).2.
Proof.
  intros HL Hin. destruct (loopTest_outbox j w) as (ms & Ho & Hms).
  destruct (loopTest_frame j w) as (F1 & F2 & F3 & F4 & F5 & F6 & F7 & F8).
  cbv zeta in *. destruct HL. split; rewrite ?F1, ?F2, ?F6, ?F7, ?F8, ?Ho; try done.
  apply Forall_app. split; [done|]. eapply Forall_impl; [exact Hms|]. cbn.
  intros m Hm. by exists (jobTask j).
Qed.

Lemma sendCVToAgency_live c a : sendLive (sendCVToAgency c a).1.
Proof.
  unfold sendLive, sendCVToAgency. destruct (activeEmails a); [done|].
  cbn. lia.
Qed.

Lemma settleEmail_live ok s : sendLive s -> sendLive (settleEmail ok s).
Proof.
  intros H. unfold sendLive, settleEmail in *.
  destruct (outstanding s) as [|n] eqn:E.
  - rewrite E. exact H.
  - cbn. destruct (sendPromise s); try done.
    destruct ok; [|done]. destruct (Nat.eqb_spec n 0); [done|]. intros _. lia.
Qed.

Lemma processBatch_live now c ags : Forall sendLive (sends (processBatch now c ags).1).
Proof.
  unfold processBatch. cbn. rewrite <- list_fmap_compose.
  apply Forall_fmap, Forall_forall. intros a _. apply sendCVToAgency_live.
Qed.

Lemma loopTest_live j w :
  Forall (fun b => Forall sendLive (sends b)) (batchPromises j) ->
  Forall (fun b => Forall sendLive (sends b)) (batchPromises (loopTest j w).1).
Proof.
  intros H. unfold loopTest, loopBody. case_match; [|done]. cbn.
  apply Forall_app. split; [done|]. apply Forall_singleton, processBatch_live.
Qed.

Lemma withSend_live b s ok j :
  Forall (fun b => Forall sendLive (sends b)) (batchPromises j) ->
  Forall (fun b => Forall sendLive (sends b))
         (batchPromises (withSend b s (settleEmail ok) j)).
Proof.
  intros H. unfold withSend. cbn. apply Forall_alter; [done|].
  intros bt _ Hbt. cbn. apply Forall_alter; [done|].
  intros sd _ Hsd. by apply settleEmail_live.
Qed.

Lemma resolveBatch_live now b d :
  Forall sendLive (sends b) ->
  Forall sendLive (sends (resolveBatch now b d).1)
  /\ (batchPromise (resolveBatch now b d).1 = Pending ->
      allSettled (resolveBatch now b d).1 = false).
Proof.
  intros H. unfold resolveBatch. destruct (batchPromise b) eqn:Ep; try (split; [done|]; cbn; congruence).
  destruct (allSettled b) eqn:Es; cbn; [split; [done|done]|].
  split; [done|]. by rewrite Es.
Qed.

Lemma resolveBatches_live now bs d :
  Forall (fun b => Forall sendLive (sends b)) bs ->
  Forall (fun b => Forall sendLive (sends b)
                   /\ (batchPromise b = Pending -> allSettled b = false))
         (resolveBatches now bs d).1.
Proof.
  intros H. revert d. induction H as [|b bs Hb _ IH]; intros d; [constructor|].
  cbn [resolveBatches]. cbv zeta. cbn [fst]. constructor; [|apply IH].
  by apply resolveBatch_live.
Qed.

Lemma forallb_false_exists {A} (f : A -> bool) (l : list A) :
  forallb f l = false -> exists x, x ∈ l /\ f x = false.
Proof.
  induction l as [|x l IH]; [done|]. cbn. destruct (f x) eqn:E.
  - intros H. destruct (IH H) as (y & Hy & Hf). exists y.
    split; [by apply list_elem_of_further|done].
  - intros _. exists x. split; [apply list_elem_of_here|done].
Qed.

Lemma jobLive_sends j :
  jobLive j -> Forall (fun b => Forall sendLive (sends b)) (batchPromises j).
Proof. intros [H _]. eapply Forall_impl; [exact H|]. cbn. tauto. Qed.

Lemma resumeJob_store_is j w :
  store (resumeJob j w).2 = (resolveBatches (clock w) (batchPromises j) (store w)).2.
Proof.
  unfold resumeJob. cbn [jobWaits withBatches]. destruct (jobWaits j); [done|].
  destruct (forallb _ _); [|done]. unfold afterTask. cbn [svc noteCompleted setStore].
  by destruct (distributionQueue (svc w)).
Qed.

Lemma resumeJob_ledger d0 j w s :
  ledger d0 w -> length (started w) = S (length (completed w)) ->
  last (started w) = Some (jobTask j, s) -> within s (clock w) (batchPromises j) ->
  Forall (fun b => Forall sendLive (sends b)) (batchPromises j) ->
  Forall (fun t => taskTimestamp t <= clock w) (distributionQueue (svc w)) ->
  ledger d0 (resumeJob j w).2 /\ timed (resumeJob j w).1 (resumeJob j w).2.
Proof.
  intros HL Hlen Hlast Hw Hlive Hq.
  destruct (resolveBatches_profiles (clock w) (batchPromises j) (store w)) as [P1 P2].
  destruct (resolveBatches_frame (clock w) (batchPromises j) (store w)) as (_ & Hd & _).
  pose proof (resolveBatches_live (clock w) (batchPromises j) (store w) Hlive) as Hlive'.
  cbv zeta in Hd.
  unfold resumeJob.
  set (bs := (resolveBatches (clock w) (batchPromises j) (store w)).1) in *.
  set (d' := (resolveBatches (clock w) (batchPromises j) (store w)).2) in *.
  assert (HL1 : ledger d0 (setStore d' w)).
  { eapply ledger_ext; [exact HL|..]; cbn; try done. }
  assert (Hw' : within s (clock w) bs) by (by eapply within_fmap).
  cbn [jobWaits withBatches].
  destruct (jobWaits j) eqn:Ew.
  { split; [done|]. cbn. split; [by exists s|]. split; [done|]. cbn. congruence. }
  destruct (forallb (fun b => settled (batchPromise b)) bs) eqn:Eall.
  2:{ split; [done|]. cbn. split; [by exists s|]. split; [done|]. cbn. intros _.
      destruct (forallb_false_exists _ _ Eall) as (b & Hb & Hs).
      exists b. split; [done|]. by destruct (batchPromise b). }
  set (c := {| doneTask := jobTask j; doneBatches := bs;
               doneCounts := jobTally (maxBatchSize (svc (setStore d' w))) bs;
               doneAt := clock (setStore d' w) |}).
  assert (HL2 : ledger d0 (noteCompleted c (setStore d' w))).
  { eapply ledger_complete; [exact HL1|..]; cbn; done. }
  unfold afterTask. cbn [svc noteCompleted setStore].
  destruct (distributionQueue (svc w)) as [|t q] eqn:Eq; cbn [fst snd].
  - split; [|done]. unfold finishLoop.
    eapply ledger_ext; [exact HL2|..]; cbn; first [done|lia].
  - split; [exact HL2|]. apply Forall_inv in Hq.
    exists t, c. cbn [svc noteCompleted setStore completed]. rewrite Eq, last_snoc.
    done.
Qed.

Lemma loopHead_ledger d0 w :
  ledger d0 w -> length (started w) = length (completed w) ->
  (forall t, head (distributionQueue (svc w)) = Some t ->
             shiftedAt (last (completed w)) t (clock w)) ->
  Forall (fun t => taskTimestamp t <= clock w) (distributionQueue (svc w)) ->
  ledger d0 (loopHead w).2 /\ timed (loopHead w).1 (loopHead w).2.
Proof.
  intros HL Hlen Hhead Hq. unfold loopHead, shiftTask.
  destruct (distributionQueue (svc w)) as [|t q] eqn:Eq.
  - cbn [fst snd]. split; [|done]. unfold finishLoop.
    eapply ledger_ext; [exact HL|..]; cbn; first [done|lia].
  - cbv zeta.
    set (w1 := noteStarted t (setSvc (setQueue q (svc w)) w)).
    assert (HL1 : ledger d0 w1).
    { apply ledger_start; [|done|].
      - eapply ledger_ext; [exact HL|..]; cbn; first [done|lia].
      - cbn. by apply Hhead. }
    apply Forall_inv_tail in Hq.
    destruct (processSingleDistribution_frame t w1)
      as (G1 & G2 & G3 & _ & _ & G6 & G7 & G8).
    cbv zeta in *.
    apply (resumeJob_ledger d0 _ _ (clock w)).
    + apply loopTest_ledger; [done|]. cbn. rewrite fmap_app.
      apply elem_of_app. right. apply list_elem_of_here.
    + rewrite G7, G8. cbn. rewrite length_app. cbn. lia.
    + rewrite G7, processSingleDistribution_task. cbn. by rewrite last_snoc.
    + rewrite G1. change (clock w1) with (clock w).
      unfold processSingleDistribution.
      apply (loopTest_within _ w1 (clock w)); [constructor|cbn; lia].
    + unfold processSingleDistribution. apply loopTest_live. constructor.
    + by rewrite G1, G3.
Qed.

Lemma resolved_task d0 cand now d :
  subscriptions d = subscriptions d0 ->
  (exists p ps, positions cand = Some (p :: ps)) ->
  getEligibleAgencies (extractRegionFromCandidate cand) now d <> [] ->
  resolved d0 {| taskCandidate := cand;
                 agencies := getEligibleAgencies (extractRegionFromCandidate cand) now d;
                 taskTimestamp := now; taskId := (candidateId cand, now) |}.
Proof.
  intros Hs Hpos Hne. split; [done|]. split; [done|]. cbn.
  apply Forall_forall. intros e He.
  apply getEligibleAgencies_spec in He as (_ & Hq & Hsub & Hcur & Hlt).
  split; [done|]. split; [|lia].
  destruct Hsub as (s & x & Hin & Hrest). exists s, x. by rewrite <- Hs.
Qed.

Lemma timed_ext od w w' :
  timed od w -> started w' = started w -> clock w <= clock w' ->
  completed w' = completed w ->
  (forall t, head (distributionQueue (svc w)) = Some t ->
             head (distributionQueue (svc w')) = Some t) ->
  timed od w'.
Proof.
  destruct od as [[j|due]|]; cbn; try done.
  - intros [(s & Hl & Hw) Hlive] Hst Hcl _ _. split; [|done].
    exists s. rewrite Hst. split; [done|]. by eapply within_mono.
  - intros (t & c & Hh & Hl & Hle) _ _ Hc Hq. exists t, c. rewrite Hc. auto.
Qed.

Lemma head_snoc {A} (l : list A) x y : head l = Some x -> head (l ++ [y]) = Some x.
Proof. by destruct l. Qed.

Lemma audited_putDrain d0 x r w :
  drains w = [x] -> drains r.2 = drains w -> ledger d0 r.2 -> timed r.1 r.2 ->
  audited d0 (putDrain 0 r).
Proof.
  intros Hd Hr HL HT. unfold putDrain. rewrite Hr, Hd.
  destruct r.1 as [y|] eqn:E; cbn [insert delete].
  - split.
    + eapply ledger_ext; [exact HL|..]; cbn; first [done|lia].
    + intros dr Hin. cbn in Hin. apply list_elem_of_singleton in Hin as ->.
      eapply timed_ext; [exact HT|..]; cbn; first [done|lia|auto].
  - split.
    + eapply ledger_ext; [exact HL|..]; cbn; first [done|lia].
    + intros dr Hin. cbn in Hin. by apply elem_of_nil in Hin.
Qed.

Lemma audited_boot t0 d : audited d (boot t0 d).
Proof.
  split.
  - split; cbn; try done; constructor.
  - intros dr Hin. cbn in Hin. by apply elem_of_nil in Hin.
Qed.

Lemma audited_distribute d0 c w :
  invariant w -> audited d0 w -> audited d0 (distributeCVToAgencies c w).2.
Proof.
  intros Hw [HL HT]. unfold distributeCVToAgencies.
  destruct c as [cand|]; [|done].
  destruct (positions cand) as [[|p ps]|] eqn:Epos; try done.
  destruct (length _ =? 0)%nat eqn:El; [done|]. cbn [snd].
  set (t := {| taskCandidate := cand;
               agencies := getEligibleAgencies (extractRegionFromCandidate cand) (clock w) (store w);
               taskTimestamp := clock w; taskId := (candidateId cand, clock w) |}).
  assert (Hres : resolved d0 t).
  { apply resolved_task; [apply (ledger_subscriptions _ _ HL)|by exists p, ps|].
    intros E. rewrite E in El. done. }
  assert (HL1 : ledger d0 (pushTask t w)).
  { destruct HL. split; cbn; try done. apply Forall_app. split; [done|].
    by apply Forall_singleton. }
  destruct Hw as (od & Hd & [HC HD]).
  destruct (isProcessing (svc (pushTask t w))) eqn:Eflag; cbn [negb].
  - split; [done|]. intros dr Hdr. cbn in Hdr.
    eapply timed_ext; [exact (HT dr Hdr)|..]; cbn;
      first [done|lia|intros ?; apply head_snoc].
  - cbn in Eflag. assert (od = None) as ->.
    { destruct od as [[j|due]|]; cbn in HD; [destruct HD; congruence..|done]. }
    destruct HD as [_ Hq]. unfold processDistributionQueue.
    cbn [svc pushTask notePushed setSvc]. cbn [isProcessing setQueue].
    rewrite Eflag, Hq. cbn [orb app]. rewrite bool_decide_eq_false_2 by done.
    set (w1 := setSvc (setProcessing true _) _).
    destruct (loopHead_frame w1) as (_ & _ & Hdr & _). cbv zeta in Hdr.
    assert (Hlen : length (started w1) = length (completed w1)).
    { pose proof (seq_lengths _ _ _ (core_seq _ _ HC)) as Hs. cbn in Hs.
      unfold w1. cbn. lia. }
    destruct (loopHead_ledger d0 w1) as [HL2 HT2]; [|done| | |].
    { eapply ledger_ext; [exact HL1|..]; unfold w1; cbn; first [done|lia]. }
    { unfold w1. cbn. intros t' [= <-]. by left. }
    { unfold w1. cbn. apply Forall_singleton. cbn. lia. }
    split.
    + eapply ledger_ext; [exact HL2|..]; cbn; first [done|lia].
    + cbn [drains setDrains]. rewrite Hdr. unfold w1 at 1. cbn [drains setSvc pushTask notePushed].
      rewrite Hd. cbn [option_list app]. intros dr Hin.
      destruct (loopHead w1).1 as [y|] eqn:E; cbn in Hin.
      * apply list_elem_of_singleton in Hin as ->.
        eapply timed_ext; [exact HT2|..]; cbn; first [done|lia|auto].
      * by apply elem_of_nil in Hin.
Qed.

Lemma withSend_dispatched b s f j :
  dispatchedAt <$> batchPromises (withSend b s f j) = dispatchedAt <$> batchPromises j.
Proof. unfold withSend. cbn. by apply fmap_alter_same. Qed.

Lemma audited_onEmail d0 d b s ok w :
  invariant w -> audited d0 w -> audited d0 (onEmail d b s ok w).
Proof.
  intros Hw [HL HT]. unfold onEmail.
  destruct (drains w !! d) as [[j|due]|] eqn:El; try done.
  destruct Hw as (od & Hd & [HC HD]).
  destruct (drains_lookup _ _ _ _ Hd El) as [-> ->]. cbn in HC, Hd.
  destruct (HT (InJob j)) as [(s0 & Hlast & Hwi) Hlive];
    [rewrite Hd; apply list_elem_of_here|].
  pose proof (seq_lengths _ _ _ (core_seq _ _ HC)) as Hlen. cbn in Hlen.
  destruct (resumeJob_ledger d0 (withSend b s (settleEmail ok) j) w s0) as [HL2 HT2];
    [done|lia|done| | |exact (core_queue_time _ _ HC)|].
  { eapply within_fmap; [apply withSend_dispatched|done]. }
  { by apply withSend_live, jobLive_sends. }
  eapply audited_putDrain; [exact Hd|apply resumeJob_drains|done|done].
Qed.

Lemma audited_onTimer d0 d w :
  invariant w -> audited d0 w -> audited d0 (onTimer d w).
Proof.
  intros Hw [HL HT]. unfold onTimer.
  destruct (drains w !! d) as [[j|due]|] eqn:El; try done.
  - destruct (jobWaits j) as [due|] eqn:Ew; [|done].
    destruct (Z.leb_spec due (clock w)) as [Hdue|]; [|done].
    destruct Hw as (od & Hd & [HC HD]).
    destruct (drains_lookup _ _ _ _ Hd El) as [-> ->]. cbn in HC, Hd.
    destruct (HT (InJob j)) as [(s0 & Hlast & Hwi) Hlive];
      [rewrite Hd; apply list_elem_of_here|].
    pose proof (seq_lengths _ _ _ (core_seq _ _ HC)) as Hlen. cbn in Hlen.
    set (j1 := {| jobTask := jobTask j; loopIndex := loopIndex j + maxBatchSize (svc w);
                  batchPromises := batchPromises j; jobWaits := AwaitDelay due |}).
    assert (Hs0 : s0 <= clock w).
    { pose proof (ledger_clock _ _ HL) as Hc. rewrite Forall_forall in Hc.
      apply (Hc (jobTask j, s0)). by apply last_Some_elem_of. }
    assert (Hin : jobTask j ∈ (started w).*1).
    { apply list_elem_of_fmap. exists (jobTask j, s0). split; [done|].
      by apply last_Some_elem_of. }
    destruct (loopTest_frame j1 w) as (F1 & F2 & F3 & F4 & F5 & F6 & F7 & F8).
    cbv zeta in *.
    destruct (resumeJob_ledger d0 (loopTest j1 w).1 (loopTest j1 w).2 s0) as [HL2 HT2].
    + by apply loopTest_ledger.
    + rewrite F7, F8. lia.
    + by rewrite F7, loopTest_task.
    + rewrite F1. by apply loopTest_within.
    + apply loopTest_live. exact (jobLive_sends j Hlive).
    + rewrite F1, F3. exact (core_queue_time _ _ HC).
    + eapply audited_putDrain; [exact Hd| |done|done].
      by rewrite resumeJob_drains, loopTest_drains.
  - destruct (Z.leb_spec due (clock w)) as [Hdue|]; [|done].
    destruct Hw as (od & Hd & [HC HD]).
    destruct (drains_lookup _ _ _ _ Hd El) as [-> ->]. cbn in HC, Hd.
    pose proof (seq_lengths _ _ _ (core_seq _ _ HC)) as Hlen. cbn in Hlen.
    destruct (HT (BetweenTasks due)) as (t & c & Hh & Hl & Hle);
      [rewrite Hd; apply list_elem_of_here|].
    destruct HD as (_ & _ & c' & Hl' & ->).
    rewrite Hl in Hl'. injection Hl' as <-.
    destruct (loopHead_ledger d0 w) as [HL2 HT2];
      [done|lia| |exact (core_queue_time _ _ HC)|].
    { intros t' Ht'. rewrite Hh in Ht'. injection Ht' as <-. right. by exists c. }
    eapply audited_putDrain; [exact Hd|apply loopHead_drains|done|done].
Qed.

Lemma audited_step d0 e w : invariant w -> audited d0 w -> audited d0 (step e w).
Proof.
  intros Hw HA. destruct e as [c|d b s ok|d|ms|k cand ag ok err pt]; cbn [step].
  - by apply audited_distribute.
  - by apply audited_onEmail.
  - by apply audited_onTimer.
  - destruct (Z.leb_spec 0 ms); [|done]. destruct HA as [HL HT]. split.
    + eapply ledger_ext; [exact HL|..]; cbn; first [done|lia].
    + intros dr Hdr. cbn in Hdr.
      eapply timed_ext; [exact (HT dr Hdr)|..]; cbn; first [done|lia|auto].
  - destruct HA as [HL HT]. split.
    + eapply ledger_ext; [exact HL|..]; cbn; first [done|lia].
    + intros dr Hdr. cbn in Hdr.
      eapply timed_ext; [exact (HT dr Hdr)|..]; cbn; first [done|lia|auto].
Qed.

Lemma run_snoc es e w : run (es ++ [e]) w = step e (run es w).
Proof. unfold run. by rewrite foldl_app. Qed.

Lemma audited_run t0 d es : audited d (run es (boot t0 d)).
Proof.
  induction es as [|e es IH] using rev_ind; [apply audited_boot|].
  rewrite run_snoc. apply audited_step; [|done].
  apply invariant_run, invariant_boot.
Qed.

(** The candidate of every task on the queue has passed the guard of
    [distributeCVToAgencies]: [sendCVToAgency] is called with candidates
    that have [positions] only. *)
Lemma queued_candidates_have_positions t0 d es :
  Forall (fun t => exists p ps, positions (taskCandidate t) = Some (p :: ps))
         (pushed (run es (boot t0 d))).
Proof.
  destruct (audited_run t0 d es) as [HL _].
  eapply Forall_impl; [apply (ledger_tasks _ _ HL)|]. by intros t [H _].
Qed.


Lemma spaced_span ts a k b :
  spaced ts -> ts !! 0%nat = Some a -> ts !! k = Some b ->
  a + interBatchDelay * Z.of_nat k <= b.
Proof.
  intros Hsp H0. revert b. induction k as [|k IH]; intros b Hk.
  - rewrite H0 in Hk. injection Hk as <-. lia.
  - destruct (ts !! k) as [x|] eqn:Ex.
    + specialize (IH x eq_refl). pose proof (Hsp k x b Ex Hk). lia.
    + apply lookup_ge_None in Ex. apply lookup_lt_Some in Hk. lia.
Qed.

Lemma ceilDiv_pos n size : (0 < n)%nat -> (0 < size)%nat -> (0 < ceilDiv n size)%nat.
Proof.
  intros Hn Hs. unfold ceilDiv. apply Nat.div_str_pos. lia.
Qed.


Lemma distribute_effect cand p ps w :
  positions cand = Some (p :: ps) ->
  let found := getEligibleAgencies (extractRegionFromCandidate cand) (clock w) (store w) in
  let r := distributeCVToAgencies (Some cand) w in
  r.1 = Returned {| resultSuccess := true; distributed := length found |}
  /\ clock r.2 = clock w /\ store r.2 = store w
  /\ pushed r.2
     = pushed w ++ (if decide (found = []) then []
                    else [{| taskCandidate := cand; agencies := found;
                             taskTimestamp := clock w;
                             taskId := (candidateId cand, clock w) |}]).
Proof.
  intros Hpos found r.
  assert (Hst : store r.2 = store w) by apply distribute_store.
  unfold r, distributeCVToAgencies in *. rewrite Hpos in *. fold found in Hst |- *.
  destruct found as [|a l] eqn:Ef.
  - cbn. by rewrite app_nil_r.
  - cbn [length Nat.eqb]. cbn [fst snd]. rewrite decide_False by done.
    cbn [length Nat.eqb snd] in Hst.
    split; [done|]. split; [|split; [exact Hst|]].
    + match goal with |- context [pushTask ?x w] => generalize x end; intros t.
      destruct (negb _); [|done]. unfold processDistributionQueue.
      destruct (_ || _); [done|]. cbn [clock setDrains].
      match goal with |- context [loopHead ?x] =>
        destruct (loopHead_frame x) as (-> & _) end. done.
    + match goal with |- context [pushTask ?x w] => generalize x end; intros t.
      destruct (negb _); [|done]. unfold processDistributionQueue.
      destruct (_ || _); [done|]. cbn [pushed setDrains].
      match goal with |- context [loopHead ?x] =>
        destruct (loopHead_frame x) as (_ & _ & _ & ->) end. done.
Qed.

(** X22 (distributeCVToAgencies). A call without a candidate, or with a
    candidate whose positions are missing or empty, throws "Invalid
    candidate data" and leaves the service as it was: nothing is resolved,
    queued or sent. Every other call returns, with [success] true. *)
Theorem invalid_candidate_throws c w :
  let r := distributeCVToAgencies c w in
  let invalid := match c with
                 | None => True
                 | Some cand => positions cand = None \/ positions cand = Some []
                 end in
  (invalid -> r = (Threw "Invalid candidate data", w))
  /\ (~ invalid ->
      exists n, r.1 = Returned {| resultSuccess := true; distributed := n |}).
Proof.
  intros r invalid. unfold r, invalid, distributeCVToAgencies.
  destruct c as [cand|]; [|split; [done|tauto]].
  destruct (positions cand) as [[|p ps]|].
  - split; [done|]. intros H. exfalso. apply H. by right.
  - split; [by intros [?|?]|]. intros _.
    destruct (length _ =? 0)%nat; eexists; reflexivity.
  - split; [done|]. intros H. exfalso. apply H. by left.
Qed.



(** X24 (processSingleDistribution, processBatch). In every reachable
    state, the sends of a finished job, batch after batch, are to the
    agencies of its task, each agency once and in the order of the task:
    no agency is skipped and none is sent to twice within a job. *)
Theorem every_agency_attempted_once t0 d es :
  Forall (fun c => attempted (doneBatches c) = agencies (doneTask c))
         (completed (run es (boot t0 d))).
Proof.
  destruct (invariant_run es _ (invariant_boot t0 d)) as (od & _ & [HC _]).
  eapply Forall_impl; [apply (core_done _ _ HC)|]. cbn.
  intros c (Hlen & Hsl & _ & Hok & _). unfold attempted.
  assert (Heq : (fun b => sendAgency <$> sends b) <$> doneBatches c
                = batchAgencies <$> doneBatches c).
  { apply Forall_fmap_ext. eapply Forall_impl; [exact Hok|]. cbn.
    by intros b [[? _] _]. }
  rewrite Heq. apply (sliced_total 100); [lia|done|].
  by rewrite length_fmap.
Qed.

(** X25 (distributeCVToAgencies, processBatch, sendCVToAgency). In every
    reachable state, every mail that has gone out is about the candidate
    of a task that was queued and goes to an address, marked active, of an
    agency of that task; and that agency is an approved and active
    recruitment agency that serves the region of the candidate and had a
    subscription in force when the task was created. *)
Theorem mail_goes_to_resolved_agencies t0 d es :
  let w := run es (boot t0 d) in
  Forall (fun m =>
            exists t a e,
              t ∈ pushed w /\ a ∈ agencies t
              /\ mailCandidate m = candidateId (taskCandidate t)
              /\ mailAgency m = _id (agency a)
              /\ e ∈ recruitmentEmails (agency a) /\ isActive e = true
              /\ mailTo m = email e
              /\ agencyQuery (extractRegionFromCandidate (taskCandidate t)) (agency a) = true
              /\ activeSubscription (taskTimestamp t) d (agency a))
         (outbox w).
Proof.
  intros w. destruct (audited_run t0 d es) as [HL _]. fold w in HL.
  destruct (invariant_run es _ (invariant_boot t0 d)) as (od & _ & [HC _]). fold w in HC.
  eapply Forall_impl; [apply (ledger_mail _ _ HL)|]. cbn.
  intros m (t & Ht & Hc & a & e & Ha & Hid & He & Hact & Hto).
  assert (Hp : t ∈ pushed w).
  { rewrite (core_fifo _ _ HC). apply elem_of_app. by left. }
  pose proof (proj1 (Forall_forall _ _) (ledger_tasks _ _ HL) t Hp) as (_ & _ & Hres).
  pose proof (proj1 (Forall_forall _ _) Hres a Ha) as (Hq & Hsub & _).
  exists t, a, e. split_and!; done.
Qed.

(** X26 (processBatch, updateDailyCount). Whatever the events, the service
    writes nothing to the store but the two counters of the agencies: the
    documents keep their ids and order, names, regions, flags, addresses
    and caps, and the subscriptions are as they were at start-up. *)
Theorem service_writes_only_counters t0 d es :
  let w := run es (boot t0 d) in
  profileOf <$> companies (store w) = profileOf <$> companies d
  /\ subscriptions (store w) = subscriptions d.
Proof.
  intros w. destruct (audited_run t0 d es) as [HL _]. fold w in HL.
  split; [apply (ledger_profiles _ _ HL)|apply (ledger_subscriptions _ _ HL)].
Qed.

(** X27 (processDistributionQueue, processSingleDistribution). In every
    reachable state the k-th job finished is the k-th job started, and it
    finished no earlier than its start plus the delays of its loop: 500 ms
    for each of its batches but the last. *)
Theorem job_takes_its_delays t0 d es :
  let w := run es (boot t0 d) in
  (length (completed w) <= length (started w))%nat
  /\ Forall (fun cs : completion * (task * Z) =>
               cs.2.1 = doneTask cs.1
               /\ cs.2.2
                  + interBatchDelay
                    * (Z.of_nat (ceilDiv (length (agencies (doneTask cs.1)))
                                   (maxBatchSize constructor)) - 1)
                  <= doneAt cs.1)
            (zip (completed w) (started w)).
Proof.
  intros w. destruct (audited_run t0 d es) as [HL _]. fold w in HL.
  destruct (invariant_run es _ (invariant_boot t0 d)) as (od & _ & [HC _]). fold w in HC.
  pose proof (seq_lengths _ _ _ (core_seq _ _ HC)) as Hlen.
  split; [lia|]. apply Forall_forall. intros [c [t s]] Hin.
  apply list_elem_of_lookup_1 in Hin as (k & Hk).
  apply lookup_zip_with_Some in Hk as (c' & ts & Heq & Hc & Hs).
  injection Heq as <- <-. cbn [fst snd].
  assert (Htask : t = doneTask c).
  { pose proof (core_seq _ _ HC) as Hseq.
    apply (f_equal (fun l => l !! k)) in Hseq.
    rewrite list_lookup_fmap, Hs in Hseq. cbn in Hseq.
    rewrite lookup_app_l in Hseq by (rewrite length_fmap; by eapply lookup_lt_Some).
    rewrite list_lookup_fmap, Hc in Hseq. cbn in Hseq. by injection Hseq. }
  split; [done|].
  pose proof (ledger_done _ _ HL k c (t, s) Hc Hs) as Hw. cbn in Hw.
  pose proof (proj1 (Forall_forall _ _) (core_done _ _ HC) c
                (list_elem_of_lookup_2 _ _ _ Hc)) as (HL1 & _ & Hsp & _).
  change (maxBatchSize constructor) with 100%nat. rewrite <- HL1.
  destruct (doneBatches c) as [|b0 bs] eqn:Eb.
  - cbn. pose proof (proj1 (Forall_forall _ _) (core_done_time _ _ HC) c
                       (list_elem_of_lookup_2 _ _ _ Hc)) as Hdt. cbn in Hdt.
    assert (Hp : t ∈ pushed w).
    { rewrite (core_fifo _ _ HC). apply elem_of_app. left.
      apply list_elem_of_fmap. exists (t, s). split; [done|].
      by eapply list_elem_of_lookup_2. }
    pose proof (proj1 (Forall_forall _ _) (ledger_tasks _ _ HL) t Hp) as (_ & Hne & _).
    exfalso. cbn [length] in HL1. rewrite Htask in Hne.
    destruct (agencies (doneTask c)) as [|a l]; [done|].
    pose proof (ceilDiv_pos (length (a :: l)) 100 ltac:(simpl; lia) ltac:(lia)). lia.
  - destruct (last (b0 :: bs)) as [bl|] eqn:El; [|by apply last_None in El].
    assert (Hlk : (dispatchedAt <$> b0 :: bs) !! length bs = Some (dispatchedAt bl)).
    { rewrite list_lookup_fmap. rewrite last_lookup in El. cbn in El. by rewrite El. }
    pose proof (spaced_span _ (dispatchedAt b0) _ _ Hsp eq_refl Hlk) as Hspan.
    unfold within in Hw. rewrite Forall_forall in Hw.
    pose proof (Hw b0 (list_elem_of_here _ _)) as H0.
    pose proof (Hw bl (last_Some_elem_of _ _ El)) as H1.
    cbn [length]. lia.
Qed.

Lemma putDrain_pushed d r : pushed (putDrain d r) = pushed r.2.
Proof. unfold putDrain. by destruct r.1. Qed.

Lemma step_pushed e w : exists l, pushed (step e w) = pushed w ++ l.
Proof.
  destruct e as [c|d b s ok|d|ms|k cand ag ok err pt]; cbn [step].
  - destruct c as [cand|]; [|exists []; by rewrite app_nil_r].
    destruct (positions cand) as [[|p ps]|] eqn:Hpos.
    + exists []. unfold distributeCVToAgencies. rewrite Hpos. by rewrite app_nil_r.
    + destruct (distribute_effect cand p ps w Hpos) as (_ & _ & _ & ->). by eexists.
    + exists []. unfold distributeCVToAgencies. rewrite Hpos. by rewrite app_nil_r.
  - exists []. rewrite app_nil_r. unfold onEmail.
    destruct (drains w !! d) as [[j|due]|]; try done.
    rewrite putDrain_pushed.
    by destruct (resumeJob_frame (withSend b s (settleEmail ok) j) w)
      as (_ & _ & _ & _ & -> & _).
  - exists []. rewrite app_nil_r. unfold onTimer.
    destruct (drains w !! d) as [[j|due]|]; try done.
    + destruct (jobWaits j); [|done]. destruct (_ <=? _); [|done].
      cbv zeta. rewrite putDrain_pushed.
      match goal with |- context [resumeJob ?a ?b] =>
        destruct (resumeJob_frame a b) as (_ & _ & _ & _ & -> & _) end.
      by rewrite loopTest_pushed.
    + destruct (_ <=? _); [|done]. rewrite putDrain_pushed.
      by destruct (loopHead_frame w) as (_ & _ & _ & ->).
  - exists []. rewrite app_nil_r. by destruct (0 <=? ms).
  - exists []. by rewrite app_nil_r.
Qed.

Lemma run_pushed es w : exists l, pushed (run es w) = pushed w ++ l.
Proof.
  induction es as [|e es IH] using rev_ind; [exists []; by rewrite app_nil_r|].
  rewrite run_snoc. destruct IH as (l & Hl). destruct (step_pushed e (run es w)) as (l' & Hl').
  exists (l ++ l'). by rewrite Hl', Hl, app_assoc.
Qed.

Lemma run_quiet_store es w : quiet es -> store (run es w) = store w.
Proof.
  induction es as [|e es IH] using rev_ind; [done|]. intros Hq.
  apply Forall_app in Hq as [Hq He]. apply Forall_inv in He as (ms & ->).
  rewrite run_snoc. cbn [step]. rewrite <- (IH Hq). by destruct (0 <=? ms).
Qed.

Lemma run_cons e es w : run (e :: es) w = run es (step e w).
Proof. done. Qed.

(** X28 (routes/candidates.js, distributeCVToAgencies). A submission is
    distributed twice: the route calls [distributeCVToAgencies] for the
    saved candidate before and again after the confirmation email, and the
    service keeps no record of what it has distributed. Whatever reaches
    the service in between, the second call resolves the agencies again,
    returns their number and, when there are any, queues a second task for
    the same candidate. When only time passes in between, the second call
    reads the counters as they were at the first. *)
Theorem submission_is_distributed_twice cand p ps between w :
  positions cand = Some (p :: ps) ->
  let region := extractRegionFromCandidate cand in
  let w1 := run (Distribute (Some cand) :: between) w in
  let first := getEligibleAgencies region (clock w) (store w) in
  let second := getEligibleAgencies region (clock w1) (store w1) in
  (distributeCVToAgencies (Some cand) w1).1
  = Returned {| resultSuccess := true; distributed := length second |}
  /\ (first <> [] -> second <> [] ->
      exists t1 mid t2,
        pushed (run (submission cand between) w) = pushed w ++ [t1] ++ mid ++ [t2]
        /\ taskCandidate t1 = cand /\ agencies t1 = first
        /\ taskCandidate t2 = cand /\ agencies t2 = second)
  /\ (quiet between -> store w1 = store w).
Proof.
  intros Hpos region w1 first second.
  destruct (distribute_effect cand p ps w Hpos) as (_ & _ & Hs1 & Hp1).
  destruct (distribute_effect cand p ps w1 Hpos) as (Hr2 & _ & _ & Hp2).
  cbv zeta in *. fold region first in Hp1. fold region second in Hr2, Hp2.
  split; [done|]. split.
  - intros Hf Hs. rewrite decide_False in Hp1 by done. rewrite decide_False in Hp2 by done.
    destruct (run_pushed between (step (Distribute (Some cand)) w)) as (mid & Hmid).
    eexists _, mid, _. split.
    + unfold submission. rewrite app_assoc, run_snoc. cbn [step].
      change (run ([Distribute (Some cand)] ++ between) w) with w1.
      rewrite Hp2. unfold w1. rewrite run_cons, Hmid. cbn [step]. rewrite Hp1.
      rewrite <- !app_assoc. reflexivity.
    + done.
  - intros Hq. unfold w1. rewrite run_cons, run_quiet_store by done. exact Hs1.
Qed.

Lemma submission_is_distributed_twice_witness :
  (distributeCVToAgencies (Some (Samples.southCandidate 7))
     (run [Distribute (Some (Samples.southCandidate 7)); Elapse 100]
        (boot Samples.now (Samples.agenciesDb 2)))).1
  = Returned {| resultSuccess := true; distributed := 2 |}.
Proof.
  exact (proj1 (submission_is_distributed_twice (Samples.southCandidate 7)
                  {| title := "developer"; experience := "3 years" |} [] [Elapse 100]
                  (boot Samples.now (Samples.agenciesDb 2)) eq_refl)).
Defined.


(** *** Progress *)

Lemma run_app es es' w : run (es ++ es') w = run es' (run es w).
Proof. unfold run. by rewrite foldl_app. Qed.

Lemma good_run d0 es w :
  invariant w -> audited d0 w -> invariant (run es w) /\ audited d0 (run es w).
Proof.
  revert w. induction es as [|e es IH]; intros w Hi Ha; [done|].
  rewrite run_cons. apply IH; [by apply invariant_step|by apply audited_step].
Qed.

Lemma internal_pushed e w : internal e -> pushed (step e w) = pushed w.
Proof.
  destruct e as [c|d b s ok|d|ms|k cand ag ok err pt]; cbn [step internal]; try done; intros _.
  - unfold onEmail. destruct (drains w !! d) as [[j|due]|]; try done.
    rewrite putDrain_pushed.
    by destruct (resumeJob_frame (withSend b s (settleEmail ok) j) w)
      as (_ & _ & _ & _ & -> & _).
  - unfold onTimer. destruct (drains w !! d) as [[j|due]|]; try done.
    + destruct (jobWaits j); [|done]. destruct (_ <=? _); [|done].
      cbv zeta. rewrite putDrain_pushed.
      match goal with |- context [resumeJob ?a ?b] =>
        destruct (resumeJob_frame a b) as (_ & _ & _ & _ & -> & _) end.
      by rewrite loopTest_pushed.
    + destruct (_ <=? _); [|done]. rewrite putDrain_pushed.
      by destruct (loopHead_frame w) as (_ & _ & _ & ->).
  - by destruct (0 <=? ms).
Qed.

Lemma internal_run_pushed es w : Forall internal es -> pushed (run es w) = pushed w.
Proof.
  revert w. induction es as [|e es IH]; intros w H; [done|].
  apply Forall_cons in H as [He Hes]. by rewrite run_cons, IH, internal_pushed.
Qed.

Lemma inv_shape w x :
  invariant w -> drains w = [x] -> Inv (Some x) w.
Proof.
  intros (od & Hd & HI) Hx. rewrite Hx in Hd.
  destruct od as [y|]; [|done]. by injection Hd as ->.
Qed.

Lemma putDrain_drains r x :
  drains r.2 = [x] -> drains (putDrain 0 r) = option_list r.1.
Proof. intros H. unfold putDrain. destruct r.1; cbn; by rewrite H. Qed.

Lemma putDrain_completed d r : completed (putDrain d r) = completed r.2.
Proof. unfold putDrain. by destruct r.1. Qed.

Lemma resumeJob_cases j w :
  let r := resumeJob j w in
  (r.1 = Some (InJob (withBatches (resolveBatches (clock w) (batchPromises j) (store w)).1 j))
   /\ completed r.2 = completed w)
  \/ (jobWaits j = AwaitAllSettled
      /\ (r.1 = None \/ exists due, r.1 = Some (BetweenTasks due))
      /\ exists c, completed r.2 = completed w ++ [c]).
Proof.
  unfold resumeJob. cbn [jobWaits withBatches].
  destruct (jobWaits j) eqn:Ew; [by left|].
  destruct (forallb _ _); [|by left]. right. split; [done|].
  unfold afterTask. cbn [svc noteCompleted setStore].
  destruct (distributionQueue (svc w)); cbn [fst snd].
  - split; [by left|]. by eexists.
  - split; [right; by eexists|]. by eexists.
Qed.

Lemma resolveBatches_sends now bs d :
  sends <$> (resolveBatches now bs d).1 = sends <$> bs.
Proof.
  revert d. induction bs as [|b bs IH]; intros d; [done|].
  cbn [resolveBatches]. cbv zeta. cbn [fst]. rewrite !fmap_cons, IH.
  by destruct (resolveBatch_frame now b d) as (_ & -> & _).
Qed.

Lemma owed_sends j j' :
  sends <$> batchPromises j' = sends <$> batchPromises j -> owed j' = owed j.
Proof.
  intros H. unfold owed.
  change (fun b => sum_list (outstanding <$> sends b))
    with ((fun ss => sum_list (outstanding <$> ss)) ∘ sends).
  rewrite !list_fmap_compose. by rewrite H.
Qed.

Lemma sum_list_fmap_alter {A} (f : A -> nat) (g : A -> A) i l x :
  l !! i = Some x ->
  (sum_list (f <$> alter g i l) + f x = sum_list (f <$> l) + f (g x))%nat.
Proof.
  revert i. induction l as [|y l IH]; intros i Hi; [done|].
  destruct i as [|i]; cbn in *.
  - injection Hi as ->. lia.
  - specialize (IH i Hi). lia.
Qed.

Lemma owed_withSend b s ok j bt sd n :
  batchPromises j !! b = Some bt -> sends bt !! s = Some sd -> outstanding sd = S n ->
  (owed (withSend b s (settleEmail ok) j) + 1 = owed j)%nat.
Proof.
  intros Hb Hs Hn. unfold owed, withSend. cbn [batchPromises withBatches].
  pose proof (sum_list_fmap_alter outstanding (settleEmail ok) s (sends bt) sd Hs) as H1.
  assert (Hout : outstanding (settleEmail ok sd) = n).
  { unfold settleEmail. by rewrite Hn. }
  rewrite Hout, Hn in H1.
  pose proof (sum_list_fmap_alter (fun b0 => sum_list (outstanding <$> sends b0))
                (fun bt0 => {| batchAgencies := batchAgencies bt0;
                               sends := alter (settleEmail ok) s (sends bt0);
                               batchPromise := batchPromise bt0;
                               dispatchedAt := dispatchedAt bt0 |})
                b (batchPromises j) bt Hb) as H2.
  cbn [sends] in H2. lia.
Qed.

Lemma settle_step d0 w j :
  invariant w -> audited d0 w -> drains w = [InJob j] -> jobWaits j = AwaitAllSettled ->
  exists b s,
    (length (completed (step (EmailSettles 0 b s true) w)) = S (length (completed w))
     /\ (drains (step (EmailSettles 0 b s true) w) = []
         \/ exists due, drains (step (EmailSettles 0 b s true) w) = [BetweenTasks due]))
    \/ (exists j', drains (step (EmailSettles 0 b s true) w) = [InJob j']
                   /\ jobWaits j' = AwaitAllSettled /\ (owed j' < owed j)%nat).
Proof.
  intros Hi [_ HT] Hd Hw.
  destruct (HT (InJob j)) as [_ [Hall Hpend]]; [rewrite Hd; apply list_elem_of_here|].
  destruct (Hpend Hw) as (bt & Hbt & Hp).
  apply list_elem_of_lookup_1 in Hbt as (b & Hb).
  pose proof (proj1 (Forall_forall _ _) Hall bt (list_elem_of_lookup_2 _ _ _ Hb))
    as [Hlive Hns].
  destruct (forallb_false_exists _ _ (Hns Hp)) as (sd & Hsd & Hset).
  apply list_elem_of_lookup_1 in Hsd as (s & Hs).
  assert (Hsp : sendPromise sd = Pending) by (by destruct (sendPromise sd)).
  pose proof (proj1 (Forall_forall _ _) Hlive sd (list_elem_of_lookup_2 _ _ _ Hs) Hsp)
    as Hout.
  destruct (outstanding sd) as [|n] eqn:En; [lia|].
  exists b, s. cbn [step]. unfold onEmail. rewrite Hd. cbn [lookup list_lookup].
  set (j1 := withSend b s (settleEmail true) j).
  assert (Hdr : drains (resumeJob j1 w).2 = [InJob j])
    by (by rewrite resumeJob_drains).
  rewrite (putDrain_drains _ _ Hdr), putDrain_completed.
  destruct (resumeJob_cases j1 w) as [[Hr Hc]|(_ & Hr & c & Hc)]; cbv zeta in *.
  - right. eexists. rewrite Hr. split; [reflexivity|]. split; [done|].
    rewrite (owed_sends j1) by apply resolveBatches_sends.
    pose proof (owed_withSend b s true j bt sd n Hb Hs En). fold j1 in H. lia.
  - left. rewrite Hc, length_app. cbn. split; [lia|].
    destruct Hr as [->|(due & ->)]; [by left|right; by eexists].
Qed.

Lemma settle_all d0 n : forall w j,
  invariant w -> audited d0 w -> drains w = [InJob j] -> jobWaits j = AwaitAllSettled ->
  (owed j <= n)%nat ->
  exists es, Forall internal es
    /\ length (completed (run es w)) = S (length (completed w))
    /\ (drains (run es w) = [] \/ exists due, drains (run es w) = [BetweenTasks due]).
Proof.
  induction n as [|n IH]; intros w j Hi Ha Hd Hw Hn;
    destruct (settle_step d0 w j Hi Ha Hd Hw) as (b & s & [[Hc Hdr]|(j' & Hd' & Hw' & Ho)]).
  - exists [EmailSettles 0 b s true]. split; [by repeat constructor|]. done.
  - lia.
  - exists [EmailSettles 0 b s true]. split; [by repeat constructor|]. done.
  - destruct (IH (step (EmailSettles 0 b s true) w) j') as (es & Hes & Hc & Hdr);
      [by apply invariant_step|by apply audited_step|done|done|lia|].
    assert (Hsame : completed (step (EmailSettles 0 b s true) w) = completed w).
    { cbn [step]. unfold onEmail. rewrite Hd. cbn [lookup list_lookup].
      rewrite putDrain_completed.
      destruct (resumeJob_cases (withSend b s (settleEmail true) j) w)
        as [[_ Hcc]|(_ & Hr & c & Hcc)]; cbv zeta in *; [done|].
      exfalso. cbn [step] in Hd'. unfold onEmail in Hd'. rewrite Hd in Hd'.
      cbn [lookup list_lookup] in Hd'.
      rewrite (putDrain_drains _ (InJob j)) in Hd' by (by rewrite resumeJob_drains).
      destruct Hr as [Hr|(due & Hr)]; by rewrite Hr in Hd'. }
    exists (EmailSettles 0 b s true :: es). split; [by constructor|].
    rewrite run_cons, Hc, Hsame. done.
Qed.

Lemma elapse_to due w :
  let w1 := step (Elapse (Z.max 0 (due - clock w))) w in
  w1 = setClock (clock w + Z.max 0 (due - clock w)) w /\ due <= clock w1.
Proof.
  cbn [step]. replace (0 <=? Z.max 0 (due - clock w)) with true
    by (symmetry; apply Z.leb_le; lia).
  split; [done|]. cbn. lia.
Qed.

Lemma timer_step d0 w j due :
  invariant w -> audited d0 w -> drains w = [InJob j] -> jobWaits j = AwaitDelay due ->
  let w' := run [Elapse (Z.max 0 (due - clock w)); TimerFires 0] w in
  (length (completed w') = S (length (completed w))
   /\ (drains w' = [] \/ exists due', drains w' = [BetweenTasks due']))
  \/ (exists j', drains w' = [InJob j'] /\ completed w' = completed w
                 /\ jobTask j' = jobTask j
                 /\ (loopIndex j' = loopIndex j + 100)%nat
                 /\ (loopIndex j' < length (agencies (jobTask j)))%nat).
Proof.
  intros Hi Ha Hd Hw w'.
  destruct (inv_shape _ _ Hi Hd) as [HC [_ Hj]].
  destruct Hj as (_ & _ & _ & Hwait). rewrite Hw in Hwait.
  destruct Hwait as (_ & _ & Hmore).
  pose proof (core_size _ _ HC) as Hsize.
  destruct (elapse_to due w) as [Hw1 Hdue]. cbv zeta in *.
  unfold w', run. cbn [foldl]. rewrite Hw1 in *.
  set (w1 := setClock (clock w + Z.max 0 (due - clock w)) w) in *.
  cbn [step]. unfold onTimer.
  change (drains w1) with (drains w). rewrite Hd. cbn [lookup list_lookup].
  rewrite Hw. replace (due <=? clock w1) with true by (symmetry; by apply Z.leb_le).
  cbv zeta. change (svc w1) with (svc w). rewrite Hsize.
  set (j1 := {| jobTask := jobTask j; loopIndex := loopIndex j + 100;
                batchPromises := batchPromises j; jobWaits := AwaitDelay due |}).
  assert (Hlt : (loopIndex j1 <? length (agencies (jobTask j1)))%nat = true)
    by (apply Nat.ltb_lt; cbn; lia).
  assert (Hl1 : jobTask (loopTest j1 w1).1 = jobTask j
                /\ loopIndex (loopTest j1 w1).1 = (loopIndex j + 100)%nat).
  { unfold loopTest. rewrite Hlt. done. }
  destruct Hl1 as [Ht1 Hi1].
  assert (Hdr : drains (resumeJob (loopTest j1 w1).1 (loopTest j1 w1).2).2 = [InJob j])
    by (by rewrite resumeJob_drains, loopTest_drains).
  rewrite (putDrain_drains _ _ Hdr), putDrain_completed.
  destruct (resumeJob_cases (loopTest j1 w1).1 (loopTest j1 w1).2)
    as [[Hr Hc]|(_ & Hr & c & Hc)]; cbv zeta in *.
  - right. eexists. rewrite Hr. split; [reflexivity|].
    rewrite Hc, loopTest_completed. cbn [withBatches jobTask loopIndex].
    rewrite Ht1, Hi1. split_and!; first [done|lia].
  - left. rewrite Hc, loopTest_completed, length_app. cbn. split; [lia|].
    destruct Hr as [->|(due' & ->)]; [by left|right; by eexists].
Qed.

Lemma finish_job d0 n : forall w j,
  invariant w -> audited d0 w -> drains w = [InJob j] ->
  (length (agencies (jobTask j)) - loopIndex j <= n)%nat ->
  exists es, Forall internal es
    /\ length (completed (run es w)) = S (length (completed w))
    /\ (drains (run es w) = [] \/ exists due, drains (run es w) = [BetweenTasks due]).
Proof.
  induction n as [|n IH]; intros w j Hi Ha Hd Hn.
  - destruct (jobWaits j) as [due|] eqn:Hw.
    + destruct (timer_step d0 w j due Hi Ha Hd Hw)
        as [[Hc Hdr]|(j' & _ & _ & _ & Hidx & Hlt)]; cbv zeta in *.
      * eexists. split; [|split; [exact Hc|exact Hdr]]. by repeat constructor.
      * lia.
    + by apply (settle_all d0 (owed j) w j).
  - destruct (jobWaits j) as [due|] eqn:Hw.
    + destruct (timer_step d0 w j due Hi Ha Hd Hw)
        as [[Hc Hdr]|(j' & Hd' & Hc' & Ht' & Hidx & Hlt)]; cbv zeta in *.
      * eexists. split; [|split; [exact Hc|exact Hdr]]. by repeat constructor.
      * set (pre := [Elapse (Z.max 0 (due - clock w)); TimerFires 0]) in *.
        destruct (good_run d0 pre w Hi Ha) as [Hi' Ha'].
        destruct (IH (run pre w) j' Hi' Ha' Hd') as (es & Hes & Hc & Hdr).
        { rewrite Ht', Hidx. lia. }
        exists (pre ++ es). split.
        -- apply Forall_app. split; [by repeat constructor|done].
        -- rewrite run_app, Hc, Hc'. done.
    + by apply (settle_all d0 (owed j) w j).
Qed.

Lemma between_step d0 w due :
  invariant w -> audited d0 w -> drains w = [BetweenTasks due] ->
  let w' := run [Elapse (Z.max 0 (due - clock w)); TimerFires 0] w in
  (completed w' = completed w /\ exists j', drains w' = [InJob j'])
  \/ (length (completed w') = S (length (completed w))
      /\ (drains w' = [] \/ exists due', drains w' = [BetweenTasks due'])).
Proof.
  intros Hi Ha Hd w'.
  destruct (inv_shape _ _ Hi Hd) as [HC (_ & Hq & _)].
  destruct (elapse_to due w) as [Hw1 Hdue]. cbv zeta in *.
  unfold w', run. cbn [foldl]. rewrite Hw1 in *.
  set (w1 := setClock (clock w + Z.max 0 (due - clock w)) w) in *.
  cbn [step]. unfold onTimer.
  change (drains w1) with (drains w). rewrite Hd. cbn [lookup list_lookup].
  replace (due <=? clock w1) with true by (symmetry; by apply Z.leb_le).
  assert (Hdr : drains (loopHead w1).2 = [BetweenTasks due])
    by (by rewrite loopHead_drains).
  rewrite (putDrain_drains _ _ Hdr), putDrain_completed.
  unfold loopHead, shiftTask. change (svc w1) with (svc w).
  destruct (distributionQueue (svc w)) as [|t q] eqn:Eq; [done|]. cbv zeta.
  set (w2 := noteStarted t (setSvc (setQueue q (svc w)) w1)).
  destruct (processSingleDistribution_frame t w2) as (_ & _ & _ & _ & _ & _ & _ & G8).
  destruct (resumeJob_cases (processSingleDistribution t w2).1
              (processSingleDistribution t w2).2)
    as [[Hr Hc]|(_ & Hr & c & Hc)]; cbv zeta in *.
  - left. rewrite Hr, Hc, G8. split; [done|]. by eexists.
  - right. rewrite Hc, G8, length_app. cbn. split; [lia|].
    destruct Hr as [->|(due' & ->)]; [by left|right; by eexists].
Qed.

Lemma drain_all d0 n : forall w,
  invariant w -> audited d0 w ->
  (2 * (length (pushed w) - length (completed w))
   + match drains w with [BetweenTasks _] => 1 | _ => 0 end <= n)%nat ->
  exists es, Forall internal es /\ drains (run es w) = [].
Proof.
  induction n as [n IH] using lt_wf_ind. intros w Hi Ha Hn.
  destruct (drains w) as [|x [|y l]] eqn:Hd.
  - exists []. split; [constructor|done].
  - destruct (inv_shape _ _ Hi Hd) as [HC HD].
    pose proof (seq_lengths _ _ _ (core_seq _ _ HC)) as Hlen.
    pose proof (f_equal length (core_fifo _ _ HC)) as Hp.
    rewrite length_app, length_fmap in Hp.
    destruct x as [j|due].
    + cbn in Hlen.
      destruct (finish_job d0 _ w j Hi Ha Hd (Nat.le_refl _)) as (es & Hes & Hc & Hdr).
      destruct (good_run d0 es w Hi Ha) as [Hi' Ha'].
      destruct (IH (n - 1)%nat ltac:(lia) (run es w) Hi' Ha') as (es' & Hes' & Hdone).
      { rewrite internal_run_pushed, Hc by done.
        destruct Hdr as [->|(due & ->)]; lia. }
      exists (es ++ es'). split; [by apply Forall_app|]. by rewrite run_app.
    + cbn in Hlen, HD. destruct HD as (_ & Hq & _).
      assert (Hqlen : (0 < length (distributionQueue (svc w)))%nat)
        by (destruct (distributionQueue (svc w)); [done|cbn; lia]).
      set (pre := [Elapse (Z.max 0 (due - clock w)); TimerFires 0]).
      assert (Hpre : Forall internal pre) by (by repeat constructor).
      destruct (good_run d0 pre w Hi Ha) as [Hi' Ha'].
      destruct (between_step d0 w due Hi Ha Hd) as [[Hc (j' & Hd')]|[Hc Hdr]];
        cbv zeta in *; fold pre in Hc.
      * fold pre in Hd'.
        destruct (IH (n - 1)%nat ltac:(lia) (run pre w) Hi' Ha') as (es' & Hes' & Hdone).
        { rewrite internal_run_pushed, Hc, Hd' by done. lia. }
        exists (pre ++ es'). split; [by apply Forall_app|]. by rewrite run_app.
      * fold pre in Hdr.
        destruct (IH (n - 1)%nat ltac:(lia) (run pre w) Hi' Ha') as (es' & Hes' & Hdone).
        { rewrite internal_run_pushed, Hc by done.
          destruct Hdr as [->|(due' & ->)]; lia. }
        exists (pre ++ es'). split; [by apply Forall_app|]. by rewrite run_app.
  - exfalso. destruct Hi as (od & Hod & _). rewrite Hd in Hod. by destruct od.
Qed.

(** X29 (processDistributionQueue, processSingleDistribution, processBatch).
    The service never gets stuck. From every reachable state there is a
    continuation by events of the timers and of the mail service alone, no
    new call among them, after which the loop of the queue has ended: the
    flag is cleared, the queue is empty, and every task that was ever
    queued has been processed to its end, in the order of the queue. *)
Theorem queue_can_always_drain t0 d es :
  exists es',
    Forall internal es'
    /\ drains (run (es ++ es') (boot t0 d)) = []
    /\ isProcessing (svc (run (es ++ es') (boot t0 d))) = false
    /\ distributionQueue (svc (run (es ++ es') (boot t0 d))) = []
    /\ doneTask <$> completed (run (es ++ es') (boot t0 d))
       = pushed (run es (boot t0 d)).
Proof.
  pose proof (invariant_run es _ (invariant_boot t0 d)) as Hi.
  pose proof (audited_run t0 d es) as Ha.
  destruct (drain_all d _ (run es (boot t0 d)) Hi Ha (Nat.le_refl _))
    as (es' & Hes' & Hd).
  exists es'. rewrite run_app. split; [done|]. split; [done|].
  destruct (good_run d es' _ Hi Ha) as [(od & Hod & [HC HD]) _].
  rewrite Hd in Hod. destruct od as [x|]; [done|]. cbn in HC, HD.
  destruct HD as [Hflag Hq]. split; [done|]. split; [done|].
  rewrite <- (internal_run_pushed es' (run es (boot t0 d))) by done.
  rewrite (core_fifo _ _ HC), (core_seq _ _ HC), Hq, !app_nil_r. done.
Qed.

End ServiceAudit.

(** ** The service in its runs *)

Module ServiceRuns.
Import Service Invariants ServiceFacts Audit ServiceAudit.

Lemma resolveBatch_idle now b d :
  (batchPromise b = Pending -> allSettled b = false) -> resolveBatch now b d = (b, d).
Proof.
  intros H. unfold resolveBatch. destruct (batchPromise b); try done. by rewrite H.
Qed.

Lemma resolveBatches_idle now bs d :
  Forall (fun b => batchPromise b = Pending -> allSettled b = false) bs ->
  resolveBatches now bs d = (bs, d).
Proof.
  induction 1 as [|b bs Hb _ IH]; [done|]. cbn [resolveBatches]. cbv zeta.
  rewrite (resolveBatch_idle now b d Hb). cbn [fst snd]. by rewrite IH.
Qed.

(** When one batch only can resolve, the batches resolve as that one. *)
Lemma resolveBatches_only now bs d b bt :
  bs !! b = Some bt ->
  (forall b' x, b' <> b -> bs !! b' = Some x ->
                batchPromise x = Pending -> allSettled x = false) ->
  resolveBatches now bs d
  = (<[b := (resolveBatch now bt d).1]> bs, (resolveBatch now bt d).2).
Proof.
  revert b d. induction bs as [|x bs IH]; intros [|b] d Hb Hothers; try done.
  - injection Hb as ->. cbn [resolveBatches]. cbv zeta.
    rewrite (resolveBatches_idle now bs); [done|].
    apply Forall_lookup. intros i y Hy. by apply (Hothers (S i)).
  - cbn [resolveBatches]. cbv zeta.
    rewrite (resolveBatch_idle now x) by (by apply (Hothers 0%nat)). cbn [fst snd].
    rewrite (IH b d Hb); [done|].
    intros b' y Hne Hy. apply (Hothers (S b')); [lia|done].
Qed.

(** What the settlement of a mail leaves: the batches of the job, resolved
    where they can be, and the store after their tallies. *)
Lemma onEmail_batches dn b s ok j w :
  invariant w -> drains w !! dn = Some (InJob j) ->
  let r := resolveBatches (clock w) (batchPromises (withSend b s (settleEmail ok) j))
             (store w) in
  currentBatches (onEmail dn b s ok w) = r.1 /\ store (onEmail dn b s ok w) = r.2.
Proof.
  intros (od & Hd & _) El. destruct (drains_lookup _ _ _ _ Hd El) as [-> ->].
  cbn in Hd. cbv zeta. unfold onEmail. rewrite El.
  set (j1 := withSend b s (settleEmail ok) j).
  unfold putDrain, resumeJob, currentBatches. cbn [jobWaits withBatches].
  destruct (jobWaits j1); [cbn; by rewrite Hd|].
  destruct (forallb _ _); [|cbn; by rewrite Hd].
  unfold afterTask, finishLoop. cbn [svc noteCompleted setStore].
  destruct (distributionQueue (svc w)); cbn; rewrite Hd; cbn; by rewrite last_snoc.
Qed.

Lemma withSend_lookup b s ok j bt :
  batchPromises (withSend b s (settleEmail ok) j) !! b = Some bt ->
  exists bt0, batchPromises j !! b = Some bt0
    /\ batchAgencies bt = batchAgencies bt0
    /\ sendAgency <$> sends bt = sendAgency <$> sends bt0.
Proof.
  unfold withSend. cbn [batchPromises withBatches]. rewrite list_lookup_alter_eq.
  destruct (batchPromises j !! b) as [bt0|]; [|done]. cbn. intros [= <-].
  exists bt0. split; [done|]. split; [done|]. cbn.
  apply fmap_alter_same. intros x _. apply settleEmail_agency.
Qed.

Lemma filter_length_pos {A} (f : A -> bool) l x :
  x ∈ l -> f x = true -> (0 < length (List.filter f l))%nat.
Proof.
  intros Hin Hx. induction Hin as [x l|x y l _ IH]; cbn.
  - rewrite Hx. cbn. lia.
  - destruct (f y); cbn; [lia|by apply IH].
Qed.

Lemma filter_length_lt {A} (f : A -> bool) l x :
  x ∈ l -> f x = false -> (length (List.filter f l) < length l)%nat.
Proof.
  intros Hin Hx. induction Hin as [x l|x y l _ IH]; cbn.
  - rewrite Hx. pose proof (MonitorFacts.length_bfilter_le f l). lia.
  - specialize (IH Hx). destruct (f y); cbn; lia.
Qed.

(** From every state that the service reaches, the events of the timers
    and of the mail service can take every task pushed so far to its
    end, each agency of each task counted once. *)
Lemma every_task_can_finish d0 w :
  invariant w -> audited d0 w ->
  exists es,
    Forall internal es
    /\ doneTask <$> completed (run es w) = pushed w
    /\ Forall (fun c => (success (doneCounts c) + errors (doneCounts c)
                         = length (agencies (doneTask c)))%nat)
              (completed (run es w)).
Proof.
  intros Hi Ha.
  destruct (drain_all d0 _ w Hi Ha (Nat.le_refl _)) as (es & Hes & Hd).
  exists es. split; [done|].
  destruct (good_run d0 es _ Hi Ha) as [(od & Hod & [HC HD]) _].
  rewrite Hd in Hod. destruct od as [x|]; [done|]. cbn in HC, HD.
  destruct HD as [_ Hq]. split.
  - rewrite <- (internal_run_pushed es w) by done.
    rewrite (core_fifo _ _ HC), (core_seq _ _ HC), Hq, !app_nil_r. done.
  - eapply Forall_impl; [apply (core_done _ _ HC)|]. cbn.
    by intros c (_ & _ & _ & _ & Hsum & _).
Qed.

(** C4. A failed send is isolated. When the sends of a batch have
    settled, [processBatch] counts each fulfilled send as a success and
    every other as an error, and never rejects. With agencies of distinct
    ids, if the send to A was rejected and the send to B fulfilled, the
    document of B has gone through the quota update exactly once and the
    document of A is as before. The settlement of one send changes no
    other send. Every finished job has all its batch promises fulfilled
    and has counted each of its agencies once, as a success or as an
    error. In the running service, at any point of any run: when the
    settlement of a mail leaves a batch of the running job with all its
    sends settled, the send to A rejected and the send to B fulfilled, the
    step of the service that takes this settlement writes the store: the
    document of B is the one before the step after one quota update at
    the clock of the step, the document of A is the one before the step,
    and the promise of the batch is fulfilled, not rejected, with the
    fulfilled sends as successes, at least the one to B, and the others
    as errors, at least the one to A; and the step that takes the
    settlement of a mail, delivered or failed, leaves every other send of
    the job, in the same batch or in another, as it was; and after the
    step that takes a failed mail the timers and the mail service can
    still take every task pushed so far to its end, the tasks behind the
    one with the failure among them, with each agency of each task
    counted once. *)
Theorem failure_is_isolated :
  (forall now ags (ss : list send) d,
     length ags = length ss ->
     let r := tally now ags (sendPromise <$> ss) d in
     success r.1 = length (List.filter (fun s => isFulfilled (sendPromise s)) ss)
     /\ (success r.1 + errors r.1 = length ss)%nat)
  /\ (forall now ags results d i j A B v,
        NoDup (agencyIds ags) ->
        ags !! i = Some A -> results !! i = Some Rejected ->
        ags !! j = Some B -> results !! j = Some (Fulfilled v) ->
        let d' := (tally now ags results d).2 in
        findById (_id (agency B)) d'
        = quotaUpdate (_id (agency B)) now <$> findById (_id (agency B)) d
        /\ findById (_id (agency A)) d' = findById (_id (agency A)) d)
  /\ (forall b s ok j b' s',
        (b', s') <> (b, s) ->
        (batchPromises (withSend b s (settleEmail ok) j) !! b')
          ≫= (fun bt => sends bt !! s')
        = (batchPromises j !! b') ≫= (fun bt => sends bt !! s'))
  /\ (forall t0 d es,
        Forall (fun c =>
                  Forall (fun b => isFulfilled (batchPromise b) = true) (doneBatches c)
                  /\ (success (doneCounts c) + errors (doneCounts c)
                      = length (agencies (doneTask c)))%nat
                  /\ success (doneCounts c)
                     = sum_list (fulfilledSends <$> doneBatches c))
               (completed (run es (boot t0 d))))
  /\ (forall t0 d es dn b s ok j bt i k sA sB v,
        let w := run es (boot t0 d) in
        let w' := step (EmailSettles dn b s ok) w in
        let A := _id (agency (sendAgency sA)) in
        let B := _id (agency (sendAgency sB)) in
        drains w !! dn = Some (InJob j) ->
        batchPromises (withSend b s (settleEmail ok) j) !! b = Some bt ->
        batchPromise bt = Pending -> allSettled bt = true ->
        NoDup (agencyIds (batchAgencies bt)) ->
        sends bt !! i = Some sA -> sendPromise sA = Rejected ->
        sends bt !! k = Some sB -> sendPromise sB = Fulfilled v ->
        findById B (store w') = quotaUpdate B (clock w) <$> findById B (store w)
        /\ findById A (store w') = findById A (store w)
        /\ exists bt' c,
             currentBatches w' !! b = Some bt'
             /\ sends bt' = sends bt /\ batchPromise bt' = Fulfilled c
             /\ success c = fulfilledSends bt
             /\ (success c + errors c = length (sends bt))%nat
             /\ (0 < success c)%nat /\ (0 < errors c)%nat)
  /\ (forall t0 d es dn b s ok j b' s',
        let w := run es (boot t0 d) in
        let w' := step (EmailSettles dn b s ok) w in
        drains w !! dn = Some (InJob j) ->
        (b', s') <> (b, s) ->
        (currentBatches w' !! b') ≫= (fun bt => sends bt !! s')
        = (batchPromises j !! b') ≫= (fun bt => sends bt !! s'))
  /\ (forall t0 d es dn b s,
        let w' := step (EmailSettles dn b s false) (run es (boot t0 d)) in
        exists es',
          Forall internal es'
          /\ doneTask <$> completed (run es' w') = pushed w'
          /\ Forall (fun c => (success (doneCounts c) + errors (doneCounts c)
                               = length (agencies (doneTask c)))%nat)
                    (completed (run es' w'))).
Proof.
  split_and!.
  - intros now ags ss d Hlen. by apply tally_counts.
  - intros now ags results d i j A B v Hnd HA HrA HB HrB.
    by apply (tally_quota now ags results d i j A B v).
  - intros b s ok j b' s' Hne. by apply withSend_other.
  - intros t0 d es.
    destruct (invariant_run es _ (invariant_boot t0 d)) as (od & _ & [HC _]).
    eapply Forall_impl; [apply (core_done _ _ HC)|]. cbn.
    intros c (_ & _ & _ & Hful & Hsum & Hsucc). split_and!; [|done|done].
    eapply Forall_impl; [exact Hful|]. cbn. tauto.
  - intros t0 d es dn b s ok j bt i k sA sB v w w' A B El Hbt Hpend Hall Hnd
      HsA HpA HsB HpB.
    pose proof (invariant_run es _ (invariant_boot t0 d)) as Hinv. fold w in Hinv.
    destruct (audited_run t0 d es) as [_ HT]. fold w in HT.
    destruct (HT (InJob j)) as [_ [Hlive _]]; [by eapply list_elem_of_lookup_2|].
    destruct (onEmail_batches dn b s ok j w Hinv El) as [Hcur Hst]. cbv zeta in *.
    change (step (EmailSettles dn b s ok) w) with (onEmail dn b s ok w) in w'.
    fold w' in Hcur, Hst.
    destruct (withSend_lookup _ _ _ _ _ Hbt) as (bt0 & Hbt0 & Hag & Hsa).
    assert (Hok : sendAgency <$> sends bt = batchAgencies bt).
    { destruct Hinv as (od & Hd & [_ HD]).
      destruct (drains_lookup _ _ _ _ Hd El) as [-> ->]. destruct HD as [_ (Hoks & _)].
      rewrite Forall_lookup in Hoks. destruct (Hoks _ _ Hbt0) as [Hb0 _].
      by rewrite Hsa, Hag. }
    rewrite (resolveBatches_only _ _ _ b bt Hbt) in Hcur, Hst.
    2,3: (intros b' x Hne Hx; unfold withSend in Hx; cbn [batchPromises withBatches] in Hx;
          rewrite list_lookup_alter_ne in Hx by done;
          rewrite Forall_lookup in Hlive; by apply (Hlive _ _ Hx)).
    cbn [fst snd] in Hcur, Hst.
    assert (Hres : resolveBatch (clock w) bt (store w)
                   = (let r := tally (clock w) (batchAgencies bt) (sendPromise <$> sends bt)
                                 (store w) in
                      ({| batchAgencies := batchAgencies bt; sends := sends bt;
                          batchPromise := Fulfilled r.1; dispatchedAt := dispatchedAt bt |},
                       r.2))).
    { unfold resolveBatch. by rewrite Hpend, Hall. }
    rewrite Hres in Hcur, Hst. cbv zeta in Hcur, Hst. cbn [fst snd] in Hcur, Hst.
    assert (HiA : batchAgencies bt !! i = Some (sendAgency sA))
      by (by rewrite <- Hok, list_lookup_fmap, HsA).
    assert (HkB : batchAgencies bt !! k = Some (sendAgency sB))
      by (by rewrite <- Hok, list_lookup_fmap, HsB).
    assert (HrA : (sendPromise <$> sends bt) !! i = Some Rejected)
      by (by rewrite list_lookup_fmap, HsA, <- HpA).
    assert (HrB : (sendPromise <$> sends bt) !! k = Some (Fulfilled v))
      by (by rewrite list_lookup_fmap, HsB, <- HpB).
    destruct (tally_quota (clock w) _ _ (store w) i k _ _ v Hnd HiA HrA HkB HrB)
      as [HB HA].
    cbv zeta in HB, HA. rewrite Hst. split; [exact HB|]. split; [exact HA|].
    assert (Hlen : length (batchAgencies bt) = length (sends bt))
      by (by rewrite <- Hok, length_fmap).
    destruct (tally_counts (clock w) _ _ (store w) Hlen) as [Hsucc Hsum].
    cbv zeta in Hsucc, Hsum.
    eexists _, _. split.
    { rewrite Hcur. apply list_lookup_insert_eq. by eapply lookup_lt_Some. }
    cbn [sends batchPromise]. split; [done|]. split; [done|].
    split; [exact Hsucc|]. split; [exact Hsum|].
    assert (HinA : sA ∈ sends bt) by (by eapply list_elem_of_lookup_2).
    assert (HinB : sB ∈ sends bt) by (by eapply list_elem_of_lookup_2).
    assert (Hp : (0 < length (List.filter (fun s => isFulfilled (sendPromise s)) (sends bt)))%nat).
    { apply (filter_length_pos _ _ sB HinB). by rewrite HpB. }
    assert (Hl : (length (List.filter (fun s => isFulfilled (sendPromise s)) (sends bt))
                  < length (sends bt))%nat).
    { apply (filter_length_lt _ _ sA HinA). by rewrite HpA. }
    lia.
  - intros t0 d es dn b s ok j b' s' w w' El Hne.
    pose proof (invariant_run es _ (invariant_boot t0 d)) as Hinv. fold w in Hinv.
    destruct (onEmail_batches dn b s ok j w Hinv El) as [Hcur _]. cbv zeta in Hcur.
    change (step (EmailSettles dn b s ok) w) with (onEmail dn b s ok w) in w'.
    fold w' in Hcur. rewrite <- (withSend_other b s (settleEmail ok) j b' s' Hne).
    pose proof (resolveBatches_sends (clock w)
                  (batchPromises (withSend b s (settleEmail ok) j)) (store w)) as Hs.
    rewrite <- Hcur in Hs. apply (f_equal (fun l => l !! b')) in Hs.
    rewrite !list_lookup_fmap in Hs.
    destruct (currentBatches w' !! b'), (batchPromises _ !! b'); cbn in *; congruence.
  - intros t0 d es dn b s w'.
    apply (every_task_can_finish d).
    + apply invariant_step, invariant_run, invariant_boot.
    + apply audited_step; [apply invariant_run, invariant_boot|apply audited_run].
Qed.

(** In [Samples.mixedRun] the mail to the first agency has failed. The
    step that takes the delivery of the mail to the second agency leaves
    the count of the second agency at 1 and the document of the first
    as it was, fulfils the promise of the batch with one success and one
    error, and leaves the send to the first agency rejected. *)
Lemma failure_is_isolated_witness :
  let w := run [Distribute (Some (Samples.southCandidate 7)); EmailSettles 0 0 0 false]
             (boot Samples.now (Samples.agenciesDb 2)) in
  let w' := step (EmailSettles 0 0 1 true) w in
  findById 1%N (store w') = Some (Samples.agencyDoc 1 1 (Samples.now - 1000))
  /\ findById 0%N (store w') = Some (Samples.agencyDoc 0 0 (Samples.now - 1000))
  /\ (exists bt' c, currentBatches w' !! 0%nat = Some bt'
                    /\ batchPromise bt' = Fulfilled c
                    /\ success c = 1%nat /\ (success c + errors c = 2)%nat)
  /\ (exists sA, (currentBatches w' !! 0%nat) ≫= (fun bt => sends bt !! 0%nat) = Some sA
                 /\ sendPromise sA = Rejected).
Proof.
  intros w w'.
  epose proof (proj1 (proj2 (proj2 (proj2 (proj2 failure_is_isolated))))
                 Samples.now (Samples.agenciesDb 2)
                 [Distribute (Some (Samples.southCandidate 7)); EmailSettles 0 0 0 false]
                 0%nat 0%nat 1%nat true _ _ 0%nat 1%nat _ _ true) as H.
  epose proof (proj1 (proj2 (proj2 (proj2 (proj2 (proj2 failure_is_isolated)))))
                 Samples.now (Samples.agenciesDb 2)
                 [Distribute (Some (Samples.southCandidate 7)); EmailSettles 0 0 0 false]
                 0%nat 0%nat 1%nat true _ 0%nat 0%nat) as H'.
  cbv zeta in H, H'.
  edestruct H as (HB & HA & bt' & c & Hcur & _ & Hful & Hsucc & Hsum & _).
  - vm_compute. reflexivity.
  - vm_compute. reflexivity.
  - vm_compute. reflexivity.
  - vm_compute. reflexivity.
  - apply (bool_decide_unpack _). vm_compute. exact I.
  - vm_compute. reflexivity.
  - vm_compute. reflexivity.
  - vm_compute. reflexivity.
  - vm_compute. reflexivity.
  - split_and!.
    + etrans; [exact HB|]. vm_compute. reflexivity.
    + etrans; [exact HA|]. vm_compute. reflexivity.
    + exists bt', c. split; [exact Hcur|]. split; [exact Hful|].
      split; [exact Hsucc|exact Hsum].
    + eexists. split.
      * etrans; [apply H'; [vm_compute; reflexivity|discriminate]|].
        vm_compute. reflexivity.
      * reflexivity.
Defined.





End ServiceRuns.
